(** * AIVERSE core: the AIEX matching engine and the world state machine

    A shallow embedding of [src/core/types.py], [src/core/exchange.py] and
    [src/core/world.py], together with the part of CPython's [heapq] that the
    order book calls.

    Modelling conventions.
    - Python [float] amounts (balances, prices, quantities) are exact
      rationals [Q]; rounding is not represented.
    - [datetime] values are integer microsecond counts [Z]; the value read by
      [datetime.utcnow()] during a call is the argument [now] of that call.
    - Python objects that are shared and mutated ([Order]) live in an object
      store ([objects]); a reference is an index into it.  The order index
      and the order-book heaps hold references, so a mutation through one is
      seen through the other.
    - Mutation and exceptions are a state monad whose state survives a
      raised exception, as in-place mutation does in Python. *)

From Stdlib Require Import ZArith QArith Lqa Lia Ascii String.
From stdpp Require Import gmap strings list fin_maps.

Local Open Scope Z_scope.

(** ** Outcomes and the state monad *)

Inductive PyExc := KeyError | TypeError | IndexError | ZeroDivisionError.

(** [Stuck] is not a Python outcome: it marks a loop that ran out of fuel or
    a reference that is not in the object store. *)
Inductive outcome (A : Type) :=
| Returns (a : A)
| Raises (e : PyExc)
| Stuck.
Arguments Returns {A} a.
Arguments Raises {A} e.
Arguments Stuck {A}.

Definition M (S A : Type) : Type := S → S * outcome A.

Definition ret {S A} (a : A) : M S A := λ s, (s, Returns a).
Definition bind {S A B} (c : M S A) (k : A → M S B) : M S B :=
  λ s, match c s with
       | (s', Returns a) => k a s'
       | (s', Raises e) => (s', Raises e)
       | (s', Stuck) => (s', Stuck)
       end.
Definition raise {S A} (e : PyExc) : M S A := λ s, (s, Raises e).
Definition stuck {S A} : M S A := λ s, (s, Stuck).
Definition get {S} : M S S := λ s, (s, Returns s).
Definition gets {S A} (f : S → A) : M S A := λ s, (s, Returns (f s)).
Definition modify {S} (f : S → S) : M S unit := λ s, (f s, Returns tt).
Definition lift_outcome {S A} (o : outcome A) : M S A := λ s, (s, o).

Global Instance M_ret {S} : MRet (M S) := λ A, ret.
Global Instance M_bind {S} : MBind (M S) := λ A B k c, bind c k.

(** Run a computation on a component of the state. *)
Definition zoom {S T A} (proj : S → T) (upd : T → S → S) (c : M T A) : M S A :=
  λ s, let '(t', o) := c (proj s) in (upd t' s, o).

(** ** Numbers *)

Definition Qltb (x y : Q) : bool := negb (Qle_bool y x).

(** Python's [min(a, b)]: [b] if [b < a], else [a]. *)
Definition py_min (a b : Q) : Q := if Qltb b a then b else a.

(** Truthiness of an [Optional[float]]: [None] and [0.0] are falsy. *)
Definition truthy (p : option Q) : bool :=
  match p with
  | None => false
  | Some q => negb (Qeq_bool q 0)
  end.

(** Arithmetic or ordering on [None] raises [TypeError]. *)
Definition as_num {S} (p : option Q) : M S Q :=
  match p with
  | Some q => ret q
  | None => raise TypeError
  end.

(** [==] on two [Optional[float]]. *)
Definition optQ_eqb (p1 p2 : option Q) : bool :=
  match p1, p2 with
  | None, None => true
  | Some a, Some b => Qeq_bool a b
  | _, _ => false
  end.

(** ** Strings: [str.upper] and [str.lower] on ASCII text *)

Definition ascii_upper (c : ascii) : ascii :=
  let n := nat_of_ascii c in
  if ((97 <=? n)%nat && (n <=? 122)%nat)%bool then ascii_of_nat (n - 32) else c.
Definition ascii_lower (c : ascii) : ascii :=
  let n := nat_of_ascii c in
  if ((65 <=? n)%nat && (n <=? 90)%nat)%bool then ascii_of_nat (n + 32) else c.

Fixpoint upper (s : string) : string :=
  match s with
  | EmptyString => EmptyString
  | String c s' => String (ascii_upper c) (upper s')
  end.
Fixpoint lower (s : string) : string :=
  match s with
  | EmptyString => EmptyString
  | String c s' => String (ascii_lower c) (lower s')
  end.

(** ** Python lists used as arrays *)

Section pylist.
Context {A : Type}.

(** [l[i]] *)
Definition list_get (i : nat) : M (list A) A :=
  λ l, match l !! i with
       | Some x => (l, Returns x)
       | None => (l, Raises IndexError)
       end.

(** [l[i] = x] *)
Definition list_set (i : nat) (x : A) : M (list A) unit :=
  λ l, if decide (i < length l)%nat then (<[i:=x]> l, Returns tt)
       else (l, Raises IndexError).

(** [l.append(x)] *)
Definition list_append (x : A) : M (list A) unit :=
  modify (λ l, l ++ [x]).

(** [l.pop()] *)
Definition list_pop : M (list A) A :=
  λ l, match last l with
       | Some x => (take (length l - 1) l, Returns x)
       | None => (l, Raises IndexError)
       end.
End pylist.

(** ** [heapq]: the functions of CPython's [heapq] that the book calls

    CPython runs the C implementation ([Modules/_heapqmodule.c]), which
    [Lib/heapq.py] imports over its own functions.  The C code sifts by
    swapping two items of the list in place, so the list holds the same
    items at every moment, also when a comparison raises.  The checks that
    the list did not change size during a comparison are not represented:
    comparing two heap items changes no list.

    [lt a b] is Python's [a < b] on heap items; it may raise. *)

Section heapq.
Context {A : Type} (lt : A → A → outcome bool).

(** The [while (pos > startpos)] loop of [siftdown]: the item at [pos] is
    swapped with its parent as long as it is smaller.  [pos] decreases at
    every iteration. *)
Fixpoint _siftdown_loop (fuel : nat) (newitem : A) (startpos pos : nat)
  : M (list A) unit :=
  match fuel with
  | O => stuck
  | S fuel' =>
      if (startpos <? pos)%nat then
        let parentpos := ((pos - 1) / 2)%nat in
        parent ← list_get parentpos;
        b ← lift_outcome (lt newitem parent);
        if b : bool then
          parent ← list_get parentpos;
          newitem ← list_get pos;
          list_set parentpos newitem;;
          list_set pos parent;;
          _siftdown_loop fuel' newitem startpos parentpos
        else ret tt
      else ret tt
  end.

(** [siftdown(heap, startpos, pos)] *)
Definition _siftdown (startpos pos : nat) : M (list A) unit :=
  size ← gets length;
  if (size <=? pos)%nat then raise IndexError
  else
    newitem ← list_get pos;
    _siftdown_loop (S pos) newitem startpos pos.

(** The [while (pos < limit)] loop of [siftup]: the smaller child is swapped
    with the item at [pos] until [pos] is a leaf; returns the final
    [pos]. *)
Fixpoint _siftup_loop (fuel : nat) (endpos limit pos : nat) : M (list A) nat :=
  match fuel with
  | O => stuck
  | S fuel' =>
      if (pos <? limit)%nat then
        let childpos := (2 * pos + 1)%nat in
        childpos' ←
          (if (childpos + 1 <? endpos)%nat then
             a ← list_get childpos;
             b ← list_get (childpos + 1)%nat;
             cmp ← lift_outcome (lt a b);
             ret (if cmp : bool then childpos else (childpos + 1)%nat)
           else ret childpos);
        tmp1 ← list_get childpos';
        tmp2 ← list_get pos;
        list_set childpos' tmp2;;
        list_set pos tmp1;;
        _siftup_loop fuel' endpos limit childpos'
      else ret pos
  end.

(** [siftup(heap, pos)] *)
Definition _siftup (pos : nat) : M (list A) unit :=
  endpos ← gets length;
  let startpos := pos in
  if (endpos <=? pos)%nat then raise IndexError
  else
    let limit := (endpos / 2)%nat in
    pos' ← _siftup_loop (S endpos) endpos limit pos;
    _siftdown startpos pos'.

(** [heapq.heappush(heap, item)] *)
Definition heappush (item : A) : M (list A) unit :=
  list_append item;;
  n ← gets length;
  _siftdown 0 (n - 1).

(** [heapq.heappop(heap)]: the last item is taken off the list, and put in
    the place of the first, which is returned. *)
Definition heappop : M (list A) A :=
  lastelt ← list_pop;
  n ← gets length;
  if (0 <? n)%nat then
    returnitem ← list_get 0%nat;
    list_set 0%nat lastelt;;
    _siftup 0;;
    ret returnitem
  else ret lastelt.
End heapq.

(** ** Data model ([src/core/types.py]) *)

Inductive OrderSide := BUY | SELL.
Inductive OrderType := MARKET | LIMIT.
Inductive OrderStatus := PENDING | FILLED | PARTIAL | CANCELLED.
Inductive CompanyStatus := PRIVATE | IPO | PUBLIC | BANKRUPT.

Global Instance OrderSide_eq_dec : EqDecision OrderSide.
Proof. solve_decision. Defined.
Global Instance OrderType_eq_dec : EqDecision OrderType.
Proof. solve_decision. Defined.
Global Instance OrderStatus_eq_dec : EqDecision OrderStatus.
Proof. solve_decision. Defined.
Global Instance CompanyStatus_eq_dec : EqDecision CompanyStatus.
Proof. solve_decision. Defined.

Module Agent.
Record t := mk {
  id : string;
  name : string;
  balance : Q;
  created_at : Z;
  reputation : Q;
  total_trades : Z;
  total_pnl : Q;
  portfolio : gmap string Q
}.
Definition set_balance (f : Q → Q) (a : t) : t :=
  mk (id a) (name a) (f (balance a)) (created_at a) (reputation a)
     (total_trades a) (total_pnl a) (portfolio a).
Definition set_total_trades (f : Z → Z) (a : t) : t :=
  mk (id a) (name a) (balance a) (created_at a) (reputation a)
     (f (total_trades a)) (total_pnl a) (portfolio a).
Definition set_portfolio (f : gmap string Q → gmap string Q) (a : t) : t :=
  mk (id a) (name a) (balance a) (created_at a) (reputation a)
     (total_trades a) (total_pnl a) (f (portfolio a)).
End Agent.

Module Company.
Record t := mk {
  id : string;
  ticker : string;
  name : string;
  description : string;
  founder_id : string;
  status : CompanyStatus;
  created_at : Z;
  total_shares : Z;
  public_shares : Q;
  share_price : Q;
  market_cap : Q;
  daily_active_users : Z;
  total_api_calls : Z;
  revenue : Q;
  service_type : string;
  service_cost : Q
}.
Definition set_status (x : CompanyStatus) (c : t) : t :=
  mk (id c) (ticker c) (name c) (description c) (founder_id c) x
     (created_at c) (total_shares c) (public_shares c) (share_price c)
     (market_cap c) (daily_active_users c) (total_api_calls c) (revenue c)
     (service_type c) (service_cost c).
Definition set_public_shares (x : Q) (c : t) : t :=
  mk (id c) (ticker c) (name c) (description c) (founder_id c) (status c)
     (created_at c) (total_shares c) x (share_price c)
     (market_cap c) (daily_active_users c) (total_api_calls c) (revenue c)
     (service_type c) (service_cost c).
Definition set_share_price (x : Q) (c : t) : t :=
  mk (id c) (ticker c) (name c) (description c) (founder_id c) (status c)
     (created_at c) (total_shares c) (public_shares c) x
     (market_cap c) (daily_active_users c) (total_api_calls c) (revenue c)
     (service_type c) (service_cost c).
Definition set_market_cap (x : Q) (c : t) : t :=
  mk (id c) (ticker c) (name c) (description c) (founder_id c) (status c)
     (created_at c) (total_shares c) (public_shares c) (share_price c)
     x (daily_active_users c) (total_api_calls c) (revenue c)
     (service_type c) (service_cost c).
Definition set_total_api_calls (f : Z → Z) (c : t) : t :=
  mk (id c) (ticker c) (name c) (description c) (founder_id c) (status c)
     (created_at c) (total_shares c) (public_shares c) (share_price c)
     (market_cap c) (daily_active_users c) (f (total_api_calls c)) (revenue c)
     (service_type c) (service_cost c).
Definition set_revenue (f : Q → Q) (c : t) : t :=
  mk (id c) (ticker c) (name c) (description c) (founder_id c) (status c)
     (created_at c) (total_shares c) (public_shares c) (share_price c)
     (market_cap c) (daily_active_users c) (total_api_calls c) (f (revenue c))
     (service_type c) (service_cost c).
End Company.

Module Order.
Record t := mk {
  id : string;
  agent_id : string;
  ticker : string;
  side : OrderSide;
  order_type : OrderType;
  quantity : Q;
  price : option Q;
  status : OrderStatus;
  filled_quantity : Q;
  filled_price : Q;
  created_at : Z;
  filled_at : option Z
}.
Definition set_price (x : option Q) (o : t) : t :=
  mk (id o) (agent_id o) (ticker o) (side o) (order_type o) (quantity o)
     x (status o) (filled_quantity o) (filled_price o) (created_at o)
     (filled_at o).
Definition set_status (x : OrderStatus) (o : t) : t :=
  mk (id o) (agent_id o) (ticker o) (side o) (order_type o) (quantity o)
     (price o) x (filled_quantity o) (filled_price o) (created_at o)
     (filled_at o).
Definition set_filled_quantity (f : Q → Q) (o : t) : t :=
  mk (id o) (agent_id o) (ticker o) (side o) (order_type o) (quantity o)
     (price o) (status o) (f (filled_quantity o)) (filled_price o)
     (created_at o) (filled_at o).
Definition set_filled_price (x : Q) (o : t) : t :=
  mk (id o) (agent_id o) (ticker o) (side o) (order_type o) (quantity o)
     (price o) (status o) (filled_quantity o) x (created_at o)
     (filled_at o).
Definition set_filled_at (x : option Z) (o : t) : t :=
  mk (id o) (agent_id o) (ticker o) (side o) (order_type o) (quantity o)
     (price o) (status o) (filled_quantity o) (filled_price o)
     (created_at o) x.

(** The dataclass-generated [__eq__]: field-wise [==]. *)
Definition eqb (a b : t) : bool :=
  bool_decide (id a = id b) && bool_decide (agent_id a = agent_id b)
  && bool_decide (ticker a = ticker b) && bool_decide (side a = side b)
  && bool_decide (order_type a = order_type b)
  && Qeq_bool (quantity a) (quantity b) && optQ_eqb (price a) (price b)
  && bool_decide (status a = status b)
  && Qeq_bool (filled_quantity a) (filled_quantity b)
  && Qeq_bool (filled_price a) (filled_price b)
  && bool_decide (created_at a = created_at b)
  && bool_decide (filled_at a = filled_at b).

(** An order as its constructor leaves it when the caller passes the six
    fields the callers in this repository pass. *)
Definition fresh (o : t) : Prop :=
  status o = PENDING ∧ filled_quantity o = 0%Q ∧ filled_price o = 0%Q
  ∧ filled_at o = None.
End Order.

(** A trade record.  The [id] field (a random uuid prefix) is not
    represented. *)
Module Trade.
Record t := mk {
  ticker : string;
  buyer_id : string;
  seller_id : string;
  quantity : Q;
  price : Q;
  timestamp : Z;
  buyer_order_id : string;
  seller_order_id : string
}.
End Trade.

(** A reference to an [Order] object. *)
Abbreviation ref := nat (only parsing).

(** A heap entry [(±price, created_at.timestamp(), order)]. *)
Definition entry : Type := option Q * Z * ref.
Definition entry_key (e : entry) : option Q := e.1.1.
Definition entry_ts (e : entry) : Z := e.1.2.
Definition entry_ref (e : entry) : ref := e.2.

Module OrderBook.
Record t := mk {
  ticker : string;
  bids : list entry;
  asks : list entry
}.
Definition set_bids (x : list entry) (b : t) : t := mk (ticker b) x (asks b).
Definition set_asks (x : list entry) (b : t) : t := mk (ticker b) (bids b) x.
End OrderBook.

(** The state of an [Exchange] object together with the object store of the
    [Order] objects it references. *)
Record Exchange := mkExchange {
  agents : gmap string Agent.t;
  companies : gmap string Company.t;
  order_books : gmap string OrderBook.t;
  trades : list Trade.t;
  orders : gmap string ref;
  price_history : gmap string (list (Z * Q));
  objects : list Order.t
}.

Definition set_agents (f : gmap string Agent.t → gmap string Agent.t) (s : Exchange) :=
  mkExchange (f (agents s)) (companies s) (order_books s) (trades s) (orders s)
             (price_history s) (objects s).
Definition set_companies (f : gmap string Company.t → gmap string Company.t) (s : Exchange) :=
  mkExchange (agents s) (f (companies s)) (order_books s) (trades s) (orders s)
             (price_history s) (objects s).
Definition set_order_books (f : gmap string OrderBook.t → gmap string OrderBook.t) (s : Exchange) :=
  mkExchange (agents s) (companies s) (f (order_books s)) (trades s) (orders s)
             (price_history s) (objects s).
Definition set_trades (f : list Trade.t → list Trade.t) (s : Exchange) :=
  mkExchange (agents s) (companies s) (order_books s) (f (trades s)) (orders s)
             (price_history s) (objects s).
Definition set_orders (f : gmap string ref → gmap string ref) (s : Exchange) :=
  mkExchange (agents s) (companies s) (order_books s) (trades s) (f (orders s))
             (price_history s) (objects s).
Definition set_price_history
    (f : gmap string (list (Z * Q)) → gmap string (list (Z * Q))) (s : Exchange) :=
  mkExchange (agents s) (companies s) (order_books s) (trades s) (orders s)
             (f (price_history s)) (objects s).
Definition set_objects (f : list Order.t → list Order.t) (s : Exchange) :=
  mkExchange (agents s) (companies s) (order_books s) (trades s) (orders s)
             (price_history s) (f (objects s)).

(** [Exchange.__init__] *)
Definition Exchange_init : Exchange := mkExchange ∅ ∅ ∅ [] ∅ ∅ [].

(** ** The order book ([OrderBook] in [src/core/exchange.py]) *)

(** Python's [<] on two heap entries (tuples): the first component on which
    the tuples differ (by [==]) decides; [None] is not ordered against a
    number, and [Order] defines [__eq__] but no [__lt__]. *)
Definition entry_lt (objs : list Order.t) (e1 e2 : entry) : outcome bool :=
  let '(p1, t1, r1) := e1 in
  let '(p2, t2, r2) := e2 in
  if optQ_eqb p1 p2 then
    if bool_decide (t1 = t2) then
      match objs !! r1, objs !! r2 with
      | Some o1, Some o2 =>
          if bool_decide (r1 = r2) || Order.eqb o1 o2 then Returns false
          else Raises TypeError
      | _, _ => Stuck
      end
    else Returns (t1 <? t2)
  else
    match p1, p2 with
    | Some a, Some b => Returns (Qltb a b)
    | _, _ => Raises TypeError
    end.

(** [OrderBook.add_order] *)
Definition add_order (objs : list Order.t) (r : ref) : M OrderBook.t unit :=
  match objs !! r with
  | None => stuck
  | Some order =>
      match Order.side order with
      | BUY =>
          p ← as_num (Order.price order);
          let e : entry := (Some (- p)%Q, Order.created_at order, r) in
          zoom OrderBook.bids OrderBook.set_bids (heappush (entry_lt objs) e)
      | SELL =>
          let e : entry := (Order.price order, Order.created_at order, r) in
          zoom OrderBook.asks OrderBook.set_asks (heappush (entry_lt objs) e)
      end
  end.

(** The [while self.bids:] loop of [best_bid] (and the identical loop of
    [best_ask]) on the heap of one side. *)
Fixpoint best_loop (fuel : nat) (objs : list Order.t) : M (list entry) (option ref) :=
  match fuel with
  | O => stuck
  | S fuel' =>
      h ← get;
      match h with
      | [] => ret None
      | e :: _ =>
          match objs !! entry_ref e with
          | None => stuck
          | Some order =>
              if bool_decide (Order.status order = PENDING)
              then ret (Some (entry_ref e))
              else heappop (entry_lt objs);; best_loop fuel' objs
          end
      end
  end.

Definition best_of_heap (objs : list Order.t) : M (list entry) (option ref) :=
  h ← get; best_loop (S (length h)) objs.

(** [OrderBook.best_bid] *)
Definition best_bid (objs : list Order.t) : M OrderBook.t (option ref) :=
  zoom OrderBook.bids OrderBook.set_bids (best_of_heap objs).

(** [OrderBook.best_ask] *)
Definition best_ask (objs : list Order.t) : M OrderBook.t (option ref) :=
  zoom OrderBook.asks OrderBook.set_asks (best_of_heap objs).

(** ** The exchange ([Exchange] in [src/core/exchange.py]) *)

(** Read and write an [Order] object through a reference. *)
Definition get_obj (r : ref) : M Exchange Order.t :=
  λ s, match objects s !! r with
       | Some o => (s, Returns o)
       | None => (s, Stuck)
       end.
Definition modify_obj (r : ref) (f : Order.t → Order.t) : M Exchange unit :=
  modify (set_objects (alter f r)).

(** [self.agents[k]] and [self.companies[k]]: [KeyError] on a missing key. *)
Definition agent_at (k : string) : M Exchange Agent.t :=
  λ s, match agents s !! k with
       | Some a => (s, Returns a)
       | None => (s, Raises KeyError)
       end.
Definition company_at (k : string) : M Exchange Company.t :=
  λ s, match companies s !! k with
       | Some c => (s, Returns c)
       | None => (s, Raises KeyError)
       end.

(** A method call on the book object [self.order_books[k]]. *)
Definition with_book {A} (k : string) (c : list Order.t → M OrderBook.t A)
  : M Exchange A :=
  λ s, match order_books s !! k with
       | None => (s, Raises KeyError)
       | Some b =>
           let '(b', o) := c (objects s) b in
           (set_order_books <[k:=b']> s, o)
       end.

(** [Exchange.register_agent] *)
Definition register_agent (agent_id name : string) (initial_balance : Q) (now : Z)
  : M Exchange Agent.t :=
  s ← get;
  match agents s !! agent_id with
  | Some a => ret a
  | None =>
      let agent := Agent.mk agent_id name initial_balance now 100 0 0 ∅ in
      modify (set_agents <[agent_id:=agent]>);;
      ret agent
  end.

(** [Exchange.get_agent] *)
Definition get_agent (agent_id : string) : M Exchange (option Agent.t) :=
  gets (λ s, agents s !! agent_id).

(** [Exchange.daily_income] *)
Definition DAILY_INCOME : Q := 1000.
Definition daily_income : M Exchange unit :=
  modify (set_agents (fmap (Agent.set_balance (λ b, b + DAILY_INCOME)%Q))).

(** [Exchange.create_company] *)
Definition CREATION_COST : Q := 10000.
Definition create_company (founder_id ticker name description service_type : string)
    (service_cost : Q) (now : Z) : M Exchange (option Company.t) :=
  s ← get;
  match agents s !! founder_id with
  | None => ret None
  | Some founder =>
      if Qltb (Agent.balance founder) CREATION_COST then ret None
      else if bool_decide (is_Some (companies s !! ticker)) then ret None
      else
        modify (set_agents
          (alter (Agent.set_balance (λ b, b - CREATION_COST)%Q) founder_id));;
        let company :=
          Company.mk (lower ticker) (upper ticker) name description founder_id
            PRIVATE now 1000000 0 1 0 0 0 0 service_type service_cost in
        modify (set_companies <[upper ticker:=company]>);;
        modify (set_order_books
          <[upper ticker:=OrderBook.mk (upper ticker) [] []]>);;
        modify (set_agents
          (alter (Agent.set_portfolio
                    <[upper ticker:=inject_Z (Company.total_shares company)]>)
                 founder_id));;
        ret (Some company)
  end.

(** [Exchange._execute_trade] *)
Definition _execute_trade (order1 order2 : ref) (quantity : Q) (price : option Q)
    (now : Z) : M Exchange unit :=
  o1 ← get_obj order1;
  let buyer_order := if bool_decide (Order.side o1 = BUY) then order1 else order2 in
  let seller_order := if bool_decide (Order.side o1 = BUY) then order2 else order1 in
  bo ← get_obj buyer_order;
  so ← get_obj seller_order;
  let bk := Order.agent_id bo in
  let sk := Order.agent_id so in
  buyer ← agent_at bk;
  seller ← agent_at sk;
  let ticker := Order.ticker o1 in
  p ← as_num price;
  let total_cost := (quantity * p)%Q in
  modify (set_agents (alter (Agent.set_balance (λ b, b - total_cost)%Q) bk));;
  modify (set_agents (alter (Agent.set_balance (λ b, b + total_cost)%Q) sk));;
  modify (set_agents (alter (Agent.set_portfolio
    (λ pf, <[ticker:=(default 0%Q (pf !! ticker) + quantity)%Q]> pf)) bk));;
  modify (set_agents (alter (Agent.set_portfolio
    (λ pf, <[ticker:=(default 0%Q (pf !! ticker) - quantity)%Q]> pf)) sk));;
  modify (set_agents (alter (Agent.set_portfolio
    (λ pf, if Qle_bool (default 0%Q (pf !! ticker)) 0 then delete ticker pf else pf))
    sk));;
  modify_obj buyer_order (Order.set_filled_quantity (λ f, f + quantity)%Q);;
  modify_obj seller_order (Order.set_filled_quantity (λ f, f + quantity)%Q);;
  modify_obj buyer_order (Order.set_filled_price p);;
  modify_obj seller_order (Order.set_filled_price p);;
  bo' ← get_obj buyer_order;
  (if Qle_bool (Order.quantity bo') (Order.filled_quantity bo')
   then modify_obj buyer_order
          (λ o, Order.set_filled_at (Some now) (Order.set_status FILLED o))
   else ret tt);;
  so' ← get_obj seller_order;
  (if Qle_bool (Order.quantity so') (Order.filled_quantity so')
   then modify_obj seller_order
          (λ o, Order.set_filled_at (Some now) (Order.set_status FILLED o))
   else ret tt);;
  modify (set_agents (alter (Agent.set_total_trades (λ n, n + 1)) bk));;
  modify (set_agents (alter (Agent.set_total_trades (λ n, n + 1)) sk));;
  let trade :=
    Trade.mk ticker (Agent.id buyer) (Agent.id seller) quantity p now
             (Order.id bo) (Order.id so) in
  modify (set_trades (λ l, l ++ [trade]));;
  company ← company_at ticker;
  modify (set_companies (alter
    (λ c, Company.set_market_cap (inject_Z (Company.total_shares c) * p)%Q
            (Company.set_share_price p c)) ticker));;
  modify (set_price_history
    (λ h, <[ticker:=default [] (h !! ticker) ++ [(now, p)]]> h)).

(** [Exchange._get_market_price]: the result is [ask.price], which is
    [None] when the resting order has no price. *)
Definition _get_market_price (ticker : string) (side : OrderSide)
  : M Exchange (option Q) :=
  s ← get;
  match order_books s !! ticker with
  | None => c ← company_at ticker; ret (Some (Company.share_price c))
  | Some _ =>
      top ← with_book ticker (match side with BUY => best_ask | SELL => best_bid end);
      match top with
      | Some r => o ← get_obj r; ret (Order.price o)
      | None => c ← company_at ticker; ret (Some (Company.share_price c))
      end
  end.

(** The [while order.filled_quantity < order.quantity] loop of
    [_match_order]. *)
Fixpoint _match_loop (fuel : nat) (r : ref) (now : Z) : M Exchange unit :=
  match fuel with
  | O => stuck
  | S fuel' =>
      order ← get_obj r;
      if Qltb (Order.filled_quantity order) (Order.quantity order) then
        counter ← with_book (Order.ticker order)
          (match Order.side order with BUY => best_ask | SELL => best_bid end);
        match counter with
        | None => ret tt
        | Some cr =>
            c ← get_obj cr;
            stop ←
              (if truthy (Order.price order) then
                 cp ← as_num (Order.price c);
                 op ← as_num (Order.price order);
                 ret (match Order.side order with
                      | BUY => Qltb op cp
                      | SELL => Qltb cp op
                      end)
               else ret false);
            if stop : bool then ret tt
            else
              let trade_qty :=
                py_min (Order.quantity order - Order.filled_quantity order)%Q
                       (Order.quantity c - Order.filled_quantity c)%Q in
              let trade_price := Order.price c in
              _execute_trade r cr trade_qty trade_price now;;
              _match_loop fuel' r now
        end
      else ret tt
  end.

(** [Exchange._match_order].  The loop runs at most once per entry of the
    book, plus the iteration that leaves it. *)
Definition _match_order (r : ref) (now : Z) : M Exchange unit :=
  order ← get_obj r;
  s ← get;
  match order_books s !! Order.ticker order with
  | None => ret tt
  | Some book =>
      _match_loop (S (length (OrderBook.bids book) + length (OrderBook.asks book)))
                  r now;;
      order ← get_obj r;
      if Qle_bool (Order.quantity order) (Order.filled_quantity order)
      then modify_obj r (Order.set_status FILLED)
      else if Qltb 0 (Order.filled_quantity order)
      then modify_obj r (Order.set_status PARTIAL)
      else ret tt
  end.

(** [Exchange._execute_market_order] *)
Definition _execute_market_order (r : ref) (now : Z) : M Exchange unit :=
  order ← get_obj r;
  mp ← _get_market_price (Order.ticker order) (Order.side order);
  modify_obj r (Order.set_price mp);;
  _match_order r now;;
  order ← get_obj r;
  if bool_decide (Order.status order = PENDING)
  then modify_obj r (Order.set_status CANCELLED)
  else ret tt.

(** [Exchange.submit_order], called with an [Order] object the exchange does
    not hold yet: the server, the bots and [ipo] build a new [Order] for
    every call.  The object enters the object store when the exchange first
    keeps a reference to it ([self.orders[order.id] = order]); the result is
    a reference to that same object.  A call that passes again an object
    the exchange already holds is not represented. *)
Definition submit_order (order : Order.t) (now : Z) : M Exchange (option ref) :=
  s ← get;
  match agents s !! Order.agent_id order with
  | None => ret None
  | Some agent =>
      let ticker := upper (Order.ticker order) in
      if negb (bool_decide (is_Some (companies s !! ticker))) then ret None
      else
        admitted ←
          (match Order.side order with
           | BUY =>
               unit_price ←
                 (if truthy (Order.price order) then ret (Order.price order)
                  else _get_market_price ticker BUY);
               up ← as_num unit_price;
               let cost := (Order.quantity order * up)%Q in
               ret (negb (Qltb (Agent.balance agent) cost))
           | SELL =>
               let holdings := default 0%Q (Agent.portfolio agent !! ticker) in
               ret (negb (Qltb holdings (Order.quantity order)))
           end);
        if admitted : bool then
          s1 ← get;
          let r : ref := length (objects s1) in
          modify (set_objects (λ l, l ++ [order]));;
          modify (set_orders <[Order.id order:=r]>);;
          (match Order.order_type order with
           | MARKET => _execute_market_order r now
           | LIMIT =>
               _match_order r now;;
               o ← get_obj r;
               if bool_decide (Order.status o = PENDING)
               then with_book ticker (λ objs, add_order objs r)
               else ret tt
           end);;
          ret (Some r)
        else ret None
  end.

(** [Exchange.ipo].  [oid] is the id the [Order] constructor draws for the
    IPO order. *)
Definition ipo (ticker : string) (shares_to_sell price : Q) (oid : string) (now : Z)
  : M Exchange bool :=
  s ← get;
  match companies s !! upper ticker with
  | None => ret false
  | Some company =>
      if negb (bool_decide (Company.status company = PRIVATE)) then ret false
      else
        match agents s !! Company.founder_id company with
        | None => ret false
        | Some founder =>
            let founder_shares :=
              default 0%Q (Agent.portfolio founder !! upper ticker) in
            if Qltb founder_shares shares_to_sell then ret false
            else
              modify (set_companies (alter
                (λ c, Company.set_market_cap
                        (inject_Z (Company.total_shares c) * price)%Q
                        (Company.set_public_shares shares_to_sell
                           (Company.set_share_price price
                              (Company.set_status IPO c))))
                (upper ticker)));;
              let ipo_order :=
                Order.mk oid (Agent.id founder) (upper ticker) SELL LIMIT
                         shares_to_sell (Some price) PENDING 0 0 now None in
              submit_order ipo_order now;;
              modify (set_companies (alter (Company.set_status PUBLIC) (upper ticker)));;
              ret true
        end
  end.

(** ** The world ([src/core/world.py]) *)

Module ServiceUsage.
Record t := mk {
  timestamp : Z;
  agent_id : string;
  company_ticker : string;
  cost : Q;
  success : bool
}.
End ServiceUsage.

(** A world event.  The [data] dictionary and the formatted [message] are
    presentation only and are not represented. *)
Module WorldEvent.
Record t := mk {
  timestamp : Z;
  event_type : string;
  ticker : option string;
  agent_id : option string
}.
End WorldEvent.

(** The state of an [AIVerse] object.  No observer is subscribed
    ([on_event] is [None]). *)
Record AIVerse := mkAIVerse {
  exchange : Exchange;
  tick_count : Z;
  start_time : Z;
  service_usage : list ServiceUsage.t;
  events : list WorldEvent.t;
  w_daily_income : Q;
  dividend_rate : Q
}.

Definition set_exchange (x : Exchange) (w : AIVerse) :=
  mkAIVerse x (tick_count w) (start_time w) (service_usage w) (events w)
            (w_daily_income w) (dividend_rate w).
Definition set_tick_count (f : Z → Z) (w : AIVerse) :=
  mkAIVerse (exchange w) (f (tick_count w)) (start_time w) (service_usage w)
            (events w) (w_daily_income w) (dividend_rate w).
Definition set_service_usage (f : list ServiceUsage.t → list ServiceUsage.t) (w : AIVerse) :=
  mkAIVerse (exchange w) (tick_count w) (start_time w) (f (service_usage w))
            (events w) (w_daily_income w) (dividend_rate w).
Definition set_events (f : list WorldEvent.t → list WorldEvent.t) (w : AIVerse) :=
  mkAIVerse (exchange w) (tick_count w) (start_time w) (service_usage w)
            (f (events w)) (w_daily_income w) (dividend_rate w).

(** [AIVerse.__init__] *)
Definition AIVerse_init (now : Z) : AIVerse :=
  mkAIVerse Exchange_init 0 now [] [] 1000 (1 # 10).

(** A call into [self.exchange]. *)
Definition on_exchange {A} (c : M Exchange A) : M AIVerse A :=
  zoom exchange set_exchange c.

(** [AIVerse._emit_event] *)
Definition _emit_event (e : WorldEvent.t) : M AIVerse unit :=
  modify (set_events (λ l, l ++ [e])).

(** [AIVerse.join] *)
Definition join (agent_id name : string) (now : Z) : M AIVerse Agent.t :=
  w ← get;
  agent ← on_exchange (register_agent agent_id name (w_daily_income w) now);
  _emit_event (WorldEvent.mk now "join" None (Some agent_id));;
  ret agent.

(** The messages [use_service] returns. *)
Inductive ServiceMessage :=
| Agent_non_trouve
| Entreprise_non_trouvee
| Entreprise_en_faillite
| Solde_insuffisant
| Service_utilise (cost : Q).

(** [AIVerse.use_service] *)
Definition use_service (agent_id ticker : string) (now : Z)
  : M AIVerse (bool * ServiceMessage) :=
  agent ← on_exchange (get_agent agent_id);
  w ← get;
  let company := companies (exchange w) !! upper ticker in
  match agent, company with
  | None, _ => ret (false, Agent_non_trouve)
  | Some agent, None => ret (false, Entreprise_non_trouvee)
  | Some agent, Some company =>
      if bool_decide (Company.status company = BANKRUPT)
      then ret (false, Entreprise_en_faillite)
      else
        let cost := Company.service_cost company in
        if Qltb (Agent.balance agent) cost then ret (false, Solde_insuffisant)
        else
          on_exchange (modify (set_agents
            (alter (Agent.set_balance (λ b, b - cost)%Q) agent_id)));;
          on_exchange (modify (set_companies
            (alter (Company.set_revenue (λ r, r + cost)%Q) (upper ticker))));;
          on_exchange (modify (set_companies
            (alter (Company.set_total_api_calls (λ n, n + 1)) (upper ticker))));;
          let usage := ServiceUsage.mk now agent_id (upper ticker) cost true in
          modify (set_service_usage (λ l, l ++ [usage]));;
          ret (true, Service_utilise cost)
  end.

(** [AIVerse.create_company]; the message of the result pair is not
    represented. *)
Definition world_create_company
    (founder_id ticker name description service_type : string)
    (service_cost : Q) (now : Z) : M AIVerse (option Company.t) :=
  company ← on_exchange
    (create_company founder_id ticker name description service_type service_cost now);
  match company with
  | None => ret None
  | Some c =>
      _emit_event (WorldEvent.mk now "company_created" (Some (upper ticker))
                                 (Some founder_id));;
      ret (Some c)
  end.

(** [AIVerse.launch_ipo] *)
Definition launch_ipo (ticker : string) (shares price : Q) (oid : string) (now : Z)
  : M AIVerse bool :=
  success ← on_exchange (ipo ticker shares price oid now);
  if success : bool then
    w ← get;
    match companies (exchange w) !! upper ticker with
    | None => raise KeyError
    | Some company =>
        _emit_event (WorldEvent.mk now "ipo" (Some (upper ticker))
                                   (Some (Company.founder_id company)));;
        ret true
    end
  else ret false.

(** [AIVerse._distribute_dividends] *)
Definition _distribute_dividends (company : Company.t) (now : Z) : M AIVerse unit :=
  w ← get;
  let total_dividend := (Company.revenue company * dividend_rate w)%Q in
  if bool_decide (Company.total_shares company = 0) then raise ZeroDivisionError
  else
    let dividend_per_share :=
      (total_dividend / inject_Z (Company.total_shares company))%Q in
    on_exchange (modify (set_agents (fmap (λ agent,
      let shares := default 0%Q (Agent.portfolio agent !! Company.ticker company) in
      if Qltb 0 shares
      then Agent.set_balance (λ b, b + shares * dividend_per_share)%Q agent
      else agent))));;
    _emit_event (WorldEvent.mk now "dividend" (Some (Company.ticker company)) None).

(** [AIVerse._bankrupt]; [k] is the key under which the company object is
    stored. *)
Definition _bankrupt (k : string) (company : Company.t) (now : Z) : M AIVerse unit :=
  on_exchange (modify (set_companies (alter
    (λ c, Company.set_market_cap 0
            (Company.set_share_price 0 (Company.set_status BANKRUPT c))) k)));;
  on_exchange (modify (set_agents (fmap
    (Agent.set_portfolio (delete (Company.ticker company))))));;
  _emit_event (WorldEvent.mk now "bankruptcy" (Some (Company.ticker company)) None).

(** The body of the [for ticker, company in ...items()] loop of
    [_daily_cycle]. *)
Definition _daily_cycle_body (k : string) (now : Z) : M AIVerse unit :=
  w ← get;
  match companies (exchange w) !! k with
  | None => stuck
  | Some company =>
      (if bool_decide (Company.status company = PUBLIC)
          && Qltb 0 (Company.revenue company)
       then
         _distribute_dividends company now;;
         on_exchange (modify (set_companies
           (alter (Company.set_revenue (λ _, 0%Q)) k)))
       else ret tt);;
      if bool_decide (Company.status company = PUBLIC) then
        if bool_decide (Company.total_api_calls company = 0)
           && Qltb (Company.share_price company) (1 # 100)
        then _bankrupt k company now
        else ret tt
      else ret tt
  end.

Fixpoint for_each {S A} (l : list A) (body : A → M S unit) : M S unit :=
  match l with
  | [] => ret tt
  | x :: l' => body x;; for_each l' body
  end.

(** [AIVerse._daily_cycle].  The companies are visited in the order of
    [map_to_list]; the visits commute up to [==] on balances. *)
Definition _daily_cycle (now : Z) : M AIVerse unit :=
  on_exchange daily_income;;
  w ← get;
  for_each (map_to_list (companies (exchange w))).*1 (λ k, _daily_cycle_body k now).

(** [AIVerse.tick] *)
Definition tick (now : Z) : M AIVerse unit :=
  modify (set_tick_count (λ n, n + 1));;
  w ← get;
  if bool_decide (tick_count w mod 1440 = 0) then _daily_cycle now else ret tt.

(** ** The effect of a settlement

    What [_execute_trade] does to each of the two orders, to the buyer and
    to the seller, and the two ways it ends once its inputs are read. *)

Definition settle (q p : Q) (now : Z) (o : Order.t) : Order.t :=
  let o' := Order.set_filled_price p (Order.set_filled_quantity (λ f, f + q)%Q o) in
  if Qle_bool (Order.quantity o') (Order.filled_quantity o')
  then Order.set_filled_at (Some now) (Order.set_status FILLED o')
  else o'.

Definition credit_buyer (t : string) (q cost : Q) (a : Agent.t) : Agent.t :=
  Agent.set_total_trades (λ n, n + 1)
    (Agent.set_portfolio (λ pf, <[t:=(default 0%Q (pf !! t) + q)%Q]> pf)
       (Agent.set_balance (λ b, b - cost)%Q a)).

Definition debit_seller (t : string) (q cost : Q) (a : Agent.t) : Agent.t :=
  Agent.set_total_trades (λ n, n + 1)
    (Agent.set_portfolio
       (λ pf, if Qle_bool (default 0%Q (pf !! t)) 0 then delete t pf else pf)
       (Agent.set_portfolio (λ pf, <[t:=(default 0%Q (pf !! t) - q)%Q]> pf)
          (Agent.set_balance (λ b, b + cost)%Q a))).

Definition mark_price (p : Q) (c : Company.t) : Company.t :=
  Company.set_market_cap (inject_Z (Company.total_shares c) * p)%Q
    (Company.set_share_price p c).

Inductive trade_effect (r1 r2 : ref) (q : Q) (price : option Q) (now : Z)
    (s s' : Exchange) (out : outcome unit) : Prop :=
| trade_aborted :
    s' = s → out ≠ Returns tt →
    (out = Stuck → objects s !! r1 = None ∨ objects s !! r2 = None) →
    trade_effect r1 r2 q price now s s' out
| trade_settled (o1 bo so : Order.t) (buyer seller : Agent.t) (p : Q) :
    let br := if bool_decide (Order.side o1 = BUY) then r1 else r2 in
    let sr := if bool_decide (Order.side o1 = BUY) then r2 else r1 in
    let t := Order.ticker o1 in
    objects s !! r1 = Some o1 →
    objects s !! br = Some bo →
    objects s !! sr = Some so →
    agents s !! Order.agent_id bo = Some buyer →
    agents s !! Order.agent_id so = Some seller →
    price = Some p →
    agents s' = alter (debit_seller t q (q * p)) (Order.agent_id so)
                  (alter (credit_buyer t q (q * p)) (Order.agent_id bo) (agents s)) →
    objects s' = alter (settle q p now) sr (alter (settle q p now) br (objects s)) →
    order_books s' = order_books s →
    orders s' = orders s →
    trades s' = trades s
                ++ [Trade.mk t (Agent.id buyer) (Agent.id seller) q p now
                             (Order.id bo) (Order.id so)] →
    (out = Returns tt
     ∧ companies s' = alter (mark_price p) t (companies s)
     ∧ price_history s'
       = <[t:=default [] (price_history s !! t) ++ [(now, p)]]> (price_history s)
     ∧ is_Some (companies s !! t))
    ∨ (out = Raises KeyError ∧ companies s' = companies s
       ∧ price_history s' = price_history s ∧ companies s !! t = None) →
    trade_effect r1 r2 q price now s s' out.

(** ** Executions *)

(** The operations a client of the world can invoke.  [OpRegister] is the
    direct call of [Exchange.register_agent] with a chosen starting
    balance. *)
Inductive Op :=
| OpJoin (agent_id name : string)
| OpRegister (agent_id name : string) (initial_balance : Q)
| OpCreate (founder_id ticker name description service_type : string) (service_cost : Q)
| OpIpo (ticker : string) (shares price : Q) (oid : string)
| OpSubmit (order : Order.t)
| OpUse (agent_id ticker : string)
| OpTick.

(** The state an operation leaves behind, whatever its outcome. *)
Definition run_op (op : Op) (now : Z) (w : AIVerse) : AIVerse :=
  match op with
  | OpJoin a n => (join a n now w).1
  | OpRegister a n b => (on_exchange (register_agent a n b now) w).1
  | OpCreate f t n d st sc => (world_create_company f t n d st sc now w).1
  | OpIpo t sh p oid => (launch_ipo t sh p oid now w).1
  | OpSubmit o => (on_exchange (submit_order o now) w).1
  | OpUse a t => (use_service a t now w).1
  | OpTick => (tick now w).1
  end.

Fixpoint run_ops (ops : list (Op * Z)) (w : AIVerse) : AIVerse :=
  match ops with
  | [] => w
  | (op, now) :: ops' => run_ops ops' (run_op op now w)
  end.

(** What the data model asks of the arguments: an order is submitted as its
    constructor leaves it and for a positive quantity, an IPO offers a
    non-negative number of shares, a starting balance is not negative. *)
Definition valid_op (op : Op) : Prop :=
  match op with
  | OpSubmit o => Order.fresh o ∧ (0 < Order.quantity o)%Q
  | OpIpo _ shares _ _ => (0 <= shares)%Q
  | OpRegister _ _ b => (0 <= b)%Q
  | _ => True
  end.

Definition reachable (w : AIVerse) : Prop :=
  ∃ ops t0, Forall (λ x, valid_op x.1) ops ∧ w = run_ops ops (AIVerse_init t0).

(** ** Observations *)

(** [agent.portfolio.get(ticker, 0)] *)
Definition holding (ticker : string) (a : Agent.t) : Q :=
  default 0%Q (Agent.portfolio a !! ticker).

Definition sumQ (l : list Q) : Q := foldr Qplus 0%Q l.

(** Σ g(agent) over all agents. *)
Definition sum_over (g : Agent.t → Q) (m : gmap string Agent.t) : Q :=
  sumQ (g <$> (map_to_list m).*2).

(** Σ portfolio[ticker] over all agents. *)
Definition total_held (s : Exchange) (ticker : string) : Q :=
  sum_over (holding ticker) (agents s).

Definition shares_conserved (s : Exchange) : Prop :=
  ∀ t c, companies s !! t = Some c → Company.status c ≠ BANKRUPT →
         (total_held s t == inject_Z (Company.total_shares c))%Q.

Definition balances_nonneg (s : Exchange) : Prop :=
  ∀ k a, agents s !! k = Some a → (0 <= Agent.balance a)%Q.

Definition portfolios_positive (s : Exchange) : Prop :=
  ∀ k a t q, agents s !! k = Some a → Agent.portfolio a !! t = Some q → (0 < q)%Q.

(** The entries of all the heaps of all the books. *)
Definition resting (s : Exchange) (e : entry) : Prop :=
  ∃ k b, order_books s !! k = Some b ∧ e ∈ OrderBook.bids b ++ OrderBook.asks b.

(** The status invariant of the data model, as the specification words it. *)
Definition status_invariant_spec (o : Order.t) : Prop :=
  (Order.filled_quantity o <= Order.quantity o)%Q
  ∧ (Order.status o = FILLED ↔ (Order.filled_quantity o == Order.quantity o)%Q)
  ∧ (Order.status o = PARTIAL ↔
       (0 < Order.filled_quantity o)%Q ∧ (Order.filled_quantity o < Order.quantity o)%Q).

(** The status invariant the engine maintains. *)
Definition status_invariant (o : Order.t) : Prop :=
  (0 <= Order.filled_quantity o)%Q
  ∧ (Order.filled_quantity o <= Order.quantity o)%Q
  ∧ (Order.status o = FILLED ↔ (Order.filled_quantity o == Order.quantity o)%Q)
  ∧ (Order.status o = PARTIAL →
       (0 < Order.filled_quantity o)%Q ∧ (Order.filled_quantity o < Order.quantity o)%Q)
  ∧ (Order.status o = CANCELLED →
       Order.order_type o = MARKET ∧ (Order.filled_quantity o == 0)%Q).

(** ** Test fixtures *)

Local Open Scope string_scope.

Definition limit_order (id agent ticker : string) (side : OrderSide)
    (quantity price : Q) (created_at : Z) : Order.t :=
  Order.mk id agent ticker side LIMIT quantity (Some price) PENDING 0 0 created_at None.

Definition market_order (id agent ticker : string) (side : OrderSide)
    (quantity : Q) (created_at : Z) : Order.t :=
  Order.mk id agent ticker side MARKET quantity None PENDING 0 0 created_at None.

(** The state after a computation, and its outcome. *)
Definition state_after {S A} (c : M S A) (s : S) : S := (c s).1.
Definition outcome_of {S A} (c : M S A) (s : S) : outcome A := (c s).2.

(** The seeded market of the end-to-end scenarios: agents A, B and C with
    10,000 each, ticker XYZ with 1,000 shares, held by B and C. *)
Definition seeded_agent (id : string) (pf : gmap string Q) : Agent.t :=
  Agent.mk id id 10000 0 100 0 0 pf.
Definition seeded : Exchange :=
  mkExchange
    (<["A":=seeded_agent "A" ∅]>
       (<["B":=seeded_agent "B" {["XYZ":=500%Q]}]>
          (<["C":=seeded_agent "C" {["XYZ":=500%Q]}]> ∅)))
    {["XYZ":=Company.mk "xyz" "XYZ" "XYZ" "" "B" PUBLIC 0 1000 0 1 0 0 0 0 "generic" 1]}
    {["XYZ":=OrderBook.mk "XYZ" [] []]}
    [] ∅ ∅ [].

(** Scenario E2: B posts SELL LIMIT 50 @ 10, then A posts BUY LIMIT 100 @ 10. *)
Definition E2_before : Exchange :=
  state_after (submit_order (limit_order "b1" "B" "XYZ" SELL 50 10 1) 1) seeded.
Definition E2_run : Exchange * outcome (option ref) :=
  submit_order (limit_order "a1" "A" "XYZ" BUY 100 10 2) 2 E2_before.

(** Scenario E3: B posts SELL LIMIT 10 @ 6, then C posts SELL LIMIT 10 @ 5,
    then A posts BUY LIMIT 20 @ 7. *)
Definition E3_before : Exchange :=
  state_after (submit_order (limit_order "c1" "C" "XYZ" SELL 10 5 2) 2)
    (state_after (submit_order (limit_order "b1" "B" "XYZ" SELL 10 6 1) 1) seeded).
Definition E3_run : Exchange * outcome (option ref) :=
  submit_order (limit_order "a1" "A" "XYZ" BUY 20 7 3) 3 E3_before.

(** A market opened through the exchange's own operations: F (starting with
    20,000) founds XYZ and holds its 1,000,000 shares; A starts with
    [cash]. *)
Definition opened (cash : Q) : Exchange :=
  state_after
    (register_agent "F" "Founder" 20000 0;;
     create_company "F" "XYZ" "XYZ" "" "generic" 1 0;;
     register_agent "A" "Alice" cash 0) Exchange_init.

(** F oversells: two resting SELL orders of 600,000 each, both bought by A. *)
Definition oversell_orders : list (Order.t * Z) :=
  [(limit_order "f1" "F" "XYZ" SELL 600000 1 1, 1);
   (limit_order "f2" "F" "XYZ" SELL 600000 1 2, 2);
   (limit_order "a1" "A" "XYZ" BUY 600000 1 3, 3);
   (limit_order "a2" "A" "XYZ" BUY 600000 1 4, 4)].
Definition submit_all (l : list (Order.t * Z)) : M Exchange unit :=
  for_each l (λ x, submit_order x.1 x.2;; ret tt).

(** A's resting bid is filled after A has paid for a service. *)
Definition overdraft_ops : list (Op * Z) :=
  [(OpJoin "A" "Alice", 0);
   (OpRegister "F" "Founder" 20000, 0);
   (OpCreate "F" "XYZ" "XYZ" "" "generic" 1000, 0);
   (OpSubmit (limit_order "a1" "A" "XYZ" BUY 10 100 1), 1);
   (OpUse "A" "XYZ", 2);
   (OpSubmit (limit_order "f1" "F" "XYZ" SELL 10 100 3), 3)].

(** A resting SELL of 100 is hit by a BUY of 40. *)
Definition partial_maker : Exchange :=
  state_after
    (submit_all [(limit_order "f1" "F" "XYZ" SELL 100 10 1, 1);
                 (limit_order "a1" "A" "XYZ" BUY 40 10 2, 2)]) (opened 10000).

(** Asks of 10 @ 5 and 10 @ 6 rest; A sends a MARKET BUY of 20. *)
Definition two_asks : Exchange :=
  state_after
    (submit_all [(limit_order "f1" "F" "XYZ" SELL 10 6 1, 1);
                 (limit_order "f2" "F" "XYZ" SELL 10 5 2, 2)]) (opened 10000).
Definition market_buy_run : Exchange * outcome (option ref) :=
  submit_order (market_order "a1" "A" "XYZ" BUY 20 3) 3 two_asks.

(** The stop condition of the matching loop for a BUY order, as the
    specification words it, and as the loop tests it.  [top] is the result
    of [best_ask]. *)
Definition buy_stop_spec (objs : list Order.t) (o : Order.t) (top : option ref) : Prop :=
  top = None
  ∨ ∃ cr c cp op, top = Some cr ∧ objs !! cr = Some c ∧ Order.order_type o = LIMIT
      ∧ Order.price c = Some cp ∧ Order.price o = Some op ∧ (op < cp)%Q.

Definition stop_test (objs : list Order.t) (o : Order.t) (top : option ref) : Prop :=
  top = None
  ∨ ∃ cr c cp op, top = Some cr ∧ objs !! cr = Some c ∧ truthy (Order.price o) = true
      ∧ Order.price c = Some cp ∧ Order.price o = Some op
      ∧ match Order.side o with BUY => (op < cp)%Q | SELL => (cp < op)%Q end.

(** The best-of-side lookup on the side opposite to [o], on the book
    [o.ticker] names. *)
Definition opposite_best (o : Order.t) : M Exchange (option ref) :=
  with_book (Order.ticker o)
    (match Order.side o with BUY => best_ask | SELL => best_bid end).

(** A MARKET BUY whose ticker is in lower case. *)
Definition lowercase_market_run : Exchange * outcome (option ref) :=
  submit_order (market_order "a1" "A" "xyz" BUY 1 1) 1 (opened 10000).

(** Two SELL LIMIT orders with the same price and the same [created_at]. *)
Definition tie_run : Exchange * outcome (option ref) :=
  submit_order (limit_order "f2" "F" "XYZ" SELL 10 5 1) 1
    (state_after (submit_order (limit_order "f1" "F" "XYZ" SELL 10 5 1) 1)
       (opened 10000)).

(** G founds "xyz" when F's "XYZ" exists. *)
Definition case_variant_before : Exchange :=
  state_after
    (register_agent "G" "Gustave" 10000 0;;
     submit_order (limit_order "f1" "F" "XYZ" SELL 10 5 1) 1) (opened 10000).
Definition case_variant_run : Exchange * outcome (option Company.t) :=
  create_company "G" "xyz" "Copy" "" "generic" 1 5 case_variant_before.

(** Six resting asks of F, the fourth and the fifth with the same price and
    the same [created_at]; then A buys the whole of the first. *)
Definition tied_asks : Exchange :=
  state_after
    (submit_all [(limit_order "f1" "F" "XYZ" SELL 10 1 1, 1);
                 (limit_order "f2" "F" "XYZ" SELL 10 2 2, 2);
                 (limit_order "f3" "F" "XYZ" SELL 10 3 3, 3);
                 (limit_order "f4" "F" "XYZ" SELL 10 4 4, 4);
                 (limit_order "f5" "F" "XYZ" SELL 10 4 4, 5);
                 (limit_order "f6" "F" "XYZ" SELL 10 5 6, 6);
                 (limit_order "a1" "A" "XYZ" BUY 10 1 7, 7)]) (opened 10000).

(** ** Heap order and priority *)

Local Open Scope nat_scope.

(** The heap invariant of [heapq] on a list: no item is smaller than its
    parent, the parent of index [i] being [(i - 1) / 2]. *)
Definition heap_ordered {A} (ltb : A → A → bool) (h : list A) : Prop :=
  ∀ i x p, 0 < i → h !! i = Some x → h !! ((i - 1) / 2) = Some p → ltb x p = false.

(** The heap order holds on every edge but the one above [pos], and the
    parent of [pos] is below the children of [pos]. *)
Definition almost_heap {A} (ltb : A → A → bool) (h : list A) (pos : nat) : Prop :=
  (∀ i x p, 0 < i → i ≠ pos → h !! i = Some x → h !! ((i - 1) / 2) = Some p →
            ltb x p = false)
  ∧ (∀ c x g, 0 < pos → 0 < c → (c - 1) / 2 = pos → h !! c = Some x →
              h !! ((pos - 1) / 2) = Some g → ltb x g = false).

(** The heap order holds on every edge that does not touch [pos], and the
    parent of [pos] is below the children of [pos]. *)
Definition hole_heap {A} (ltb : A → A → bool) (h : list A) (pos : nat) : Prop :=
  (∀ i x p, 0 < i → i ≠ pos → (i - 1) / 2 ≠ pos → h !! i = Some x →
            h !! ((i - 1) / 2) = Some p → ltb x p = false)
  ∧ (∀ c x g, 0 < pos → 0 < c → (c - 1) / 2 = pos → h !! c = Some x →
              h !! ((pos - 1) / 2) = Some g → ltb x g = false).


(** The order [entry_lt] computes when it returns: by key, then by
    timestamp. *)
Definition key_ltb (p1 p2 : option Q) : bool :=
  match p1, p2 with
  | Some a, Some b => Qltb a b
  | None, Some _ => true
  | _, _ => false
  end.

Definition entry_ltb (e1 e2 : entry) : bool :=
  if optQ_eqb (entry_key e1) (entry_key e2)
  then (entry_ts e1 <? entry_ts e2)%Z
  else key_ltb (entry_key e1) (entry_key e2).

Definition comparable (objs : list Order.t) (h : list entry) : Prop :=
  ∀ a b, a ∈ h → b ∈ h → entry_lt objs a b = Returns (entry_ltb a b).

Definition pendingb (objs : list Order.t) (e : entry) : bool :=
  match objs !! entry_ref e with
  | Some o => bool_decide (Order.status o = PENDING)
  | None => false
  end.

Definition lookup_result (objs : list Order.t) (h h' : list entry) (top : option ref) : Prop :=
  (∃ removed, h ≡ₚ removed ++ h' ∧ Forall (λ e, pendingb objs e = false) removed)
  ∧ filter (λ e, pendingb objs e = true) h' ≡ₚ filter (λ e, pendingb objs e = true) h
  ∧ heap_ordered entry_ltb h' ∧ comparable objs h'
  ∧ match top with
    | Some r =>
        ∃ e o, h' !! 0 = Some e ∧ e ∈ h ∧ entry_ref e = r ∧ objs !! r = Some o
               ∧ Order.status o = PENDING
               ∧ ∀ e', e' ∈ h → pendingb objs e' = true → entry_ltb e' e = false
    | None => h' = [] ∧ ∀ e, e ∈ h → pendingb objs e = false
    end.


(** A book for the lookups: one FILLED ask that has not been discarded yet,
    two PENDING asks at the same price, one PENDING bid. *)
Definition demo_objects : list Order.t :=
  [Order.set_status FILLED (limit_order "s0" "B" "XYZ" SELL 10 5 1);
   limit_order "s1" "B" "XYZ" SELL 10 6 2;
   limit_order "s2" "C" "XYZ" SELL 10 6 3;
   limit_order "b0" "A" "XYZ" BUY 5 4 4].
Definition demo_book : OrderBook.t :=
  OrderBook.mk "XYZ" [(Some (-4)%Q, 4%Z, 3)]
    [(Some 5%Q, 1%Z, 0); (Some 6%Q, 2%Z, 1); (Some 6%Q, 3%Z, 2)].

Local Close Scope nat_scope.

(** ** Invariants, frames and fills

    The predicates in which the properties of matching are stated. *)

Local Close Scope string_scope.
Local Close Scope Z_scope.
Local Open Scope nat_scope.

(** The side of the book an order of side [side] trades against. *)
Definition opp_heap (side : OrderSide) (b : OrderBook.t) : list entry :=
  match side with BUY => OrderBook.asks b | SELL => OrderBook.bids b end.
Definition set_opp_heap (side : OrderSide) (h : list entry) (b : OrderBook.t)
  : OrderBook.t :=
  match side with BUY => OrderBook.set_asks h b | SELL => OrderBook.set_bids h b end.
Definition best_opposite (side : OrderSide)
  : list Order.t → M OrderBook.t (option ref) :=
  match side with BUY => best_ask | SELL => best_bid end.

(** The fields of an order that matching never changes. *)
Definition same_terms (o o' : Order.t) : Prop :=
  Order.id o' = Order.id o ∧ Order.agent_id o' = Order.agent_id o
  ∧ Order.ticker o' = Order.ticker o ∧ Order.side o' = Order.side o
  ∧ Order.order_type o' = Order.order_type o
  ∧ Order.quantity o' = Order.quantity o ∧ Order.price o' = Order.price o
  ∧ Order.created_at o' = Order.created_at o.

(** What holds of the orders and the books at every observable point. *)
Record Inv (s : Exchange) : Prop := mkInv {
  inv_resting : ∀ e, resting s e →
    ∃ o, objects s !! entry_ref e = Some o ∧ Order.order_type o = LIMIT
         ∧ (Order.status o = PENDING ∨ Order.status o = FILLED);
  inv_index : ∀ id r, orders s !! id = Some r → is_Some (objects s !! r);
  inv_objects : ∀ r o, objects s !! r = Some o → status_invariant o;
  inv_portfolios : portfolios_positive s
}.

Definition pending_count (objs : list Order.t) (h : list entry) : nat :=
  length (filter (λ e, pendingb objs e = true) h).

(** The number of PENDING entries an order of side [side] on ticker [k] can
    still meet. *)
Definition liquidity (s : Exchange) (k : string) (side : OrderSide) : nat :=
  match order_books s !! k with
  | Some b => pending_count (objects s) (opp_heap side b)
  | None => 0
  end.

Definition remaining (o : Order.t) : Q :=
  (Order.quantity o - Order.filled_quantity o)%Q.

Definition matching (s : Exchange) (r : ref) (o0 : Order.t) : Prop :=
  Inv s
  ∧ (∀ e, resting s e → entry_ref e ≠ r)
  ∧ ∃ o, objects s !! r = Some o ∧ same_terms o0 o
         ∧ (Order.status o = PENDING ∨ Order.status o = FILLED).

(** [s'] is [s] with non-PENDING heads discarded from some heaps. *)
Definition book_cleanup (s s' : Exchange) : Prop :=
  agents s' = agents s ∧ companies s' = companies s ∧ trades s' = trades s
  ∧ orders s' = orders s ∧ price_history s' = price_history s
  ∧ objects s' = objects s ∧ ∀ e, resting s' e → resting s e.

(** [l'] holds the same orders as [l], each with the terms it had. *)
Definition same_orders (l l' : list Order.t) : Prop :=
  length l' = length l
  ∧ ∀ i o, l !! i = Some o → ∃ o', l' !! i = Some o' ∧ same_terms o o'.

(** What matching leaves in place: the agents, companies and books that
    exist, the index of the orders, the terms of every order; the trade log
    only grows. *)
Definition grows (s s' : Exchange) : Prop :=
  dom (agents s') = dom (agents s)
  ∧ dom (companies s') = dom (companies s)
  ∧ dom (order_books s') = dom (order_books s)
  ∧ orders s' = orders s
  ∧ same_orders (objects s) (objects s')
  ∧ trades s `prefix_of` trades s'.

(** The trade a settlement logs. *)
Definition logged (r1 r2 : ref) (q : Q) (price : option Q) (s : Exchange)
    (t : Trade.t) : Prop :=
  ∃ o1 bo so p,
    objects s !! r1 = Some o1
    ∧ objects s !! (if bool_decide (Order.side o1 = BUY) then r1 else r2) = Some bo
    ∧ objects s !! (if bool_decide (Order.side o1 = BUY) then r2 else r1) = Some so
    ∧ price = Some p
    ∧ Trade.ticker t = Order.ticker o1 ∧ Trade.quantity t = q ∧ Trade.price t = p
    ∧ Trade.buyer_order_id t = Order.id bo
    ∧ Trade.seller_order_id t = Order.id so.

(** The price test of the matching loop lets [order] trade against [c]:
    when [order] has a (non-zero) price, [c] is priced within it. *)
Definition crosses (order c : Order.t) : Prop :=
  truthy (Order.price order) = true →
  ∃ op cp, Order.price order = Some op ∧ Order.price c = Some cp
           ∧ match Order.side order with
             | BUY => (cp <= op)%Q
             | SELL => (op <= cp)%Q
             end.

(** The trades an order of terms [o] may be party to: on its ticker, with
    the order on its own side of the trade, priced within its price. *)
Definition fill_of (o : Order.t) (t : Trade.t) : Prop :=
  Trade.ticker t = Order.ticker o
  ∧ match Order.side o with
    | BUY => Trade.buyer_order_id t = Order.id o
    | SELL => Trade.seller_order_id t = Order.id o
    end
  ∧ ∀ limit, Order.price o = Some limit → ¬ (limit == 0)%Q →
             match Order.side o with
             | BUY => (Trade.price t <= limit)%Q
             | SELL => (limit <= Trade.price t)%Q
             end.

(** From [s] to [s'] the order at [r] keeps its terms and the trades added
    to the log are fills of it. *)
Definition fills (r : ref) (s s' : Exchange) : Prop :=
  ∀ o, objects s !! r = Some o →
       ∃ o' new, objects s' !! r = Some o' ∧ same_terms o o'
                 ∧ trades s' = (trades s ++ new)%list ∧ Forall (fill_of o) new.

(** [grows], for the first [n] orders only and without the index. *)
Definition extends (n : nat) (s s' : Exchange) : Prop :=
  dom (agents s') = dom (agents s)
  ∧ dom (companies s') = dom (companies s)
  ∧ dom (order_books s') = dom (order_books s)
  ∧ trades s `prefix_of` trades s'
  ∧ ∀ i o, i < n → objects s !! i = Some o →
           ∃ o', objects s' !! i = Some o' ∧ same_terms o o'.

(** The submitted [order] as the exchange holds it: a MARKET order has been
    given a price. *)
Definition entered (order o' : Order.t) : Prop :=
  same_terms (Order.set_price (Order.price o') order) o'
  ∧ (Order.order_type order = LIMIT → Order.price o' = Order.price order).

(** What a heap looks like after a lookup that returned [top]: its head is
    the entry of the order returned, which is PENDING; it is empty when
    nothing was returned. *)
Definition settled_heap (objs : list Order.t) (h : list entry) (top : option ref)
  : Prop :=
  match top with
  | Some r => ∃ e t o, h = e :: t ∧ entry_ref e = r ∧ objs !! r = Some o
                       ∧ Order.status o = PENDING
  | None => h = []
  end.

(** The price test that ends the matching loop: [order] has a (non-zero)
    price and [c] is priced beyond it. *)
Definition out_of_reach (order c : Order.t) : Prop :=
  truthy (Order.price order) = true
  ∧ ∃ op cp, Order.price order = Some op ∧ Order.price c = Some cp
             ∧ match Order.side order with
               | BUY => (op < cp)%Q
               | SELL => (cp < op)%Q
               end.

(** Where the matching loop stops. *)
Definition loop_stopped (r : ref) (s : Exchange) : Prop :=
  ∃ o, objects s !! r = Some o
       ∧ ((Order.quantity o <= Order.filled_quantity o)%Q
          ∨ ∃ b, order_books s !! Order.ticker o = Some b
                 ∧ match opp_heap (Order.side o) b with
                   | [] => True
                   | e :: _ => ∃ c, objects s !! entry_ref e = Some c
                                    ∧ Order.status c = PENDING
                                    ∧ out_of_reach o c
                   end).

(** Σ balance over all agents. *)
Definition total_cash (s : Exchange) : Q := sum_over Agent.balance (agents s).

Definition same_cash (s s' : Exchange) : Prop := (total_cash s' == total_cash s)%Q.

(** What the engine needs of the arguments to keep its invariants: an order
    is submitted as its constructor leaves it and for a positive quantity,
    an IPO offers a positive number of shares. *)
Definition well_formed_op (op : Op) : Prop :=
  match op with
  | OpSubmit o => Order.fresh o ∧ (0 < Order.quantity o)%Q
  | OpIpo _ shares _ _ => (0 < shares)%Q
  | _ => True
  end.

(** The computation returns or raises: its loops end within the bounds the
    model gives them and it follows no dangling reference. *)
Definition completes {S A} (c : M S A) (s : S) : Prop := outcome_of c s ≠ Stuck.

Definition op_completes (op : Op) (now : Z) (w : AIVerse) : Prop :=
  match op with
  | OpJoin a n => completes (join a n now) w
  | OpRegister a n b => completes (on_exchange (register_agent a n b now)) w
  | OpCreate f t n d st sc => completes (world_create_company f t n d st sc now) w
  | OpIpo t sh p oid => completes (launch_ipo t sh p oid now) w
  | OpSubmit o => completes (on_exchange (submit_order o now)) w
  | OpUse a t => completes (use_service a t now) w
  | OpTick => completes (tick now) w
  end.

(** The heap of the order's own side, and the entry [add_order] builds for
    the order at [r]: [(-price, created_at, order)] for a BUY, which needs a
    price, [(price, created_at, order)] for a SELL. *)
Definition side_heap (side : OrderSide) (b : OrderBook.t) : list entry :=
  match side with BUY => OrderBook.bids b | SELL => OrderBook.asks b end.
Definition entry_of (o : Order.t) (r : ref) : option entry :=
  match Order.side o with
  | BUY => (λ p, (Some (- p)%Q, Order.created_at o, r)) <$> Order.price o
  | SELL => Some (Order.price o, Order.created_at o, r)
  end.

(** What a settlement may do to an order: keep its terms, and keep its
    status or make it FILLED. *)
Definition settled_from (o o' : Order.t) : Prop :=
  same_terms o o'
  ∧ (Order.status o' = Order.status o ∨ Order.status o' = FILLED).

Local Open Scope string_scope.

(** The book of scenario E3 with A's BUY LIMIT 20 @ 7 stored and not yet
    matched. *)
Definition E3_stored : Exchange :=
  set_objects (λ l, l ++ [limit_order "a1" "A" "XYZ" BUY 20 7 3])%list E3_before.

(** The asks of [two_asks] with A's MARKET BUY of 20 stored and not yet
    priced. *)
Definition market_buy_stored : Exchange :=
  set_objects (λ l, l ++ [market_order "a1" "A" "XYZ" BUY 20 3])%list two_asks.

Definition demo_objects_more : list Order.t :=
  (demo_objects ++ [limit_order "b1" "A" "XYZ" BUY 5 3 5])%list.

Definition dividend_world : AIVerse := set_exchange (opened 10000) (AIVerse_init 0).
Definition dividend_company : Company.t :=
  Company.mk "xyz" "XYZ" "XYZ" "" "F" PUBLIC 0 1000000 0 1 0 0 0 500 "generic" 1.

Local Close Scope string_scope.
Local Close Scope nat_scope.
Local Open Scope Z_scope.
Local Open Scope string_scope.

(** * Properties *)

(** ** Comparisons on [Q] *)

Lemma Qltb_lt x y : Qltb x y = true ↔ (x < y)%Q.
Proof.
  unfold Qltb. rewrite negb_true_iff. split.
  - intros H. apply Qnot_le_lt. intros Hle. apply Qle_bool_iff in Hle. congruence.
  - intros H. destruct (Qle_bool y x) eqn:E; [|done].
    apply Qle_bool_iff in E. exfalso. by apply (Qlt_not_le x y).
Qed.

Lemma Qltb_ge x y : Qltb x y = false ↔ (y <= x)%Q.
Proof.
  unfold Qltb. rewrite negb_false_iff. apply Qle_bool_iff.
Qed.

(** ** The end-to-end scenarios *)

(** C3, as amended.  Scenario E2: one trade of 50 at 10 occurs, A's order is
    PARTIAL with 50 filled and A's balance is 9,500; the order is not
    inserted into the book (only an order still PENDING after matching is),
    so the bid side stays empty and [best_bid] returns nothing. *)
Theorem E2_partial_fill_not_rested :
  E2_run.2 = Returns (Some 1%nat)
  ∧ trades E2_run.1 = [Trade.mk "XYZ" "A" "B" 50 10 2 "a1" "b1"]
  ∧ (∃ o, objects E2_run.1 !! 1%nat = Some o ∧ Order.status o = PARTIAL
          ∧ Order.filled_quantity o = 50%Q ∧ Order.quantity o = 100%Q)
  ∧ OrderBook.bids <$> order_books E2_run.1 !! "XYZ" = Some []
  ∧ outcome_of (with_book "XYZ" best_bid) E2_run.1 = Returns None
  ∧ Agent.balance <$> agents E2_run.1 !! "A" = Some 9500%Q.
Proof.
  vm_compute. repeat split; try reflexivity.
  eexists. repeat split; reflexivity.
Qed.

(** C3, as stated, fails: after scenario E2 [best_bid] does not return an
    order priced 10. *)
Lemma E2_no_resting_bid :
  ¬ ∃ r o, outcome_of (with_book "XYZ" best_bid) E2_run.1 = Returns (Some r)
           ∧ objects E2_run.1 !! r = Some o ∧ Order.price o = Some 10%Q.
Proof.
  vm_compute. intros (r & o & H & _). discriminate H.
Qed.

(** C8.  Scenario E3: the incoming BUY LIMIT 20 @ 7 trades first 10 @ 5
    against C's order (later, better priced), then 10 @ 6 against B's; each
    price is the resting order's price and each quantity is the minimum of
    the two remaining quantities at that moment. *)
Theorem E3_price_time_priority :
  E3_run.2 = Returns (Some 2%nat)
  ∧ Order.price <$> objects E3_before !! 0%nat = Some (Some 6%Q)
  ∧ Order.price <$> objects E3_before !! 1%nat = Some (Some 5%Q)
  ∧ trades E3_before = []
  ∧ trades E3_run.1 =
      [Trade.mk "XYZ" "A" "C" (py_min (20 - 0) (10 - 0)) 5 3 "a1" "c1";
       Trade.mk "XYZ" "A" "B" (py_min (20 - 10) (10 - 0)) 6 3 "a1" "b1"]
  ∧ Trade.quantity <$> trades E3_run.1 = [10%Q; 10%Q].
Proof.
  vm_compute. repeat split; reflexivity.
Qed.

(** ** Counterexamples to the claims the engine does not meet *)


(** C2, as stated, fails: A joins with 1,000, posts BUY LIMIT 10 @ 100
    (admitted: the cost is 1,000), pays 1,000 for a service, and the resting
    bid is then filled by F's SELL; A's balance ends at -1,000. *)
Lemma overdraft_breaks_nonneg :
  Forall (λ x, valid_op x.1) overdraft_ops
  ∧ ¬ balances_nonneg (exchange (run_ops overdraft_ops (AIVerse_init 0))).
Proof.
  split.
  - repeat constructor; simpl; lra.
  - intros H.
    assert (∃ a, agents (exchange (run_ops overdraft_ops (AIVerse_init 0))) !! "A"
                   = Some a ∧ Agent.balance a = (-1000)%Q) as (a & Ha & Hb)
      by (vm_compute; eexists; split; reflexivity).
    specialize (H "A" a Ha). rewrite Hb in H. vm_compute in H. by apply H.
Qed.

(** C4, as stated, fails: the resting SELL of 100 that a BUY of 40 has
    partly consumed is indexed, still rests in the book, has
    0 < filled_quantity < quantity, and its status is PENDING. *)
Lemma partial_maker_stays_pending :
  ∃ o, orders partial_maker !! "f1" = Some 0%nat
       ∧ objects partial_maker !! 0%nat = Some o
       ∧ resting partial_maker (Some 10%Q, 1, 0%nat)
       ∧ Order.status o = PENDING
       ∧ (0 < Order.filled_quantity o)%Q
       ∧ (Order.filled_quantity o < Order.quantity o)%Q
       ∧ ¬ status_invariant_spec o.
Proof.
  assert (∃ o, objects partial_maker !! 0%nat = Some o
               ∧ Order.status o = PENDING ∧ Order.filled_quantity o = 40%Q
               ∧ Order.quantity o = 100%Q) as (o & Ho & Hst & Hf & Hq)
    by (vm_compute; eexists; repeat split; reflexivity).
  exists o. repeat split; try done.
  - exists "XYZ". eexists. split; [vm_compute; reflexivity|].
    simpl. apply list_elem_of_here.
  - by rewrite Hf.
  - by rewrite Hf, Hq.
  - intros (_ & _ & Hp). rewrite Hst, Hf, Hq in Hp.
    assert (PENDING = PARTIAL) as Habs by (apply Hp; split; reflexivity).
    discriminate Habs.
Qed.

(** C5, as stated, fails: the MARKET BUY of 20 takes the ask at 5, then
    stops in front of the PENDING ask at 6 with 10 of its 20 unfilled. *)
Lemma market_buy_does_not_walk :
  ∃ o top, market_buy_run.2 = Returns (Some 2%nat)
           ∧ objects market_buy_run.1 !! 2%nat = Some o
           ∧ Order.order_type o = MARKET ∧ Order.side o = BUY
           ∧ (Order.filled_quantity o < Order.quantity o)%Q
           ∧ opposite_best o market_buy_run.1 = (market_buy_run.1, Returns top)
           ∧ top ≠ None
           ∧ ¬ buy_stop_spec (objects market_buy_run.1) o top.
Proof.
  assert (∃ o, objects market_buy_run.1 !! 2%nat = Some o
               ∧ Order.order_type o = MARKET ∧ Order.side o = BUY
               ∧ Order.filled_quantity o = 10%Q ∧ Order.quantity o = 20%Q
               ∧ opposite_best o market_buy_run.1
                 = (market_buy_run.1, Returns (Some 0%nat)))
    as (o & Ho & Hty & Hsd & Hf & Hq & Hb)
    by (vm_compute; eexists; repeat split; reflexivity).
  assert (market_buy_run.2 = Returns (Some 2%nat)) as Hout
    by (vm_compute; reflexivity).
  exists o, (Some 0%nat).
  split; [exact Hout|]. split; [exact Ho|]. split; [exact Hty|].
  split; [exact Hsd|]. split; [by rewrite Hf, Hq|]. split; [exact Hb|].
  split; [discriminate|].
  intros [Habs|(cr & c & cp & op & _ & _ & Hl & _)]; [done|].
    rewrite Hty in Hl. discriminate Hl.
Qed.

(** ** Defects: the code at the failing inputs *)

(** C6.  [submit_order] raises [KeyError] on a MARKET order whose ticker is
    in lower case, and raises [TypeError] when a second same-side order with
    the price and the timestamp of a resting one is inserted. *)
Theorem submit_order_raises :
  lowercase_market_run.2 = Raises KeyError ∧ tie_run.2 = Raises TypeError.
Proof.
  vm_compute. split; reflexivity.
Qed.

(** C7.  [create_company] with ticker "xyz" succeeds although "XYZ" exists:
    G is charged 10,000, F's company is replaced by G's under the key "XYZ",
    and the book of XYZ, with its resting order, is replaced by an empty
    one. *)
Theorem create_company_accepts_case_variant :
  Company.founder_id <$> companies case_variant_before !! "XYZ" = Some "F"
  ∧ OrderBook.asks <$> order_books case_variant_before !! "XYZ"
    = Some [(Some 5%Q, 1, 0%nat)]
  ∧ Agent.balance <$> agents case_variant_before !! "G" = Some 10000%Q
  ∧ (∃ c, case_variant_run.2 = Returns (Some c) ∧ Company.ticker c = "XYZ")
  ∧ Company.founder_id <$> companies case_variant_run.1 !! "XYZ" = Some "G"
  ∧ OrderBook.asks <$> order_books case_variant_run.1 !! "XYZ" = Some []
  ∧ Agent.balance <$> agents case_variant_run.1 !! "G" = Some 0%Q
  ∧ holding "XYZ" <$> agents case_variant_run.1 !! "G" = Some 1000000%Q
  ∧ holding "XYZ" <$> agents case_variant_run.1 !! "F" = Some 1000000%Q.
Proof.
  vm_compute. repeat split; try reflexivity.
  eexists. split; reflexivity.
Qed.

(** ** Service use *)

Ltac unfold_monad :=
  unfold mbind, mret, M_bind, M_ret, bind, ret, get, gets, modify, raise,
    stuck, zoom, lift_outcome in *.

Lemma alter_lookup_insert {A} (f : A → A) (k : string) (m : gmap string A) (a : A) :
  m !! k = Some a → alter f k m = <[k:=f a]> m.
Proof.
  intros H. apply map_eq. intros j.
  destruct (decide (k = j)) as [<-|Hne].
  - by rewrite lookup_alter_eq, lookup_insert_eq, H.
  - by rewrite lookup_alter_ne, lookup_insert_ne.
Qed.


(** ** [heapq] keeps the heap invariant

    [lt] is the comparison the heap functions call, [ltb] the order it
    computes on the items that satisfy [P]. *)

Local Open Scope nat_scope.

Section run.
Context {S A B : Type}.
Implicit Types (k : A → M S B) (s : S).

Lemma run_ret (a : A) k s : (mret a ≫= k) s = k a s.
Proof. reflexivity. Qed.
Lemma run_ret' (a : A) k s : (ret a ≫= k) s = k a s.
Proof. reflexivity. Qed.
Lemma run_raise (e : PyExc) k s : ((raise e : M S A) ≫= k) s = (s, Raises e).
Proof. reflexivity. Qed.
Lemma run_stuck k s : ((stuck : M S A) ≫= k) s = (s, Stuck).
Proof. reflexivity. Qed.
Lemma run_gets (f : S → A) k s : (gets f ≫= k) s = k (f s) s.
Proof. reflexivity. Qed.
Lemma run_bind (c : M S A) k s :
  (c ≫= k) s = match c s with
               | (s', Returns a) => k a s'
               | (s', Raises e) => (s', Raises e)
               | (s', Stuck) => (s', Stuck)
               end.
Proof. reflexivity. Qed.
End run.

Lemma run_get {S B} (k : S → M S B) (s : S) : (get ≫= k) s = k s s.
Proof. reflexivity. Qed.
Lemma run_modify {S B} (f : S → S) (k : unit → M S B) (s : S) :
  (modify f ≫= k) s = k tt (f s).
Proof. reflexivity. Qed.

Lemma run_list_get {A B} (i : nat) (k : A → M (list A) B) (l : list A) :
  (list_get i ≫= k) l = match l !! i with
                        | Some x => k x l
                        | None => (l, Raises IndexError)
                        end.
Proof. unfold list_get. unfold_monad. by destruct (l !! i). Qed.
Lemma run_list_set {A B} (i : nat) (x : A) (k : unit → M (list A) B) (l : list A) :
  (list_set i x ≫= k) l = if decide (i < length l) then k tt (<[i:=x]> l)
                          else (l, Raises IndexError).
Proof. unfold list_set. unfold_monad. by destruct (decide _). Qed.

Lemma parent_cases (i : nat) :
  0 < i → i = 2 * ((i - 1) / 2) + 1 ∨ i = 2 * ((i - 1) / 2) + 2.
Proof.
  intros Hi. pose proof (Nat.div_mod_eq (i - 1) 2) as H.
  pose proof (Nat.mod_upper_bound (i - 1) 2) as H2. lia.
Qed.
Lemma parent_left (p : nat) : (2 * p + 1 - 1) / 2 = p.
Proof. replace (2 * p + 1 - 1) with (p * 2) by lia. apply Nat.div_mul. lia. Qed.
Lemma parent_right (p : nat) : (2 * p + 1 + 1 - 1) / 2 = p.
Proof.
  replace (2 * p + 1 + 1 - 1) with (1 + p * 2) by lia.
  rewrite Nat.div_add by lia. reflexivity.
Qed.

Lemma half_lt (pos n : nat) : pos < n / 2 ↔ 2 * pos + 1 < n.
Proof.
  pose proof (Nat.div_mod_eq n 2) as H.
  pose proof (Nat.mod_upper_bound n 2) as H2. lia.
Qed.

Section heapq_correct.
Context {A : Type} (lt : A → A → outcome bool) (ltb : A → A → bool) (P : A → Prop).
Hypothesis lt_agrees : ∀ a b, P a → P b → lt a b = Returns (ltb a b).
Hypothesis ltb_asym : ∀ a b, ltb a b = true → ltb b a = false.
Hypothesis le_trans : ∀ a b c, ltb b a = false → ltb c b = false → ltb c a = false.

Lemma almost_heap_up (h : list A) (pos : nat) (newitem parent : A) :
  0 < pos → pos < length h →
  h !! ((pos - 1) / 2) = Some parent →
  ltb newitem parent = true →
  almost_heap ltb (<[pos:=newitem]> h) pos →
  almost_heap ltb (<[(pos - 1) / 2:=newitem]> (<[pos:=parent]> h)) ((pos - 1) / 2).
Proof.
  intros Hpos Hlen Hpar Hlt [Ha Hb].
  pose proof (parent_cases pos Hpos) as Hpc.
  set (pp := (pos - 1) / 2) in *.
  assert (pp < pos) as Hpp by lia.
  assert (pp < length h) as Hpplen by lia.
  assert (∀ j, <[pp:=newitem]> (<[pos:=parent]> h) !! j
               = if decide (j = pp) then Some newitem
                 else if decide (j = pos) then Some parent else h !! j) as HL1.
  { intros j. rewrite list_lookup_insert, length_insert.
    repeat case_decide; subst; try lia; try done.
    - by rewrite list_lookup_insert_eq.
    - by rewrite list_lookup_insert_ne. }
  assert (∀ j, <[pos:=newitem]> h !! j
               = if decide (j = pos) then Some newitem else h !! j) as HL.
  { intros j. rewrite list_lookup_insert. repeat case_decide; subst; try lia; done. }
  split.
  - intros i x p Hi Hne Hx Hp. rewrite HL1 in Hx, Hp.
    pose proof (parent_cases i Hi) as Hic.
    set (pi := (i - 1) / 2) in *.
    destruct (decide (i = pp)) as [|_]; [done|].
    destruct (decide (i = pos)) as [->|Hipos].
    + (* the moved parent, now under newitem *)
      injection Hx as <-. fold pp in Hp. subst pi.
      rewrite decide_True in Hp by done. injection Hp as <-.
      by apply ltb_asym.
    + destruct (decide (pi = pp)) as [Hpi|Hpi].
      * (* sibling of pos *)
        injection Hp as <-.
        apply (le_trans _ parent); [by apply ltb_asym|].
        apply (Ha i x parent Hi Hipos).
        -- rewrite HL. by rewrite decide_False.
        -- rewrite HL. fold pi. rewrite Hpi. rewrite decide_False by lia. done.
      * destruct (decide (pi = pos)) as [Hpi2|Hpi2].
        -- (* child of pos *)
           injection Hp as <-.
           apply (Hb i x parent Hpos Hi Hpi2).
           ++ rewrite HL. by rewrite decide_False.
           ++ rewrite HL. fold pp. rewrite decide_False by lia. done.
        -- apply (Ha i x p Hi Hipos).
           ++ rewrite HL. by rewrite decide_False.
           ++ rewrite HL. fold pi. by rewrite decide_False.
  - intros c x g Hpp0 Hc Hcp Hx Hg. rewrite HL1 in Hx, Hg.
    pose proof (parent_cases pp Hpp0) as Hppc.
    pose proof (parent_cases c Hc) as Hcc. rewrite Hcp in Hcc.
    set (gp := (pp - 1) / 2) in *.
    rewrite decide_False in Hx by lia.
    rewrite !decide_False in Hg by lia.
    assert (ltb parent g = false) as Hpg.
    { apply (Ha pp parent g Hpp0); [lia| |].
      - rewrite HL. rewrite decide_False by lia. done.
      - rewrite HL. fold gp. rewrite decide_False by lia. done. }
    destruct (decide (c = pos)) as [->|Hcpos].
    + by injection Hx as <-.
    + apply (le_trans _ parent); [done|].
      apply (Ha c x parent Hc Hcpos).
      * rewrite HL. by rewrite decide_False.
      * rewrite HL, Hcp. rewrite decide_False by lia. done.
Qed.

Lemma siftdown_loop_spec (fuel : nat) :
  ∀ (pos : nat) (h : list A) (newitem : A),
    pos < fuel → h !! pos = Some newitem → Forall P h →
    ∃ h',
      _siftdown_loop lt fuel newitem 0 pos h = (h', Returns tt)
      ∧ length h' = length h ∧ Forall P h' ∧ h' ≡ₚ h
      ∧ (almost_heap ltb h pos → heap_ordered ltb h').
Proof.
  induction fuel as [|fuel IH]; intros pos h newitem Hfuel Hn HP; [lia|].
  pose proof (lookup_lt_Some _ _ _ Hn) as Hlen.
  cbn [_siftdown_loop]. destruct (0 <? pos) eqn:Hpos.
  - apply Nat.ltb_lt in Hpos.
    pose proof (parent_cases pos Hpos) as Hpc.
    set (pp := (pos - 1) / 2) in *.
    destruct (lookup_lt_is_Some_2 h pp ltac:(lia)) as [parent Hpar].
    rewrite run_list_get, Hpar, run_bind. unfold lift_outcome at 1.
    rewrite (lt_agrees newitem parent (Forall_lookup_1 _ _ _ _ HP Hn)
               (Forall_lookup_1 _ _ _ _ HP Hpar)).
    destruct (ltb newitem parent) eqn:Hlt.
    + rewrite run_list_get, Hpar, run_list_get, Hn.
      rewrite run_list_set, decide_True by lia.
      rewrite run_list_set, decide_True by (rewrite length_insert; lia).
      assert (<[pos:=parent]> (<[pp:=newitem]> h) ≡ₚ h) as Hswap
        by by apply Permutation_insert_swap.
      destruct (IH pp (<[pos:=parent]> (<[pp:=newitem]> h)) newitem)
        as (h' & Hrun & Hlen' & HP' & Hperm & Hheap).
      * lia.
      * rewrite list_lookup_insert_ne by lia. apply list_lookup_insert_eq. lia.
      * by rewrite Hswap.
      * exists h'. rewrite Hrun. rewrite !length_insert in Hlen'.
        split_and!; try done.
        -- by rewrite Hperm.
        -- intros Hah. apply Hheap.
           rewrite list_insert_insert_ne by lia.
           apply almost_heap_up; try done.
           by rewrite (list_insert_id h pos newitem Hn).
    + exists h. split_and!; try done.
      intros [Ha Hb] i x p Hi Hx Hp.
      destruct (decide (i = pos)) as [->|Hne]; [|by eapply Ha].
      rewrite Hn in Hx. injection Hx as <-.
      fold pp in Hp. rewrite Hpar in Hp. by injection Hp as <-.
  - apply Nat.ltb_ge in Hpos. assert (pos = 0) as -> by lia.
    exists h. split_and!; try done.
    intros [Ha _] i x p Hi Hx Hp. eapply Ha; eauto. lia.
Qed.

Lemma siftdown_spec (pos : nat) (h : list A) :
  pos < length h → Forall P h →
  ∃ h', _siftdown lt 0 pos h = (h', Returns tt)
        ∧ h' ≡ₚ h ∧ length h' = length h ∧ Forall P h'
        ∧ (almost_heap ltb h pos → heap_ordered ltb h').
Proof.
  intros Hlen HP.
  destruct (lookup_lt_is_Some_2 h pos Hlen) as [newitem Hn].
  destruct (siftdown_loop_spec (S pos) pos h newitem) as
    (h' & Hrun & Hlen' & HP' & Hperm & Hheap); try done; try lia.
  unfold _siftdown. rewrite run_gets.
  destruct (length h <=? pos) eqn:Hle; [apply Nat.leb_le in Hle; lia|].
  rewrite run_list_get, Hn, Hrun. by exists h'.
Qed.

Lemma heappush_spec (item : A) (h : list A) :
  P item → Forall P h →
  ∃ h', heappush lt item h = (h', Returns tt)
        ∧ h' ≡ₚ item :: h ∧ Forall P h'
        ∧ (heap_ordered ltb h → heap_ordered ltb h').
Proof.
  intros Hi HP.
  destruct (siftdown_spec (length h) (h ++ [item])) as
    (h' & Hrun & Hperm & Hlen & HP' & Hheap).
  { rewrite length_app. simpl. lia. }
  { apply Forall_app. split; [done|]. by constructor. }
  unfold heappush, list_append. unfold_monad.
  replace (length (h ++ [item]) - 1) with (length h)
    by (rewrite length_app; simpl; lia).
  rewrite Hrun. exists h'. split_and!; try done.
  - rewrite Hperm. by rewrite Permutation_app_comm.
  - intros Hh. apply Hheap. split.
    + intros i x p Hi0 Hne Hx Hp.
      pose proof (parent_cases i Hi0).
      assert (i < length h).
      { apply lookup_lt_Some in Hx. rewrite length_app in Hx. simpl in Hx. lia. }
      rewrite lookup_app_l in Hx by lia. rewrite lookup_app_l in Hp by lia.
      by eapply Hh.
    + intros c x g _ Hc Hcp Hx _.
      pose proof (parent_cases c Hc). rewrite Hcp in *.
      apply lookup_lt_Some in Hx. rewrite length_app in Hx. simpl in Hx. lia.
Qed.

Lemma hole_heap_down (h : list A) (pos cpos : nat) (c : A) :
  pos < length h → 0 < cpos → (cpos - 1) / 2 = pos →
  h !! cpos = Some c →
  (∀ s x, 0 < s → (s - 1) / 2 = pos → h !! s = Some x → ltb x c = false) →
  hole_heap ltb h pos →
  hole_heap ltb (<[pos:=c]> h) cpos.
Proof.
  intros Hlen Hc0 Hcp Hc Hmin [Ha Hb].
  pose proof (parent_cases cpos Hc0) as Hcc. rewrite Hcp in Hcc.
  assert (∀ j, <[pos:=c]> h !! j = if decide (j = pos) then Some c else h !! j) as HL.
  { intros j. rewrite list_lookup_insert. repeat case_decide; subst; try lia; done. }
  split.
  - intros i x p Hi Hne Hpne Hx Hp. rewrite HL in Hx, Hp.
    pose proof (parent_cases i Hi) as Hic.
    destruct (decide (i = pos)) as [->|Hipos].
    + injection Hx as <-.
      assert (0 < pos) as Hpos by lia.
      pose proof (parent_cases pos Hpos).
      rewrite decide_False in Hp by lia.
      by eapply (Hb cpos c p).
    + destruct (decide ((i - 1) / 2 = pos)) as [Hip|Hip].
      * injection Hp as <-. by eapply Hmin.
      * by eapply Ha.
  - intros cc x g _ Hcc0 Hccp Hx Hg. rewrite HL in Hx, Hg.
    pose proof (parent_cases cc Hcc0) as Hccc. rewrite Hccp in Hccc.
    rewrite decide_False in Hx by lia.
    rewrite Hcp in Hg. rewrite decide_True in Hg by done. injection Hg as <-.
    apply (Ha cc x c Hcc0); try lia.
    + done.
    + by rewrite Hccp.
Qed.

Lemma hole_heap_fill (h : list A) (pos : nat) (x : A) :
  hole_heap ltb h pos → hole_heap ltb (<[pos:=x]> h) pos.
Proof.
  intros [Ha Hb]. split.
  - intros i y p Hi Hne Hpne Hy Hp.
    rewrite list_lookup_insert_ne in Hy, Hp by done. by eapply Ha.
  - intros c y g Hpos Hc Hcp Hy Hg.
    pose proof (parent_cases c Hc) as Hcc. rewrite Hcp in Hcc.
    pose proof (parent_cases pos Hpos) as Hpc.
    rewrite list_lookup_insert_ne in Hy, Hg by lia. by eapply Hb.
Qed.

Lemma siftup_loop_spec (fuel : nat) :
  ∀ (pos : nat) (h : list A),
    length h - pos < fuel → pos < length h → Forall P h →
    ∃ h' pos',
      _siftup_loop lt fuel (length h) (length h / 2) pos h = (h', Returns pos')
      ∧ pos' < length h' ∧ length h' = length h ∧ Forall P h'
      ∧ length h ≤ 2 * pos' + 1
      ∧ h' ≡ₚ h ∧ h' !! pos' = h !! pos
      ∧ (hole_heap ltb h pos → hole_heap ltb h' pos').
Proof.
  induction fuel as [|fuel IH]; intros pos h Hfuel Hlen HP; [lia|].
  cbn [_siftup_loop]. destruct (pos <? length h / 2) eqn:Hchild.
  2: { apply Nat.ltb_ge in Hchild.
       exists h, pos. split_and!; try done.
       destruct (decide (2 * pos + 1 < length h)) as [Hx|]; [|lia].
       apply half_lt in Hx. lia. }
  apply Nat.ltb_lt, half_lt in Hchild.
  destruct (lookup_lt_is_Some_2 h (2 * pos + 1) Hchild) as [l Hl].
  assert (∃ cpos c,
    (if 2 * pos + 1 + 1 <? length h
     then a ← list_get (2 * pos + 1);
          b ← list_get (2 * pos + 1 + 1);
          cmp ← lift_outcome (lt a b);
          ret (if cmp : bool then 2 * pos + 1 else 2 * pos + 1 + 1)
     else ret (2 * pos + 1)) h = (h, Returns cpos)
    ∧ (cpos = 2 * pos + 1 ∨ cpos = 2 * pos + 1 + 1)
    ∧ h !! cpos = Some c
    ∧ (∀ s x, 0 < s → (s - 1) / 2 = pos → h !! s = Some x → ltb x c = false))
    as (cpos & c & Hsel & Hcpos & Hc & Hmin).
  { destruct (2 * pos + 1 + 1 <? length h) eqn:Hright.
    - apply Nat.ltb_lt in Hright.
      destruct (lookup_lt_is_Some_2 h (2 * pos + 1 + 1) Hright) as [r Hr].
      rewrite run_list_get, Hl, run_list_get, Hr, run_bind.
      unfold lift_outcome at 1.
      rewrite (lt_agrees l r (Forall_lookup_1 _ _ _ _ HP Hl) (Forall_lookup_1 _ _ _ _ HP Hr)).
      destruct (ltb l r) eqn:Hlr.
      + exists (2 * pos + 1), l. split_and!; try done; [by left|].
        intros s x Hs Hsp Hx. pose proof (parent_cases s Hs) as Hsc.
        rewrite Hsp in Hsc. destruct Hsc as [->| ->].
        * rewrite Hl in Hx. injection Hx as <-.
          destruct (ltb l l) eqn:E; [|done]. by rewrite (ltb_asym _ _ E) in E.
        * replace (2 * pos + 2) with (2 * pos + 1 + 1) in Hx by lia.
          rewrite Hr in Hx. injection Hx as <-. by apply ltb_asym.
      + exists (2 * pos + 1 + 1), r. split_and!; try done; [by right|].
        intros s x Hs Hsp Hx. pose proof (parent_cases s Hs) as Hsc.
        rewrite Hsp in Hsc. destruct Hsc as [->| ->].
        * rewrite Hl in Hx. by injection Hx as <-.
        * replace (2 * pos + 2) with (2 * pos + 1 + 1) in Hx by lia.
          rewrite Hr in Hx. injection Hx as <-.
          destruct (ltb r r) eqn:E; [|done]. by rewrite (ltb_asym _ _ E) in E.
    - apply Nat.ltb_ge in Hright.
      exists (2 * pos + 1), l. split_and!; try done; [by left|].
      intros s x Hs Hsp Hx. pose proof (parent_cases s Hs) as Hsc.
      rewrite Hsp in Hsc. destruct Hsc as [->| ->].
      + rewrite Hl in Hx. injection Hx as <-.
        destruct (ltb l l) eqn:E; [|done]. by rewrite (ltb_asym _ _ E) in E.
      + apply lookup_lt_Some in Hx. lia. }
  rewrite run_bind, Hsel.
  destruct (lookup_lt_is_Some_2 h pos Hlen) as [x Hx].
  pose proof (lookup_lt_Some _ _ _ Hc) as Hclen.
  assert (cpos ≠ pos) as Hne by lia.
  rewrite run_list_get, Hc, run_list_get, Hx.
  rewrite run_list_set, decide_True by done.
  rewrite run_list_set, decide_True by (rewrite length_insert; lia).
  assert ((cpos - 1) / 2 = pos) as Hcp.
  { destruct Hcpos as [->| ->]; [apply parent_left|apply parent_right]. }
  assert (<[pos:=c]> (<[cpos:=x]> h) ≡ₚ h) as Hswap
    by by apply Permutation_insert_swap.
  destruct (IH cpos (<[pos:=c]> (<[cpos:=x]> h))) as
    (h' & pos' & Hrun & Hl' & Hlen' & HP' & Hleaf & Hperm & Hat & Hheap).
  { rewrite !length_insert. lia. }
  { rewrite !length_insert. done. }
  { by rewrite Hswap. }
  rewrite !length_insert in Hrun, Hlen', Hleaf. rewrite Hrun.
  exists h', pos'. split_and!; try done.
  - by rewrite Hperm.
  - rewrite Hat, list_lookup_insert_ne by lia.
    rewrite list_lookup_insert_eq by done. done.
  - intros Hh. apply Hheap.
    rewrite list_insert_insert_ne by lia. apply hole_heap_fill.
    eapply hole_heap_down; eauto. lia.
Qed.

Lemma heappop_spec (h : list A) :
  h ≠ [] → Forall P h → heap_ordered ltb h →
  ∃ m h', heappop lt h = (h', Returns m)
          ∧ h !! 0 = Some m ∧ h ≡ₚ m :: h' ∧ Forall P h'
          ∧ heap_ordered ltb h'.
Proof.
  intros Hne HP Hh.
  destruct (last h) as [lastelt|] eqn:Hlast.
  2: { apply last_None in Hlast. done. }
  apply last_Some in Hlast as [t ->].
  unfold heappop. rewrite run_bind. unfold list_pop at 1.
  rewrite last_snoc. rewrite length_app. simpl.
  replace (length t + 1 - 1) with (length t) by lia.
  rewrite take_app_length. rewrite run_gets.
  destruct t as [|m t]; simpl.
  { exists lastelt, []. split_and!; try done. }
  apply Forall_app in HP as [HPt HPl]. apply Forall_cons in HPt as [HPm HPt].
  rewrite Forall_singleton in HPl.
  rewrite run_list_get. cbn [lookup list_lookup].
  rewrite run_list_set. rewrite decide_True by (simpl; lia).
  change (<[0:=lastelt]> (m :: t)) with (lastelt :: t).
  rewrite run_bind. unfold _siftup at 1. rewrite run_gets.
  change (length (lastelt :: t) <=? 0) with false. cbn iota.
  rewrite run_bind.
  destruct (siftup_loop_spec (S (length (lastelt :: t))) 0 (lastelt :: t)) as
    (h1 & pos1 & Hrun & Hl1 & Hlen1 & HP1 & Hleaf & Hperm & Hat & Hheap);
    [lia|simpl; lia|apply Forall_cons; split; assumption|].
  rewrite Hrun.
  destruct (siftdown_spec pos1 h1) as
    (h2 & Hrun2 & Hperm2 & Hlen2 & HP2 & Hheap2); [done|done|].
  rewrite Hrun2. exists m, h2. split_and!; try done.
  - rewrite Hperm2, Hperm. simpl.
    rewrite <-Permutation_cons_append. done.
  - apply Hheap2.
    assert (hole_heap ltb h1 pos1) as [Ha Hb].
    { apply Hheap. split.
      - intros i x p Hi _ Hpi Hx Hp.
        pose proof (parent_cases i Hi).
        destruct i as [|i]; [lia|].
        destruct ((S i - 1) / 2) as [|pi] eqn:Epi; [done|].
        simpl in Hx, Hp.
        apply (Hh (S i) x p Hi).
        + simpl. apply lookup_app_l_Some. done.
        + rewrite Epi. simpl. apply lookup_app_l_Some. done.
      - intros; lia. }
    simpl in Hlen1, Hleaf.
    split.
    + intros i x p Hi Hipos Hx Hp.
      pose proof (parent_cases i Hi) as Hic.
      destruct (decide ((i - 1) / 2 = pos1)) as [Hip|Hip].
      * apply lookup_lt_Some in Hx. lia.
      * by eapply Ha.
    + intros c x g _ Hc Hcp Hx _.
      pose proof (parent_cases c Hc) as Hcc. rewrite Hcp in Hcc.
      apply lookup_lt_Some in Hx. lia.
Qed.

Lemma heap_root_min (h : list A) (m : A) :
  heap_ordered ltb h → h !! 0 = Some m →
  ∀ x, x ∈ h → ltb x m = false.
Proof.
  intros Hh Hm x [i Hx]%list_elem_of_lookup.
  revert x Hx. induction (lt_wf i) as [i _ IH]. intros x Hx.
  destruct (decide (i = 0)) as [->|Hi].
  - rewrite Hm in Hx. injection Hx as <-.
    destruct (ltb m m) eqn:E; [|done]. by rewrite (ltb_asym _ _ E) in E.
  - pose proof (parent_cases i ltac:(lia)) as Hic.
    destruct (lookup_lt_is_Some_2 h ((i - 1) / 2)) as [p Hp].
    { apply lookup_lt_Some in Hx. lia. }
    apply (le_trans _ p).
    + apply (IH ((i - 1) / 2)); [lia|done].
    + apply (Hh i x p); [lia|done|done].
Qed.

End heapq_correct.

(** ** Best-of-side lookups *)

Ltac q_cases :=
  repeat match goal with
  | |- context [Qeq_bool ?a ?b] =>
      let E := fresh "E" in
      destruct (Qeq_bool a b) eqn:E;
      [apply Qeq_bool_iff in E|apply Qeq_bool_neq in E]
  | |- context [Qltb ?a ?b] =>
      let E := fresh "E" in
      destruct (Qltb a b) eqn:E; [apply Qltb_lt in E|apply Qltb_ge in E]
  | |- context [(?a <? ?b)%Z] =>
      let E := fresh "E" in
      destruct (Z.ltb_spec a b) as [E|E]
  end.

Lemma entry_ltb_asym (a b : entry) : entry_ltb a b = true → entry_ltb b a = false.
Proof.
  destruct a as [[[ka|] ta] ra], b as [[[kb|] tb] rb];
    unfold entry_ltb, entry_key, entry_ts, optQ_eqb, key_ltb; simpl;
    q_cases; intros; try done; try lia; exfalso; lra.
Qed.

Lemma entry_le_trans (a b c : entry) :
  entry_ltb b a = false → entry_ltb c b = false → entry_ltb c a = false.
Proof.
  destruct a as [[[ka|] ta] ra], b as [[[kb|] tb] rb], c as [[[kc|] tc] rc];
    unfold entry_ltb, entry_key, entry_ts, optQ_eqb, key_ltb; simpl;
    q_cases; intros; try done; try lia; exfalso; lra.
Qed.

Lemma comparable_valid (objs : list Order.t) (h : list entry) (e : entry) :
  comparable objs h → e ∈ h → is_Some (objs !! entry_ref e).
Proof.
  intros Hc He. specialize (Hc e e He He).
  destruct e as [[k t] r]. unfold entry_lt in Hc. simpl.
  assert (optQ_eqb k k = true) as Hk.
  { destruct k; simpl; [|done]. apply Qeq_bool_iff. reflexivity. }
  rewrite Hk in Hc. rewrite bool_decide_eq_true_2 in Hc by done.
  destruct (objs !! r); [eauto|discriminate].
Qed.

Lemma best_loop_spec (objs : list Order.t) (fuel : nat) :
  ∀ h, length h < fuel → comparable objs h → heap_ordered entry_ltb h →
       ∃ h' top, best_loop fuel objs h = (h', Returns top)
                 ∧ lookup_result objs h h' top.
Proof.
  induction fuel as [|fuel IH]; intros h Hfuel Hcmp Hh; [lia|].
  cbn [best_loop]. unfold_monad.
  destruct h as [|e t] eqn:Eh.
  { exists [], None. split; [done|].
    split; [by exists []|]. split; [done|]. split; [done|]. split; [done|].
    split; [done|]. intros e He. by apply elem_of_nil in He. }
  rewrite <-Eh in *.
  assert (e ∈ h) as He by (rewrite Eh; apply list_elem_of_here).
  destruct (comparable_valid objs h e Hcmp He) as [o Ho]. rewrite Ho.
  assert (∀ x, x ∈ h → entry_ltb x e = false) as Hmin.
  { apply (heap_root_min entry_ltb entry_ltb_asym entry_le_trans h e Hh).
    by rewrite Eh. }
  case_bool_decide as Hst.
  - exists h, (Some (entry_ref e)). split; [done|].
    split; [by exists []|]. split; [done|]. split; [done|]. split; [done|].
    exists e, o. split; [by rewrite Eh|]. split; [done|]. split; [done|].
    split; [done|]. split; [done|]. intros e' He' _. by apply Hmin.
  - destruct (heappop_spec (entry_lt objs) entry_ltb (λ x, x ∈ h) Hcmp
                entry_ltb_asym entry_le_trans h) as
      (m & h1 & Hpop & Hm & Hperm & HP1 & Hh1); try done.
    { by rewrite Eh. }
    { by apply Forall_forall. }
    rewrite Hpop.
    assert (m = e) as -> by (rewrite Eh in Hm; by injection Hm).
    rewrite Forall_forall in HP1.
    destruct (IH h1) as (h' & top & Hrun & (removed & Hp' & Hrem) & Hfil & Hh' & Hc' & Htop).
    { apply Permutation_length in Hperm. simpl in Hperm. lia. }
    { intros a b Ha Hb. apply Hcmp; by apply HP1. }
    { done. }
    rewrite Hrun. exists h', top. split; [done|].
    assert (pendingb objs e = false) as Hpe.
    { unfold pendingb. rewrite Ho. by apply bool_decide_eq_false_2. }
    split; [|split; [|split; [done|split; [done|]]]].
    + exists (e :: removed). split.
      * rewrite Hperm, Hp'. done.
      * by constructor.
    + rewrite Hfil, Hperm. rewrite filter_cons_False; [done|]. by rewrite Hpe.
    + destruct top as [r|].
      * destruct Htop as (e1 & o1 & H0 & Hin & Hr & Ho1 & Hs1 & Hbest).
        exists e1, o1. split; [done|]. split; [|split; [done|split; [done|split; [done|]]]].
        -- rewrite Hperm. by apply list_elem_of_further.
        -- intros e' He' Hpend. rewrite Hperm in He'.
           apply elem_of_cons in He' as [->|He']; [congruence|]. by apply Hbest.
      * destruct Htop as [-> Hnone]. split; [done|].
        intros e' He'. rewrite Hperm in He'.
        apply elem_of_cons in He' as [->|He']; [done|]. by apply Hnone.
Qed.

Local Close Scope nat_scope.

(** [entry_ltb] is strict price-time order on the recorded keys: an earlier
    key wins, and on equal keys the earlier timestamp. *)
Lemma entry_ltb_price_time (k1 k2 : Q) (t1 t2 : Z) (r1 r2 : ref) :
  entry_ltb (Some k1, t1, r1) (Some k2, t2, r2) = false
  ↔ (k2 < k1)%Q ∨ ((k1 == k2)%Q ∧ (t2 ≤ t1)%Z).
Proof.
  unfold entry_ltb, entry_key, entry_ts, optQ_eqb, key_ltb; simpl.
  q_cases; split; intros H; try done;
    try (destruct H as [H|[H1 H2]]; exfalso; (lra || lia));
    try (left; lra); try (right; split; [done|lia]).
Qed.

Lemma best_of_heap_spec (objs : list Order.t) (h : list entry) :
  comparable objs h → heap_ordered entry_ltb h →
  ∃ h' top, best_of_heap objs h = (h', Returns top) ∧ lookup_result objs h h' top.
Proof.
  intros Hc Hh. unfold best_of_heap. unfold_monad.
  apply best_loop_spec; [lia|done|done].
Qed.

(** X1.  What the lookups guarantee.  On a book whose two heaps are well formed
    (heap ordered, entries pairwise comparable), [best_bid] and [best_ask]
    return; the entries they
    remove are not PENDING, so the PENDING entries of the side are the same
    before and after (and the heap stays well formed for the next lookup);
    the order returned is PENDING and its entry precedes or ties, in key
    then timestamp, every PENDING entry of the side; nothing is returned
    only if no entry of the side is PENDING.  The other side is untouched. *)
Theorem best_of_side_lookup (objs : list Order.t) (b : OrderBook.t) :
  comparable objs (OrderBook.bids b) → heap_ordered entry_ltb (OrderBook.bids b) →
  comparable objs (OrderBook.asks b) → heap_ordered entry_ltb (OrderBook.asks b) →
  (∃ b' top, best_bid objs b = (b', Returns top)
             ∧ OrderBook.asks b' = OrderBook.asks b
             ∧ OrderBook.ticker b' = OrderBook.ticker b
             ∧ lookup_result objs (OrderBook.bids b) (OrderBook.bids b') top)
  ∧ (∃ b' top, best_ask objs b = (b', Returns top)
               ∧ OrderBook.bids b' = OrderBook.bids b
               ∧ OrderBook.ticker b' = OrderBook.ticker b
               ∧ lookup_result objs (OrderBook.asks b) (OrderBook.asks b') top).
Proof.
  intros Hcb Hhb Hca Hha. split.
  - destruct (best_of_heap_spec objs _ Hcb Hhb) as (h' & top & Hrun & Hres).
    unfold best_bid, zoom. rewrite Hrun.
    exists (OrderBook.set_bids h' b), top. done.
  - destruct (best_of_heap_spec objs _ Hca Hha) as (h' & top & Hrun & Hres).
    unfold best_ask, zoom. rewrite Hrun.
    exists (OrderBook.set_asks h' b), top. done.
Qed.

Lemma demo_book_well_formed :
  (comparable demo_objects (OrderBook.bids demo_book)
   ∧ heap_ordered entry_ltb (OrderBook.bids demo_book))
  ∧ (comparable demo_objects (OrderBook.asks demo_book)
     ∧ heap_ordered entry_ltb (OrderBook.asks demo_book)).
Proof.
  split; split.
  - intros a b Ha Hb. simpl in Ha, Hb.
    apply list_elem_of_singleton in Ha as ->.
    apply list_elem_of_singleton in Hb as ->. reflexivity.
  - intros [|[|i]] x p Hi Hx Hp; simpl in *; try lia; discriminate.
  - intros a b Ha Hb. simpl in Ha, Hb.
    repeat (apply elem_of_cons in Ha as [->|Ha]);
      repeat (apply elem_of_cons in Hb as [->|Hb]);
      try (by apply elem_of_nil in Ha); try (by apply elem_of_nil in Hb);
      reflexivity.
  - intros [|[|[|i]]] x p Hi Hx Hp; simpl in *; try lia; try discriminate;
      injection Hx as <-; injection Hp as <-; reflexivity.
Defined.

Lemma best_of_side_lookup_witness :
  (comparable demo_objects (OrderBook.bids demo_book)
   ∧ heap_ordered entry_ltb (OrderBook.bids demo_book))
  ∧ (comparable demo_objects (OrderBook.asks demo_book)
     ∧ heap_ordered entry_ltb (OrderBook.asks demo_book))
  ∧ (∃ b' top, best_ask demo_objects demo_book = (b', Returns top)
               ∧ OrderBook.bids b' = OrderBook.bids demo_book
               ∧ OrderBook.ticker b' = OrderBook.ticker demo_book
               ∧ lookup_result demo_objects (OrderBook.asks demo_book)
                               (OrderBook.asks b') top).
Proof.
  destruct demo_book_well_formed as [[Hcb Hhb] [Hca Hha]].
  split; [done|]. split; [done|].
  apply (best_of_side_lookup demo_objects demo_book Hcb Hhb Hca Hha).
Defined.

(** C9.  The lookup does not always return.  In [tied_asks] the head of
    the ask heap is FILLED and two PENDING entries tie on price and
    timestamp without ever having been compared; [best_ask] discards the
    head, [heappop] puts the last entry (price 5) at the root, swaps it with
    the entry at price 2, compares the two tied entries below it and raises
    [TypeError].  Only the FILLED head has left the heap: the five PENDING
    entries are all still in it. *)
Theorem best_ask_raises_on_tie :
  ∃ b b',
    order_books tied_asks !! "XYZ" = Some b
    ∧ OrderBook.asks b
      = [(Some 1%Q, 1, 0%nat); (Some 2%Q, 2, 1%nat); (Some 3%Q, 3, 2%nat);
         (Some 4%Q, 4, 3%nat); (Some 4%Q, 4, 4%nat); (Some 5%Q, 6, 5%nat)]
    ∧ pendingb (objects tied_asks) <$> OrderBook.asks b
      = [false; true; true; true; true; true]
    ∧ best_ask (objects tied_asks) b = (b', Raises TypeError)
    ∧ OrderBook.asks b'
      = [(Some 2%Q, 2, 1%nat); (Some 5%Q, 6, 5%nat); (Some 3%Q, 3, 2%nat);
         (Some 4%Q, 4, 3%nat); (Some 4%Q, 4, 4%nat)].
Proof.
  vm_compute. do 2 eexists. repeat split; reflexivity.
Qed.

(** ** Stepping through monadic code *)

Lemma agent_alters (t : string) (q cost : Q) (bk sk : string) (m : gmap string Agent.t) :
  alter (Agent.set_total_trades (λ n, n + 1)) sk
    (alter (Agent.set_total_trades (λ n, n + 1)) bk
       (alter (Agent.set_portfolio
                 (λ pf, if Qle_bool (default 0%Q (pf !! t)) 0 then delete t pf else pf)) sk
          (alter (Agent.set_portfolio (λ pf, <[t:=(default 0%Q (pf !! t) - q)%Q]> pf)) sk
             (alter (Agent.set_portfolio (λ pf, <[t:=(default 0%Q (pf !! t) + q)%Q]> pf)) bk
                (alter (Agent.set_balance (λ b, b + cost)%Q) sk
                   (alter (Agent.set_balance (λ b, b - cost)%Q) bk m))))))
  = alter (debit_seller t q cost) sk (alter (credit_buyer t q cost) bk m).
Proof.
  apply map_eq. intros k. rewrite !lookup_alter.
  destruct (m !! bk) as [ab|] eqn:Hb, (m !! sk) as [as_|] eqn:Hs;
    repeat case_decide; subst; simplify_eq; rewrite ?Hb, ?Hs; simpl; try done.
Qed.

Lemma object_alters (q p : Q) (now : Z) (br sr : ref) (l : list Order.t) :
  br ≠ sr →
  let l1 := alter (Order.set_filled_price p) sr
              (alter (Order.set_filled_price p) br
                 (alter (Order.set_filled_quantity (λ f, f + q)%Q) sr
                    (alter (Order.set_filled_quantity (λ f, f + q)%Q) br l))) in
  ∀ bo so, l !! br = Some bo → l !! sr = Some so →
  ∃ bo' so',
    l1 !! br = Some bo' ∧
    let l2 := if Qle_bool (Order.quantity bo') (Order.filled_quantity bo')
              then alter (λ o, Order.set_filled_at (Some now) (Order.set_status FILLED o)) br l1
              else l1 in
    l2 !! sr = Some so' ∧
    (if Qle_bool (Order.quantity so') (Order.filled_quantity so')
     then alter (λ o, Order.set_filled_at (Some now) (Order.set_status FILLED o)) sr l2
     else l2)
    = alter (settle q p now) sr (alter (settle q p now) br l).
Proof.
  intros Hne l1 bo so Hbo Hso.
  exists (Order.set_filled_price p (Order.set_filled_quantity (λ f, f + q)%Q bo)),
         (Order.set_filled_price p (Order.set_filled_quantity (λ f, f + q)%Q so)).
  split.
  { unfold l1. rewrite list_lookup_alter_ne by done. rewrite list_lookup_alter_eq.
    rewrite list_lookup_alter_ne by done. rewrite list_lookup_alter_eq. by rewrite Hbo. }
  assert (l1 !! sr = Some (Order.set_filled_price p
            (Order.set_filled_quantity (λ f, f + q)%Q so))) as Hs1.
  { unfold l1. rewrite list_lookup_alter_eq.
    rewrite list_lookup_alter_ne by done. rewrite list_lookup_alter_eq.
    rewrite list_lookup_alter_ne by done. by rewrite Hso. }
  split.
  { destruct (Qle_bool _ _); [|done]. by rewrite list_lookup_alter_ne. }
  apply list_eq. intros i.
  destruct (decide (i = br)) as [->|Hib]; [|destruct (decide (i = sr)) as [->|His]].
  - rewrite (list_lookup_alter_ne _ _ sr br) by done. rewrite list_lookup_alter_eq, Hbo.
    unfold settle. simpl.
    repeat (destruct (Qle_bool _ _));
      rewrite ?(list_lookup_alter_ne _ _ sr br) by done;
      rewrite ?list_lookup_alter_eq; unfold l1;
      rewrite ?(list_lookup_alter_ne _ _ sr br) by done;
      rewrite ?list_lookup_alter_eq;
      rewrite ?(list_lookup_alter_ne _ _ sr br) by done;
      rewrite ?list_lookup_alter_eq; rewrite ?Hbo; done.
  - rewrite list_lookup_alter_eq. rewrite (list_lookup_alter_ne _ _ br sr) by done.
    rewrite Hso. unfold settle. simpl.
    repeat (destruct (Qle_bool _ _));
      rewrite ?list_lookup_alter_eq;
      rewrite ?(list_lookup_alter_ne _ _ br sr) by done; unfold l1;
      rewrite ?list_lookup_alter_eq;
      rewrite ?(list_lookup_alter_ne _ _ br sr) by done;
      rewrite ?list_lookup_alter_eq;
      rewrite ?(list_lookup_alter_ne _ _ br sr) by done; rewrite ?Hso; done.
  - rewrite !(list_lookup_alter_ne _ _ _ i) by done.
    repeat (destruct (Qle_bool _ _)); unfold l1;
      rewrite !(list_lookup_alter_ne _ _ _ i) by done; done.
Qed.


Lemma run_get_obj {B} (r : ref) (k : Order.t → M Exchange B) (s : Exchange) :
  (get_obj r ≫= k) s = match objects s !! r with
                       | Some o => k o s
                       | None => (s, Stuck)
                       end.
Proof. unfold get_obj. unfold_monad. by destruct (objects s !! r). Qed.
Lemma run_agent_at {B} (a : string) (k : Agent.t → M Exchange B) (s : Exchange) :
  (agent_at a ≫= k) s = match agents s !! a with
                        | Some x => k x s
                        | None => (s, Raises KeyError)
                        end.
Proof. unfold agent_at. unfold_monad. by destruct (agents s !! a). Qed.
Lemma run_company_at {B} (t : string) (k : Company.t → M Exchange B) (s : Exchange) :
  (company_at t ≫= k) s = match companies s !! t with
                          | Some x => k x s
                          | None => (s, Raises KeyError)
                          end.
Proof. unfold company_at. unfold_monad. by destruct (companies s !! t). Qed.
Lemma run_as_num {S B} (p : option Q) (k : Q → M S B) (s : S) :
  (as_num p ≫= k) s = match p with
                      | Some x => k x s
                      | None => (s, Raises TypeError)
                      end.
Proof. by destruct p. Qed.
Lemma run_modify_obj {B} (r : ref) (f : Order.t → Order.t) (k : unit → M Exchange B)
    (s : Exchange) :
  (modify_obj r f ≫= k) s = k tt (set_objects (alter f r) s).
Proof. reflexivity. Qed.

Lemma run_when_modify_obj {B} (b : bool) (r : ref) (f : Order.t → Order.t)
    (k : unit → M Exchange B) (s : Exchange) :
  ((if b then modify_obj r f else ret tt) ≫= k) s
  = k tt (set_objects (λ l, if b then alter f r l else l) s).
Proof. destruct b; [reflexivity|]. by destruct s. Qed.

Lemma _execute_trade_effect (r1 r2 : ref) (q : Q) (price : option Q) (now : Z)
    (s s' : Exchange) (out : outcome unit) :
  r1 ≠ r2 →
  _execute_trade r1 r2 q price now s = (s', out) →
  trade_effect r1 r2 q price now s s' out.
Proof.
  intros Hne. unfold _execute_trade. rewrite run_get_obj.
  destruct (objects s !! r1) as [o1|] eqn:Ho1;
    [|intros [= <- <-]; apply trade_aborted; auto].
  set (br := if bool_decide (Order.side o1 = BUY) then r1 else r2).
  set (sr := if bool_decide (Order.side o1 = BUY) then r2 else r1).
  assert (br ≠ sr) as Hbs by (unfold br, sr; case_bool_decide; congruence).
  rewrite run_get_obj.
  destruct (objects s !! br) as [bo|] eqn:Hbo.
  2: { intros [= <- <-]. apply trade_aborted; [done|done|]. intros _.
       unfold br in Hbo. case_bool_decide; [congruence|by right]. }
  rewrite run_get_obj.
  destruct (objects s !! sr) as [so|] eqn:Hso.
  2: { intros [= <- <-]. apply trade_aborted; [done|done|]. intros _.
       unfold sr in Hso. case_bool_decide; [by right|congruence]. }
  rewrite run_agent_at.
  destruct (agents s !! Order.agent_id bo) as [buyer|] eqn:Hbuyer;
    [|intros [= <- <-]; by apply trade_aborted].
  rewrite run_agent_at.
  destruct (agents s !! Order.agent_id so) as [seller|] eqn:Hseller;
    [|intros [= <- <-]; by apply trade_aborted].
  rewrite run_as_num.
  destruct price as [p|]; [|intros [= <- <-]; by apply trade_aborted].
  destruct (object_alters q p now br sr (objects s) Hbs bo so Hbo Hso)
    as (bo' & so' & Hb' & Hs' & Hobjs).
  rewrite !run_modify, !run_modify_obj, run_get_obj.
  cbn [set_agents set_objects set_trades set_companies set_price_history
       agents companies order_books trades orders price_history objects].
  rewrite Hb'. rewrite run_when_modify_obj, run_get_obj.
  cbn [set_agents set_objects set_trades set_companies set_price_history
       agents companies order_books trades orders price_history objects].
  cbn zeta in Hs', Hobjs. rewrite Hs'. rewrite run_when_modify_obj.
  rewrite !run_modify, run_company_at.
  cbn [set_agents set_objects set_trades set_companies set_price_history
       agents companies order_books trades orders price_history objects].
  destruct (companies s !! Order.ticker o1) as [c|] eqn:Hc.
  - rewrite run_modify. unfold modify. intros [= <- <-].
    eapply (trade_settled _ _ _ _ _ _ _ _ o1 bo so buyer seller p);
      try done;
      cbn [set_agents set_objects set_trades set_companies set_price_history
           agents companies order_books trades orders price_history objects].
    all: try apply agent_alters.
    all: try exact Hobjs.
    left. split_and!; done.
  - intros [= <- <-].
    eapply (trade_settled _ _ _ _ _ _ _ _ o1 bo so buyer seller p);
      try done;
      cbn [set_agents set_objects set_trades set_companies set_price_history
           agents companies order_books trades orders price_history objects].
    all: try apply agent_alters.
    all: try exact Hobjs.
    right. done.
Qed.

(** ** Share conservation *)

Lemma sumQ_perm (l l' : list Q) : l ≡ₚ l' → (sumQ l == sumQ l')%Q.
Proof.
  induction 1; simpl; try lra.
Qed.

Lemma sum_over_insert (g : Agent.t → Q) (m : gmap string Agent.t) (k : string)
    (a : Agent.t) :
  m !! k = None → (sum_over g (<[k:=a]> m) == g a + sum_over g m)%Q.
Proof.
  intros Hk. unfold sum_over.
  rewrite (sumQ_perm _ (g <$> ((k, a) :: map_to_list m).*2)).
  - simpl. reflexivity.
  - apply fmap_Permutation, fmap_Permutation. by apply map_to_list_insert.
Qed.

Lemma sum_over_alter (g : Agent.t → Q) (f : Agent.t → Agent.t)
    (m : gmap string Agent.t) (k : string) (a : Agent.t) :
  m !! k = Some a →
  (sum_over g (alter f k m) == sum_over g m + (g (f a) - g a))%Q.
Proof.
  intros Hk.
  rewrite (alter_lookup_insert f k m a Hk).
  rewrite <-(insert_delete_eq m k (f a)).
  rewrite <-(insert_delete_id m k a Hk) at 2.
  rewrite !sum_over_insert by apply lookup_delete_eq. lra.
Qed.

Lemma holding_credit_buyer (t t' : string) (q cost : Q) (a : Agent.t) :
  holding t' (credit_buyer t q cost a)
  = if decide (t = t') then (holding t a + q)%Q else holding t' a.
Proof.
  unfold holding, credit_buyer. simpl. rewrite lookup_insert.
  by case_decide; subst.
Qed.

Lemma holding_debit_seller (t t' : string) (q cost : Q) (a : Agent.t) :
  holding t' (debit_seller t q cost a)
  = if decide (t = t')
    then if Qle_bool (holding t a - q) 0 then 0%Q else (holding t a - q)%Q
    else holding t' a.
Proof.
  unfold holding, debit_seller. simpl. rewrite lookup_insert_eq. simpl.
  destruct (Qle_bool _ 0).
  - rewrite lookup_delete. case_decide; subst; [done|].
    by rewrite lookup_insert_ne.
  - rewrite lookup_insert. by case_decide; subst.
Qed.



(** ** Invariants of the engine, frames and conservation *)

Local Close Scope string_scope.
Local Close Scope Z_scope.
Local Open Scope nat_scope.

Section heapq_any_outcome.
Context {A : Type} (lt : A → A → outcome bool) (P : A → Prop).
Hypothesis lt_not_stuck : ∀ a b, P a → P b → lt a b ≠ Stuck.

Lemma siftdown_loop_any (fuel : nat) :
  ∀ (pos : nat) (h h' : list A) (newitem : A) (out : outcome unit),
    pos < fuel → pos < length h → P newitem → Forall P h →
    _siftdown_loop lt fuel newitem 0 pos h = (h', out) →
    out ≠ Stuck ∧ h' ≡ₚ h.
Proof.
  induction fuel as [|fuel IH]; intros pos h h' newitem out Hfuel Hlen Hn HP; [lia|].
  cbn [_siftdown_loop]. destruct (0 <? pos) eqn:Hpos.
  2: { by intros [= <- <-]. }
  apply Nat.ltb_lt in Hpos.
  pose proof (parent_cases pos Hpos) as Hpc.
  set (pp := (pos - 1) / 2) in *.
  destruct (lookup_lt_is_Some_2 h pp ltac:(lia)) as [parent Hpar].
  destruct (lookup_lt_is_Some_2 h pos Hlen) as [item Hitem].
  assert (P parent) as HPp by exact (Forall_lookup_1 _ _ _ _ HP Hpar).
  assert (P item) as HPi by exact (Forall_lookup_1 _ _ _ _ HP Hitem).
  rewrite run_list_get, Hpar, run_bind. unfold lift_outcome at 1.
  destruct (lt newitem parent) as [[|]|e|] eqn:Hlt.
  - rewrite run_list_get, Hpar, run_list_get, Hitem.
    rewrite run_list_set, decide_True by lia.
    rewrite run_list_set, decide_True by (rewrite length_insert; lia).
    assert (<[pos:=parent]> (<[pp:=item]> h) ≡ₚ h) as Hswap
      by by apply Permutation_insert_swap.
    intros Hrun. apply IH in Hrun as [Hns Hperm].
    + split; [done|]. by rewrite Hperm.
    + lia.
    + rewrite !length_insert. lia.
    + done.
    + by rewrite Hswap.
  - by intros [= <- <-].
  - by intros [= <- <-].
  - by destruct (lt_not_stuck newitem parent).
Qed.

Lemma siftdown_any (pos : nat) (h h' : list A) (out : outcome unit) :
  pos < length h → Forall P h →
  _siftdown lt 0 pos h = (h', out) →
  out ≠ Stuck ∧ h' ≡ₚ h.
Proof.
  intros Hlen HP. unfold _siftdown. rewrite run_gets.
  destruct (length h <=? pos) eqn:Hle; [apply Nat.leb_le in Hle; lia|].
  destruct (lookup_lt_is_Some_2 h pos Hlen) as [newitem Hn].
  rewrite run_list_get, Hn.
  apply siftdown_loop_any; try done; try lia.
  exact (Forall_lookup_1 _ _ _ _ HP Hn).
Qed.

Lemma heappush_any (item : A) (h h' : list A) (out : outcome unit) :
  P item → Forall P h →
  heappush lt item h = (h', out) →
  out ≠ Stuck ∧ Forall P h' ∧ (∀ x, x ∈ h' → x = item ∨ x ∈ h)
  ∧ (out = Returns tt → h' ≡ₚ item :: h).
Proof.
  intros Hi HP. unfold heappush, list_append.
  rewrite run_modify, run_gets.
  replace (length (h ++ [item]) - 1) with (length h)
    by (rewrite length_app; simpl; lia).
  intros Hrun. apply siftdown_any in Hrun as [Hns Hperm].
  - assert (h' ≡ₚ item :: h) as Hp
      by (rewrite Hperm; by rewrite Permutation_app_comm).
    split_and!; try done.
    + rewrite Hp. by apply Forall_cons.
    + intros x Hx. rewrite Hp in Hx. by apply elem_of_cons in Hx.
  - rewrite length_app. simpl. lia.
  - apply Forall_app. split; [done|]. by apply Forall_singleton.
Qed.

Lemma siftup_loop_any (fuel : nat) :
  ∀ (pos : nat) (h h' : list A) (out : outcome nat),
    length h - pos < fuel → pos < length h → Forall P h →
    _siftup_loop lt fuel (length h) (length h / 2) pos h = (h', out) →
    out ≠ Stuck ∧ h' ≡ₚ h ∧ ∀ pos', out = Returns pos' → pos' < length h'.
Proof.
  induction fuel as [|fuel IH]; intros pos h h' out Hfuel Hlen HP; [lia|].
  cbn [_siftup_loop]. destruct (pos <? length h / 2) eqn:Hchild.
  2: { intros [= <- <-]. split_and!; try done. by intros ? [= <-]. }
  apply Nat.ltb_lt, half_lt in Hchild.
  destruct (lookup_lt_is_Some_2 h (2 * pos + 1) Hchild) as [l Hl].
  assert (P l) as HPl by exact (Forall_lookup_1 _ _ _ _ HP Hl).
  rewrite run_bind.
  destruct ((if 2 * pos + 1 + 1 <? length h
             then a ← list_get (2 * pos + 1);
                  b ← list_get (2 * pos + 1 + 1);
                  cmp ← lift_outcome (lt a b);
                  ret (if cmp : bool then 2 * pos + 1 else 2 * pos + 1 + 1)
             else ret (2 * pos + 1)) h) as [h0 o0] eqn:Hsel.
  assert (h0 = h ∧ o0 ≠ Stuck
          ∧ ∀ cpos, o0 = Returns cpos →
              (cpos = 2 * pos + 1 ∨ cpos = 2 * pos + 1 + 1) ∧ cpos < length h)
    as (-> & Hns0 & Hcp).
  { destruct (2 * pos + 1 + 1 <? length h) eqn:Hright.
    - apply Nat.ltb_lt in Hright.
      destruct (lookup_lt_is_Some_2 h (2 * pos + 1 + 1) Hright) as [r Hr].
      assert (P r) as HPr by exact (Forall_lookup_1 _ _ _ _ HP Hr).
      revert Hsel. rewrite run_list_get, Hl, run_list_get, Hr, run_bind.
      unfold lift_outcome at 1.
      destruct (lt l r) as [b|e|] eqn:Hlr.
      + intros [= <- <-]. split_and!; try done.
        intros cpos [= <-]. destruct b; simpl; lia.
      + intros [= <- <-]. split_and!; try done.
      + by destruct (lt_not_stuck l r).
    - apply Nat.ltb_ge in Hright. revert Hsel. intros [= <- <-].
      split_and!; try done. intros cpos [= <-]. lia. }
  destruct o0 as [cpos| |]; [|by intros [= <- <-]|done].
  destruct (Hcp cpos eq_refl) as [Hcpos Hclen].
  destruct (lookup_lt_is_Some_2 h cpos Hclen) as [c Hc].
  destruct (lookup_lt_is_Some_2 h pos Hlen) as [x Hx].
  rewrite run_list_get, Hc, run_list_get, Hx.
  rewrite run_list_set, decide_True by done.
  rewrite run_list_set, decide_True by (rewrite length_insert; lia).
  assert (<[pos:=c]> (<[cpos:=x]> h) ≡ₚ h) as Hswap
    by by apply Permutation_insert_swap.
  replace (length h) with (length (<[pos:=c]> (<[cpos:=x]> h)))
    by by rewrite !length_insert.
  intros Hrun. apply IH in Hrun as (Hns & Hperm & Hret).
  - split; [done|]. split; [by rewrite Hperm|done].
  - rewrite !length_insert. lia.
  - rewrite !length_insert. done.
  - by rewrite Hswap.
Qed.

Lemma heappop_any (h h' : list A) (out : outcome A) :
  Forall P h →
  heappop lt h = (h', out) →
  out ≠ Stuck ∧ Forall P h' ∧ (∀ x, x ∈ h' → x ∈ h)
  ∧ ∀ m, out = Returns m → h !! 0 = Some m ∧ h ≡ₚ m :: h'.
Proof.
  intros HP. unfold heappop, list_pop. rewrite run_bind.
  destruct (last h) as [lastelt|] eqn:Hlast.
  2: { intros [= <- <-]. split_and!; done. }
  apply last_Some in Hlast as [t ->].
  rewrite length_app. simpl.
  replace (length t + 1 - 1) with (length t) by lia.
  rewrite take_app_length. rewrite run_gets.
  pose proof HP as HP0.
  apply Forall_app in HP as [HPt HPl]. rewrite Forall_singleton in HPl.
  destruct t as [|m t].
  { simpl. intros [= <- <-]. split_and!; try done.
    - intros x Hx. by apply elem_of_nil in Hx.
    - by intros m [= <-]. }
  apply Forall_cons in HPt as [HPm HPt].
  change (0 <? length (m :: t)) with true. cbn iota.
  rewrite run_list_get. change ((m :: t) !! 0) with (Some m). cbn iota.
  rewrite run_list_set. rewrite decide_True by (simpl; lia).
  change (<[0:=lastelt]> (m :: t)) with (lastelt :: t).
  assert ((m :: t) ++ [lastelt] ≡ₚ m :: lastelt :: t) as Hall.
  { simpl. by rewrite <-Permutation_cons_append. }
  assert (∀ l : list A, l ≡ₚ lastelt :: t →
            Forall P l ∧ (∀ x, x ∈ l → x ∈ (m :: t) ++ [lastelt])
            ∧ (m :: t) ++ [lastelt] ≡ₚ m :: l) as Hfin.
  { intros l Hl. split_and!.
    - rewrite Hl. by apply Forall_cons.
    - intros x Hx. rewrite Hall. apply list_elem_of_further. by rewrite <-Hl.
    - by rewrite Hall, Hl. }
  rewrite run_bind. unfold _siftup. rewrite run_gets.
  change (length (lastelt :: t) <=? 0) with false. cbn iota.
  rewrite run_bind.
  destruct (_siftup_loop lt (S (length (lastelt :: t))) (length (lastelt :: t))
              (length (lastelt :: t) / 2) 0 (lastelt :: t)) as [h1 o1] eqn:Hloop.
  apply siftup_loop_any in Hloop as (Hns & Hperm1 & Hret1);
    [|lia|simpl; lia|by apply Forall_cons].
  destruct (Hfin h1 Hperm1) as (HP1 & Hsub1 & _).
  destruct o1 as [pos1| |]; [|intros [= <- <-]; split_and!; done|done].
  specialize (Hret1 pos1 eq_refl).
  destruct (_siftdown lt 0 pos1 h1) as [h2 o2] eqn:Hdown.
  apply siftdown_any in Hdown as [Hns2 Hperm2]; [|done|done].
  destruct (Hfin h2 ltac:(by rewrite Hperm2)) as (HP2 & Hsub2 & Hp2).
  destruct o2 as [[]| |]; [|intros [= <- <-]; split_and!; done|done].
  intros [= <- <-]. split_and!; try done.
  by intros m' [= <-].
Qed.

End heapq_any_outcome.

Lemma entry_lt_not_stuck (objs : list Order.t) (a b : entry) :
  is_Some (objs !! entry_ref a) → is_Some (objs !! entry_ref b) →
  entry_lt objs a b ≠ Stuck.
Proof.
  destruct a as [[ka ta] ra], b as [[kb tb] rb]. simpl.
  intros [oa Ha] [ob Hb]. unfold entry_lt. rewrite Ha, Hb.
  destruct (optQ_eqb ka kb).
  - case_bool_decide; [|done]. by destruct (_ || _).
  - by destruct ka, kb.
Qed.

Lemma best_loop_any (objs : list Order.t) (fuel : nat) :
  ∀ (h h' : list entry) (out : outcome (option ref)),
    length h < fuel →
    Forall (λ e, is_Some (objs !! entry_ref e)) h →
    best_loop fuel objs h = (h', out) →
    out ≠ Stuck ∧ (∀ e, e ∈ h' → e ∈ h)
    ∧ ∀ top, out = Returns top →
        (∃ removed, h ≡ₚ removed ++ h'
                    ∧ Forall (λ e, pendingb objs e = false) removed)
        ∧ match top with
          | Some r => ∃ e t, h' = e :: t ∧ entry_ref e = r
                             ∧ pendingb objs e = true
          | None => h' = []
          end.
Proof.
  induction fuel as [|fuel IH]; intros h h' out Hfuel Hv; [lia|].
  cbn [best_loop]. rewrite run_get.
  destruct h as [|e t] eqn:Eh.
  { intros [= <- <-]. split_and!; try done. intros top [= <-].
    split; [|done]. by exists []. }
  rewrite <-Eh in *.
  assert (e ∈ h) as He by (rewrite Eh; apply list_elem_of_here).
  destruct (proj1 (Forall_forall _ _) Hv e He) as [o Ho]. rewrite Ho.
  case_bool_decide as Hst.
  - intros [= <- <-]. split_and!; try done. intros top [= <-]. split.
    + by exists [].
    + exists e, t. split_and!; try done. unfold pendingb. rewrite Ho.
      by apply bool_decide_eq_true_2.
  - rewrite run_bind.
    destruct (heappop (entry_lt objs) h) as [h1 o1] eqn:Hpop.
    apply (heappop_any _ (λ e, is_Some (objs !! entry_ref e))) in Hpop
      as (Hns & Hv1 & Hsub & Hret); [|by apply entry_lt_not_stuck|done].
    destruct o1 as [m| |]; [|intros [= <- <-]; split_and!; done|done].
    destruct (Hret m eq_refl) as [Hm Hperm].
    assert (m = e) as -> by (rewrite Eh in Hm; by injection Hm).
    intros Hrun. apply IH in Hrun as (Hns' & Hsub' & Hret'); [| |done].
    2: { apply Permutation_length in Hperm. simpl in Hperm. lia. }
    split_and!; try done.
    + intros x Hx. by apply Hsub, Hsub'.
    + intros top ->. destruct (Hret' top eq_refl) as [(removed & Hp & Hrem) Htop].
      split; [|done]. exists (e :: removed). split.
      * rewrite Hperm, Hp. done.
      * constructor; [|done]. unfold pendingb. rewrite Ho.
        by apply bool_decide_eq_false_2.
Qed.

Lemma filter_none {A} (p : A → bool) (l : list A) :
  Forall (λ x, p x = false) l → filter (λ x, p x = true) l = [].
Proof.
  induction 1 as [|x l Hx _ IH]; [done|].
  rewrite filter_cons_False; [done|]. by rewrite Hx.
Qed.

Lemma best_opposite_unfold (side : OrderSide) (objs : list Order.t) (b : OrderBook.t) :
  best_opposite side objs b
  = let '(h', o) := best_of_heap objs (opp_heap side b) in
    (set_opp_heap side h' b, o).
Proof. by destruct side. Qed.

Lemma resting_opp (s : Exchange) (k : string) (b : OrderBook.t) (side : OrderSide)
    (e : entry) :
  order_books s !! k = Some b → e ∈ opp_heap side b → resting s e.
Proof.
  intros Hb He. exists k, b. split; [done|]. apply elem_of_app.
  destruct side; simpl in He; [by right|by left].
Qed.

(** The outcome of a best-of-side lookup made through the exchange. *)
Lemma with_book_best (k : string) (side : OrderSide) (s s' : Exchange)
    (out : outcome (option ref)) :
  (∀ e, resting s e → is_Some (objects s !! entry_ref e)) →
  with_book k (best_opposite side) s = (s', out) →
  out ≠ Stuck
  ∧ agents s' = agents s ∧ companies s' = companies s ∧ trades s' = trades s
  ∧ orders s' = orders s ∧ price_history s' = price_history s
  ∧ objects s' = objects s
  ∧ (∀ e, resting s' e → resting s e)
  ∧ ∀ top, out = Returns top →
      liquidity s' k side ≤ liquidity s k side
      ∧ match top with
        | Some r => ∃ e b', order_books s' !! k = Some b'
                            ∧ e ∈ opp_heap side b' ∧ entry_ref e = r
                            ∧ pendingb (objects s) e = true
        | None => liquidity s' k side = 0
        end.
Proof.
  intros Hv. unfold with_book.
  destruct (order_books s !! k) as [b|] eqn:Hb.
  2: { intros [= <- <-]. split_and!; done. }
  rewrite best_opposite_unfold. unfold best_of_heap. rewrite run_get.
  destruct (best_loop (S (length (opp_heap side b))) (objects s) (opp_heap side b))
    as [h' o] eqn:Hloop.
  intros [= <- <-].
  apply best_loop_any in Hloop as (Hns & Hsub & Hret); [|lia|].
  2: { apply Forall_forall. intros e He. apply Hv. by eapply resting_opp. }
  assert (∀ e, resting (set_order_books <[k:=set_opp_heap side h' b]> s) e
               → resting s e) as Hrest.
  { intros e (k' & b' & Hb' & He). simpl in Hb'.
    destruct (decide (k = k')) as [<-|Hne].
    - rewrite lookup_insert_eq in Hb'. injection Hb' as <-.
      exists k, b. split; [done|].
      apply elem_of_app in He. apply elem_of_app.
      destruct side; simpl in He; destruct He as [He|He]; auto.
    - rewrite lookup_insert_ne in Hb' by done. by exists k', b'. }
  split_and!; try done.
  intros top ->. destruct (Hret top eq_refl) as [(removed & Hperm & Hrem) Htop].
  unfold liquidity. simpl. rewrite lookup_insert_eq, Hb.
  assert (opp_heap side (set_opp_heap side h' b) = h') as -> by by destruct side.
  assert (pending_count (objects s) (opp_heap side b) = pending_count (objects s) h')
    as Hcount.
  { unfold pending_count. rewrite Hperm, filter_app, length_app.
    by rewrite (filter_none _ removed Hrem). }
  split; [lia|].
  destruct top as [r|].
  - destruct Htop as (e & t & -> & Hr & Hp).
    exists e, (set_opp_heap side (e :: t) b).
    split; [done|].
    split; [|done].
    assert (opp_heap side (set_opp_heap side (e :: t) b) = e :: t) as ->
      by by destruct side.
    apply list_elem_of_here.
  - by rewrite Htop.
Qed.

Lemma same_terms_refl (o : Order.t) : same_terms o o.
Proof. by repeat split. Qed.

Lemma same_terms_trans (o1 o2 o3 : Order.t) :
  same_terms o1 o2 → same_terms o2 o3 → same_terms o1 o3.
Proof.
  unfold same_terms. intros (?&?&?&?&?&?&?&?) (?&?&?&?&?&?&?&?).
  repeat split; congruence.
Qed.

Lemma pending_remaining (o : Order.t) :
  status_invariant o → Order.status o = PENDING → (0 < remaining o)%Q.
Proof.
  intros (H0 & Hle & Hf & _) Hst. unfold remaining.
  destruct (Qlt_le_dec (Order.filled_quantity o) (Order.quantity o)) as [|Hge];
    [lra|].
  assert (Order.status o = FILLED) as Habs by (apply Hf; lra). congruence.
Qed.

Lemma settle_invariant (q p : Q) (now : Z) (o : Order.t) :
  status_invariant o → Order.status o = PENDING →
  (0 < q)%Q → (q <= remaining o)%Q →
  status_invariant (settle q p now o)
  ∧ same_terms o (settle q p now o)
  ∧ (Order.status (settle q p now o) = PENDING
     ∨ Order.status (settle q p now o) = FILLED)
  ∧ (Order.filled_quantity (settle q p now o) == Order.filled_quantity o + q)%Q
  ∧ ((remaining o <= q)%Q → Order.status (settle q p now o) = FILLED).
Proof.
  intros (H0 & Hle & Hf & Hp & Hc) Hst Hq Hrem. unfold remaining in *.
  unfold settle. cbn [Order.quantity Order.filled_quantity Order.set_filled_price
    Order.set_filled_quantity].
  destruct (Qle_bool _ _) eqn:E.
  - apply Qle_bool_iff in E.
    split; [|split; [done|split; [by right|split; [reflexivity|done]]]].
    split; [simpl; lra|]. split; [simpl; lra|].
    split; [split; [intros _; simpl; lra|done]|]. split; [done|done].
  - assert (¬ (Order.quantity o <= Order.filled_quantity o + q)%Q) as Hn.
    { intros Hx. apply Qle_bool_iff in Hx. congruence. }
    split; [|split; [done|split; [by left|split; [reflexivity|]]]].
    + split; [simpl; lra|]. split; [simpl; lra|].
      simpl. rewrite Hst.
      split; [split; [done|intros Hx; lra]|]. split; done.
    + intros Hx. simpl. lra.
Qed.

Lemma credit_buyer_positive (t : string) (q cost : Q) (a : Agent.t) :
  (0 < q)%Q →
  (∀ t' x, Agent.portfolio a !! t' = Some x → (0 < x)%Q) →
  ∀ t' x, Agent.portfolio (credit_buyer t q cost a) !! t' = Some x → (0 < x)%Q.
Proof.
  intros Hq Ha t' x. unfold credit_buyer. simpl. rewrite lookup_insert.
  case_decide; [|by apply Ha]. intros [= <-].
  destruct (Agent.portfolio a !! t) as [y|] eqn:Hy; simpl; [|lra].
  specialize (Ha t y Hy). lra.
Qed.

Lemma debit_seller_positive (t : string) (q cost : Q) (a : Agent.t) :
  (∀ t' x, Agent.portfolio a !! t' = Some x → (0 < x)%Q) →
  ∀ t' x, Agent.portfolio (debit_seller t q cost a) !! t' = Some x → (0 < x)%Q.
Proof.
  intros Ha t' x. unfold debit_seller. simpl. rewrite lookup_insert_eq. simpl.
  destruct (Qle_bool _ 0) eqn:E.
  - rewrite lookup_delete. case_decide; [done|].
    rewrite lookup_insert_ne by done. by apply Ha.
  - rewrite lookup_insert. case_decide; [|by apply Ha]. intros [= <-].
    apply Qnot_le_lt. intros Hx. apply Qle_bool_iff in Hx. congruence.
Qed.

Lemma settled_lookup (f : Order.t → Order.t) (r cr br sr i : nat) (l : list Order.t) :
  r ≠ cr → (br = r ∧ sr = cr) ∨ (br = cr ∧ sr = r) →
  alter f sr (alter f br l) !! i
  = if decide (i = r ∨ i = cr) then f <$> l !! i else l !! i.
Proof.
  intros Hne Hcase. rewrite !list_lookup_alter.
  destruct Hcase as [[-> ->]|[-> ->]]; repeat case_decide; subst;
    try done; try (exfalso; intuition congruence);
    rewrite ?list_lookup_alter_ne by done; try done.
Qed.

Lemma trade_agents_positive (bk sk t : string) (q cost : Q)
    (m : gmap string Agent.t) :
  (0 < q)%Q →
  (∀ k a t' x, m !! k = Some a → Agent.portfolio a !! t' = Some x → (0 < x)%Q) →
  ∀ k a t' x,
    alter (debit_seller t q cost) sk (alter (credit_buyer t q cost) bk m) !! k
    = Some a →
    Agent.portfolio a !! t' = Some x → (0 < x)%Q.
Proof.
  intros Hq Hm k a t' x Ha. revert t' x. revert Ha. rewrite !lookup_alter.
  destruct (decide (sk = k)) as [->|Hs].
  - destruct (decide (bk = k)) as [->|Hb].
    + destruct (m !! k) as [a0|] eqn:Ha0; [|done]. simpl. intros [= <-].
      apply debit_seller_positive, credit_buyer_positive; [done|].
      intros t' x; by apply (Hm k a0 t' x).
    + destruct (m !! k) as [a0|] eqn:Ha0; [|done]. simpl. intros [= <-].
      apply debit_seller_positive. intros t' x; by apply (Hm k a0 t' x).
  - destruct (decide (bk = k)) as [->|Hb].
    + destruct (m !! k) as [a0|] eqn:Ha0; [|done]. simpl. intros [= <-].
      apply credit_buyer_positive; [done|]. intros t' x; by apply (Hm k a0 t' x).
    + intros Ha t' x. by apply (Hm k a t' x).
Qed.

Lemma resting_books (s s' : Exchange) (e : entry) :
  order_books s' = order_books s → resting s' e ↔ resting s e.
Proof. intros H. unfold resting. by rewrite H. Qed.

Lemma trade_keeps_matching (r cr : ref) (q : Q) (price : option Q) (now : Z)
    (s s' : Exchange) (out : outcome unit) (o0 o c : Order.t) :
  matching s r o0 → objects s !! r = Some o → objects s !! cr = Some c →
  cr ≠ r → Order.status o = PENDING → Order.status c = PENDING →
  (0 < q)%Q → (q <= remaining o)%Q → (q <= remaining c)%Q →
  _execute_trade r cr q price now s = (s', out) →
  out ≠ Stuck ∧ matching s' r o0 ∧ order_books s' = order_books s
  ∧ ((s' = s ∧ out ≠ Returns tt)
     ∨ ∃ p, ∀ i, objects s' !! i
                 = if decide (i = r ∨ i = cr)
                   then settle q p now <$> objects s !! i
                   else objects s !! i).
Proof.
  intros (HInv & Hnr & o' & Ho' & Hterms & Hst0) Ho Hc Hne Hso Hsc Hq Hro Hrc Hrun.
  rewrite Ho in Ho'. injection Ho' as <-.
  apply _execute_trade_effect in Hrun; [|done].
  destruct Hrun as [-> Hnot Hstuck|
    o1 bo so buyer seller p br sr t Ho1 Hbo Hso' Hb Hs Hp Hag Hobj Hbooks Hord Htr Hout].
  { split_and!; try done.
    - intros ->. destruct (Hstuck eq_refl); congruence.
    - split_and!; try done. by exists o.
    - by left. }
  assert (∀ i, objects s' !! i
               = if decide (i = r ∨ i = cr)
                 then settle q p now <$> objects s !! i
                 else objects s !! i) as Hlook.
  { intros i. rewrite Hobj. apply settled_lookup; [done|].
    unfold br, sr. case_bool_decide; [by left|by right]. }
  destruct HInv as [Hrest Hidx Hobjs Hpf].
  destruct (settle_invariant q p now o (Hobjs _ _ Ho) Hso Hq Hro)
    as (Hio & Hto & Hsto & _).
  destruct (settle_invariant q p now c (Hobjs _ _ Hc) Hsc Hq Hrc)
    as (Hic & Htc & Hstc & _).
  split; [|split; [|split; [done|right; by exists p]]].
  { destruct Hout as [[-> _]|[-> _]]; done. }
  split; [|split].
  - constructor.
    + intros e He. apply (resting_books s s' e Hbooks) in He.
      destruct (Hrest e He) as (oe & Hoe & Hty & Hste).
      rewrite Hlook. case_decide as Hd.
      * destruct Hd as [Hd|Hd]; [by destruct (Hnr e He)|].
        rewrite Hd in Hoe. rewrite Hc in Hoe. injection Hoe as <-.
        rewrite Hd, Hc. simpl. eexists. split; [done|].
        destruct Htc as (_ & _ & _ & _ & Hty' & _). split; [congruence|done].
      * rewrite Hoe. by exists oe.
    + intros id i Hi. rewrite Hord in Hi. apply Hidx in Hi as [x Hx].
      rewrite Hlook, Hx. by case_decide.
    + intros i x. rewrite Hlook. case_decide as Hd.
      * destruct Hd as [->| ->].
        -- rewrite Ho. simpl. by intros [= <-].
        -- rewrite Hc. simpl. by intros [= <-].
      * apply Hobjs.
    + intros k a t' x. rewrite Hag. apply trade_agents_positive; [done|].
      intros k' a' t'' x'. apply Hpf.
  - intros e He. apply (resting_books s s' e Hbooks) in He. by apply Hnr.
  - exists (settle q p now o). split_and!; try done.
    + rewrite Hlook. rewrite decide_True by by left. by rewrite Ho.
    + by eapply same_terms_trans.
Qed.

Lemma py_min_spec (a b : Q) :
  (0 < a)%Q → (0 < b)%Q →
  (0 < py_min a b)%Q ∧ (py_min a b <= a)%Q ∧ (py_min a b <= b)%Q
  ∧ (py_min a b = a ∨ py_min a b = b).
Proof.
  intros Ha Hb. unfold py_min.
  destruct (Qltb b a) eqn:E; [apply Qltb_lt in E|apply Qltb_ge in E];
    split_and!; try lra; auto.
Qed.

Lemma pending_count_le (objs objs' : list Order.t) (h : list entry) :
  (∀ x, x ∈ h → pendingb objs' x = true → pendingb objs x = true) →
  pending_count objs' h ≤ pending_count objs h.
Proof.
  unfold pending_count. induction h as [|x h IH]; intros Hh; [done|].
  assert (pending_count objs' h ≤ pending_count objs h) as IH'.
  { apply IH. intros y Hy. apply Hh. by apply list_elem_of_further. }
  unfold pending_count in IH'.
  destruct (pendingb objs' x) eqn:E'.
  - rewrite (filter_cons_True _ x) by done.
    rewrite (filter_cons_True _ x) by (apply Hh; [apply list_elem_of_here|done]).
    simpl. lia.
  - rewrite (filter_cons_False _ x) by (by rewrite E').
    destruct (pendingb objs x) eqn:E.
    + rewrite (filter_cons_True _ x) by done. simpl. lia.
    + rewrite (filter_cons_False _ x) by (by rewrite E). done.
Qed.

Lemma pending_count_lt (objs objs' : list Order.t) (h : list entry) (e : entry) :
  (∀ x, x ∈ h → pendingb objs' x = true → pendingb objs x = true) →
  e ∈ h → pendingb objs e = true → pendingb objs' e = false →
  pending_count objs' h < pending_count objs h.
Proof.
  induction h as [|x h IH]; intros Hh He Hp Hp'; [by apply elem_of_nil in He|].
  assert (pending_count objs' h ≤ pending_count objs h) as Hle.
  { apply pending_count_le. intros y Hy. apply Hh. by apply list_elem_of_further. }
  unfold pending_count in *.
  apply elem_of_cons in He as [<-|He].
  - rewrite (filter_cons_False _ e) by (by rewrite Hp').
    rewrite (filter_cons_True _ e) by done. simpl. lia.
  - assert (length (filter (λ e0, pendingb objs' e0 = true) h)
            < length (filter (λ e0, pendingb objs e0 = true) h)) as IH'.
    { apply IH; try done. intros y Hy. apply Hh. by apply list_elem_of_further. }
    destruct (pendingb objs' x) eqn:E'.
    + rewrite (filter_cons_True _ x) by done.
      rewrite (filter_cons_True _ x) by (apply Hh; [apply list_elem_of_here|done]).
      simpl. lia.
    + rewrite (filter_cons_False _ x) by (by rewrite E').
      destruct (pendingb objs x) eqn:E.
      * rewrite (filter_cons_True _ x) by done. simpl. lia.
      * rewrite (filter_cons_False _ x) by (by rewrite E). lia.
Qed.

Lemma pending_count_pos (objs : list Order.t) (h : list entry) (e : entry) :
  e ∈ h → pendingb objs e = true → 0 < pending_count objs h.
Proof.
  intros He Hp. unfold pending_count.
  assert (e ∈ filter (λ x, pendingb objs x = true) h) as Hin
    by (by apply list_elem_of_filter).
  destruct (filter _ h); [by apply elem_of_nil in Hin|simpl; lia].
Qed.

(** A state that differs from [s] only in its books, each heap of which
    has lost entries, satisfies what [s] does. *)
Lemma matching_fewer_resting (s s' : Exchange) (r : ref) (o0 : Order.t) :
  agents s' = agents s → orders s' = orders s → objects s' = objects s →
  (∀ e, resting s' e → resting s e) →
  matching s r o0 → matching s' r o0.
Proof.
  intros Hag Hord Hobj Hsub ([Hrest Hidx Hobjs Hpf] & Hnr & Ho).
  split; [|split].
  - constructor.
    + intros e He. rewrite Hobj. by apply Hrest, Hsub.
    + intros id i. rewrite Hord, Hobj. apply Hidx.
    + intros i x. rewrite Hobj. apply Hobjs.
    + intros k a t x. rewrite Hag. apply Hpf.
  - intros e He. by apply Hnr, Hsub.
  - by rewrite Hobj.
Qed.

Lemma stop_check_pure {S} (p pc : option Q) (f : Q → Q → bool) (s : S) :
  ∃ out, (if truthy p
          then cp ← as_num pc; op ← as_num p; ret (f op cp)
          else ret false) s = (s, out)
         ∧ out ≠ Stuck.
Proof.
  destruct (truthy p); [|by eexists].
  destruct pc as [cp|]; [|by eexists].
  destruct p as [op|]; by eexists.
Qed.

Lemma _match_loop_inv (fuel : nat) (r : ref) (now : Z) (o0 : Order.t) :
  ∀ (s s' : Exchange) (out : outcome unit),
    matching s r o0 → 0 < fuel →
    (∀ o, objects s !! r = Some o →
          (Order.filled_quantity o < Order.quantity o)%Q →
          liquidity s (Order.ticker o0) (Order.side o0) < fuel) →
    _match_loop fuel r now s = (s', out) →
    out ≠ Stuck ∧ matching s' r o0.
Proof.
  induction fuel as [|fuel IH]; intros s s' out Hm Hfuel Hliq; [lia|].
  cbn [_match_loop]. rewrite run_get_obj.
  pose proof Hm as (HInv & Hnr & o & Ho & Hterms & Hst). rewrite Ho.
  destruct (Qltb (Order.filled_quantity o) (Order.quantity o)) eqn:Hlt.
  2: { by intros [= <- <-]. }
  apply Qltb_lt in Hlt. specialize (Hliq o Ho Hlt).
  pose proof Hterms as (_ & _ & Htk & Hsd & _).
  change (match Order.side o with BUY => best_ask | SELL => best_bid end)
    with (best_opposite (Order.side o)).
  rewrite Htk, Hsd. rewrite run_bind.
  destruct (with_book (Order.ticker o0) (best_opposite (Order.side o0)) s)
    as [s1 o1] eqn:Hbook.
  apply with_book_best in Hbook
    as (Hns & Hag & Hco & Htr & Hord & Hph & Hobj & Hrest & Hret).
  2: { intros e He. destruct (inv_resting s HInv e He) as (x & Hx & _). by eexists. }
  assert (matching s1 r o0) as Hm1 by by eapply matching_fewer_resting.
  destruct o1 as [top| |]; [|by intros [= <- <-]|done].
  destruct (Hret top eq_refl) as [Hliq1 Htop].
  destruct top as [cr|]; [|by intros [= <- <-]].
  destruct Htop as (e & b1 & Hb1 & He & Hcr & Hpend).
  assert (resting s1 e) as Hre by by eapply resting_opp.
  pose proof Hm1 as (HInv1 & Hnr1 & _).
  destruct (inv_resting s1 HInv1 e Hre) as (c & Hc & Hcty & _).
  rewrite Hcr in Hc.
  assert (Order.status c = PENDING) as Hcst.
  { unfold pendingb in Hpend. rewrite Hcr, <-Hobj, Hc in Hpend.
    by apply bool_decide_eq_true_1 in Hpend. }
  assert (cr ≠ r) as Hne by (rewrite <-Hcr; by apply Hnr1).
  rewrite run_get_obj, Hc. rewrite run_bind.
  destruct (stop_check_pure (Order.price o) (Order.price c)
              (λ op cp, match Order.side o0 with
                        | BUY => Qltb op cp
                        | SELL => Qltb cp op
                        end) s1) as (ostop & Hstop & Hnstop).
  rewrite Hstop.
  destruct ostop as [[|]| |]; [by intros [= <- <-]| |by intros [= <- <-]|done].
  assert (Order.status o = PENDING) as Host.
  { destruct Hst as [|Hf]; [done|].
    destruct (inv_objects s HInv r o Ho) as (_ & _ & Hfi & _).
    apply Hfi in Hf. lra. }
  rewrite <-Hobj in Ho.
  pose proof (pending_remaining c (inv_objects s1 HInv1 _ _ Hc) Hcst) as Hrc.
  assert (0 < remaining o)%Q as Hro by (unfold remaining; lra).
  destruct (py_min_spec _ _ Hro Hrc) as (Hq & Hqo & Hqc & Hqcase).
  fold (remaining o). fold (remaining c).
  set (q := py_min (remaining o) (remaining c)) in *.
  rewrite run_bind.
  destruct (_execute_trade r cr q (Order.price c) now s1) as [s2 o2] eqn:Htrade.
  eapply (trade_keeps_matching r cr q _ now s1 s2 o2 o0 o c) in Htrade
    as (Hns2 & Hm2 & Hbooks2 & Hcase); try done.
  destruct o2 as [[]| |]; [|by intros [= <- <-]|done].
  destruct Hcase as [[_ Habs]|[p Hlook]]; [done|].
  assert (0 < liquidity s1 (Order.ticker o0) (Order.side o0)) as Hpos1.
  { unfold liquidity. rewrite Hb1. apply (pending_count_pos _ _ e); [done|].
    by rewrite Hobj. }
  apply IH; [done|lia|].
  intros o2 Ho2 Hlt2.
  rewrite Hlook in Ho2. rewrite decide_True in Ho2 by by left.
  rewrite Ho in Ho2. injection Ho2 as <-.
  destruct (settle_invariant q p now o (inv_objects s1 HInv1 _ _ Ho) Host Hq Hqo)
    as (_ & Htq & _ & Hfq & _).
  destruct Htq as (_ & _ & _ & _ & _ & Hqq & _). rewrite Hfq, Hqq in Hlt2.
  destruct Hqcase as [Hqa|Hqb]; [unfold remaining in Hqa; rewrite Hqa in Hlt2; lra|].
  destruct (settle_invariant q p now c (inv_objects s1 HInv1 _ _ Hc) Hcst Hq Hqc)
    as (_ & _ & _ & _ & Hfilled).
  assert (Order.status (settle q p now c) = FILLED) as Hcf.
  { apply Hfilled. rewrite Hqb. lra. }
  assert (liquidity s2 (Order.ticker o0) (Order.side o0)
          < liquidity s1 (Order.ticker o0) (Order.side o0)); [|lia].
  unfold liquidity. rewrite Hbooks2, Hb1.
  apply (pending_count_lt _ _ _ e); try done.
  - intros x Hx. unfold pendingb. rewrite Hlook.
    case_decide as Hd; [|done].
    destruct Hd as [Hd|Hd].
    + exfalso. apply (Hnr1 x); [by eapply resting_opp|done].
    + rewrite Hd, Hc. simpl. rewrite Hcf. by case_bool_decide.
  - by rewrite Hobj.
  - unfold pendingb. rewrite Hlook, Hcr. rewrite decide_True by by right.
    rewrite Hc. simpl. rewrite Hcf. by apply bool_decide_eq_false_2.
Qed.

(** Updating an order that does not rest in any book. *)
Lemma Inv_alter_object (s : Exchange) (r : ref) (f : Order.t → Order.t) (o : Order.t) :
  Inv s → (∀ e, resting s e → entry_ref e ≠ r) →
  objects s !! r = Some o → status_invariant (f o) →
  Inv (set_objects (alter f r) s).
Proof.
  intros [Hrest Hidx Hobjs Hpf] Hnr Ho Hf. constructor; simpl.
  - intros e He. rewrite list_lookup_alter_ne by (intros ->; by apply (Hnr e)).
    by apply Hrest.
  - intros id i Hi. apply Hidx in Hi as [x Hx].
    rewrite list_lookup_alter. case_decide; subst; rewrite ?Hx; by eexists.
  - intros i x. rewrite list_lookup_alter. case_decide; subst.
    + rewrite Ho. simpl. by intros [= <-].
    + apply Hobjs.
  - done.
Qed.

Lemma liquidity_bound (s : Exchange) (k : string) (side : OrderSide) (b : OrderBook.t) :
  order_books s !! k = Some b →
  liquidity s k side ≤ length (OrderBook.bids b) + length (OrderBook.asks b).
Proof.
  intros Hb. unfold liquidity, pending_count. rewrite Hb.
  etrans; [apply length_filter|]. destruct side; simpl; lia.
Qed.

Lemma _match_order_inv (r : ref) (now : Z) (o0 : Order.t) (s s' : Exchange)
    (out : outcome unit) :
  matching s r o0 → objects s !! r = Some o0 →
  Order.status o0 = PENDING → (Order.filled_quantity o0 == 0)%Q →
  _match_order r now s = (s', out) →
  out ≠ Stuck ∧ Inv s'
  ∧ (out = Returns tt →
     (∀ e, resting s' e → entry_ref e ≠ r)
     ∧ ∃ o, objects s' !! r = Some o ∧ same_terms o0 o
            ∧ (Order.status o = PENDING → (Order.filled_quantity o == 0)%Q)
            ∧ Order.status o ≠ CANCELLED).
Proof.
  intros Hm Ho0 Hst0 Hf0. unfold _match_order.
  rewrite run_get_obj, Ho0, run_get.
  destruct (order_books s !! Order.ticker o0) as [book|] eqn:Hbook.
  2: { intros [= <- <-]. destruct Hm as (HInv & Hnr & _).
       split; [done|]. split; [done|]. intros _. split; [done|].
       exists o0. split; [done|]. split; [apply same_terms_refl|].
       split; [done|]. by rewrite Hst0. }
  rewrite run_bind.
  destruct (_match_loop _ r now s) as [s1 o1] eqn:Hloop.
  apply (_match_loop_inv _ r now o0) in Hloop as (Hns & Hm1); [|done|lia|].
  2: { intros _ _ _. pose proof (liquidity_bound s _ (Order.side o0) book Hbook). lia. }
  destruct Hm1 as (HInv1 & Hnr1 & o & Ho & Hterms & Hst).
  destruct o1 as [[]| |]; [|by intros [= <- <-]|done].
  rewrite run_get_obj, Ho.
  destruct (inv_objects s1 HInv1 r o Ho) as (H0 & Hle & Hfi & Hpa & Hca).
  destruct (Qle_bool (Order.quantity o) (Order.filled_quantity o)) eqn:Hq.
  - apply Qle_bool_iff in Hq. unfold modify_obj, modify. intros [= <- <-].
    split; [done|]. split.
    + apply (Inv_alter_object s1 r _ o); try done.
      split; [done|]. split; [done|]. simpl.
      split; [split; [intros _; lra|done]|]. split; done.
    + intros _. split; [done|]. simpl. rewrite list_lookup_alter_eq, Ho. simpl.
      eexists. split; [done|]. split; [|split; done].
      by destruct Hterms as (?&?&?&?&?&?&?&?).
  - assert (Order.filled_quantity o < Order.quantity o)%Q as Hlt.
    { apply Qnot_le_lt. intros Hx. apply Qle_bool_iff in Hx. congruence. }
    assert (Order.status o = PENDING) as Hpe.
    { destruct Hst as [|Hf]; [done|]. apply Hfi in Hf. lra. }
    destruct (Qltb 0 (Order.filled_quantity o)) eqn:Hpos.
    + apply Qltb_lt in Hpos. unfold modify_obj, modify. intros [= <- <-].
      split; [done|]. split.
      * apply (Inv_alter_object s1 r _ o); try done.
        split; [done|]. split; [done|]. simpl.
        split; [split; [done|intros Hx; lra]|]. split; done.
      * intros _. split; [done|]. simpl. rewrite list_lookup_alter_eq, Ho. simpl.
        eexists. split; [done|]. split; [|split; done].
        by destruct Hterms as (?&?&?&?&?&?&?&?).
    + apply Qltb_ge in Hpos. intros [= <- <-].
      split; [done|]. split; [done|]. intros _. split; [done|].
      exists o. split; [done|]. split; [done|]. split; [intros _; lra|].
      by rewrite Hpe.
Qed.

Lemma book_cleanup_refl (s : Exchange) : book_cleanup s s.
Proof. by repeat split. Qed.

Lemma Inv_cleanup (s s' : Exchange) : book_cleanup s s' → Inv s → Inv s'.
Proof.
  intros (Hag & _ & _ & Hord & _ & Hobj & Hsub) [Hrest Hidx Hobjs Hpf].
  constructor.
  - intros e He. rewrite Hobj. by apply Hrest, Hsub.
  - intros id i. rewrite Hord, Hobj. apply Hidx.
  - intros i x. rewrite Hobj. apply Hobjs.
  - intros k a t x. rewrite Hag. apply Hpf.
Qed.

Lemma Inv_valid_refs (s : Exchange) :
  Inv s → ∀ e, resting s e → is_Some (objects s !! entry_ref e).
Proof. intros HInv e He. destruct (inv_resting s HInv e He) as (x & Hx & _). by eexists. Qed.

Lemma _get_market_price_any (t : string) (side : OrderSide) (s s' : Exchange)
    (out : outcome (option Q)) :
  Inv s → _get_market_price t side s = (s', out) →
  out ≠ Stuck ∧ book_cleanup s s'.
Proof.
  intros HInv. unfold _get_market_price. rewrite run_get.
  destruct (order_books s !! t) as [b|] eqn:Hb.
  2: { rewrite run_company_at. destruct (companies s !! t); intros [= <- <-];
       split; try done; apply book_cleanup_refl. }
  change (match side with BUY => best_ask | SELL => best_bid end)
    with (best_opposite side).
  rewrite run_bind.
  destruct (with_book t (best_opposite side) s) as [s1 o1] eqn:Hbook.
  apply with_book_best in Hbook
    as (Hns & Hag & Hco & Htr & Hord & Hph & Hobj & Hrest & Hret);
    [|by apply Inv_valid_refs].
  assert (book_cleanup s s1) as Hcl by done.
  destruct o1 as [top| |]; [|by intros [= <- <-]|done].
  destruct (Hret top eq_refl) as [_ Htop].
  destruct top as [r|].
  - destruct Htop as (e & b' & Hb' & He & Hr & _).
    assert (resting s1 e) as Hre by by eapply resting_opp.
    destruct (Inv_valid_refs s1 (Inv_cleanup _ _ Hcl HInv) e Hre) as [o Ho].
    rewrite Hr in Ho. rewrite run_get_obj, Ho. by intros [= <- <-].
  - rewrite run_company_at. destruct (companies s1 !! t); by intros [= <- <-].
Qed.

Lemma heappush_entries (objs : list Order.t) (item : entry) (h h' : list entry)
    (out : outcome unit) :
  is_Some (objs !! entry_ref item) →
  Forall (λ e, is_Some (objs !! entry_ref e)) h →
  heappush (entry_lt objs) item h = (h', out) →
  out ≠ Stuck ∧ ∀ x, x ∈ h' → x = item ∨ x ∈ h.
Proof.
  intros Hi Hh Hrun.
  apply (heappush_any _ (λ e, is_Some (objs !! entry_ref e))) in Hrun
    as (Hns & _ & Hsub & _); try done.
  intros a b. apply entry_lt_not_stuck.
Qed.

Lemma Inv_insert_book (k : string) (b b' : OrderBook.t) (item : entry) (o : Order.t)
    (s : Exchange) :
  Inv s → order_books s !! k = Some b →
  objects s !! entry_ref item = Some o →
  Order.order_type o = LIMIT → Order.status o = PENDING →
  (∀ e, e ∈ (OrderBook.bids b' ++ OrderBook.asks b')%list →
        e = item ∨ e ∈ (OrderBook.bids b ++ OrderBook.asks b)%list) →
  Inv (set_order_books <[k:=b']> s).
Proof.
  intros [Hrest Hidx Hobjs Hpf] Hb Ho Hty Hst Hsub.
  constructor; simpl; try done.
  intros e (k' & b2 & Hb2 & He). simpl in Hb2.
  destruct (decide (k = k')) as [<-|Hne].
  - rewrite lookup_insert_eq in Hb2. injection Hb2 as <-.
    apply Hsub in He as [->|He].
    + exists o. simpl. split; [done|]. split; [done|by left].
    + apply Hrest. by exists k, b.
  - rewrite lookup_insert_ne in Hb2 by done. apply Hrest. by exists k', b2.
Qed.

Lemma with_book_add (k : string) (r : ref) (s s' : Exchange) (out : outcome unit)
    (o : Order.t) :
  Inv s → objects s !! r = Some o →
  Order.order_type o = LIMIT → Order.status o = PENDING →
  with_book k (λ objs, add_order objs r) s = (s', out) →
  out ≠ Stuck ∧ Inv s'
  ∧ agents s' = agents s ∧ objects s' = objects s ∧ orders s' = orders s
  ∧ companies s' = companies s ∧ trades s' = trades s.
Proof.
  intros HInv Ho Hty Hst. unfold with_book.
  destruct (order_books s !! k) as [b|] eqn:Hb.
  2: { by intros [= <- <-]. }
  unfold add_order. rewrite Ho.
  assert (Forall (λ e, is_Some (objects s !! entry_ref e)) (OrderBook.bids b)
          ∧ Forall (λ e, is_Some (objects s !! entry_ref e)) (OrderBook.asks b))
    as [Hvb Hva].
  { split; apply Forall_forall; intros e He; apply (Inv_valid_refs s HInv);
      exists k, b; (split; [done|]); apply elem_of_app; [by left|by right]. }
  destruct (Order.side o) eqn:Hside.
  - rewrite run_as_num. destruct (Order.price o) as [p|].
    2: { intros [= <- <-]. split; [done|]. split; [|done].
         eapply (Inv_insert_book k b b (None, 0%Z, r)); try done.
         intros e He. by right. }
    unfold zoom.
    destruct (heappush (entry_lt (objects s)) (Some (- p)%Q, Order.created_at o, r)
                (OrderBook.bids b)) as [h' o'] eqn:Hrun.
    apply heappush_entries in Hrun as [Hns Hsub]; [|by eexists|done].
    intros [= <- <-]. split; [done|]. split; [|done].
    eapply (Inv_insert_book k b _ (Some (- p)%Q, Order.created_at o, r)); try done.
    intros e He. simpl in He. apply elem_of_app in He as [He|He].
    + apply Hsub in He as [->|He]; [by left|right]. apply elem_of_app. by left.
    + right. apply elem_of_app. by right.
  - unfold zoom.
    destruct (heappush (entry_lt (objects s)) (Order.price o, Order.created_at o, r)
                (OrderBook.asks b)) as [h' o'] eqn:Hrun.
    apply heappush_entries in Hrun as [Hns Hsub]; [|by eexists|done].
    intros [= <- <-]. split; [done|]. split; [|done].
    eapply (Inv_insert_book k b _ (Order.price o, Order.created_at o, r)); try done.
    intros e He. simpl in He. apply elem_of_app in He as [He|He].
    + right. apply elem_of_app. by left.
    + apply Hsub in He as [->|He]; [by left|right]. apply elem_of_app. by right.
Qed.

Lemma matching_cleanup (s s' : Exchange) (r : ref) (o0 : Order.t) :
  book_cleanup s s' → matching s r o0 → matching s' r o0.
Proof.
  intros Hcl (HInv & Hnr & Hobj). split; [by eapply Inv_cleanup|].
  destruct Hcl as (_ & _ & _ & _ & _ & Hobjs & Hsub). rewrite Hobjs.
  split; [|done]. intros e He. by apply Hnr, Hsub.
Qed.

Lemma pending_unfilled_positive (o : Order.t) :
  status_invariant o → Order.status o = PENDING →
  (Order.filled_quantity o == 0)%Q → (0 < Order.quantity o)%Q.
Proof.
  intros (_ & Hle & Hfi & _) Hst Hf.
  destruct (Qlt_le_dec 0 (Order.quantity o)) as [|Hq]; [done|].
  assert (Order.status o = FILLED) as Hx by (apply Hfi; lra). congruence.
Qed.

Lemma _execute_market_order_inv (r : ref) (now : Z) (o0 : Order.t) (s s' : Exchange)
    (out : outcome unit) :
  matching s r o0 → objects s !! r = Some o0 →
  Order.status o0 = PENDING → (Order.filled_quantity o0 == 0)%Q →
  Order.order_type o0 = MARKET →
  _execute_market_order r now s = (s', out) →
  out ≠ Stuck ∧ Inv s'.
Proof.
  intros Hm Ho0 Hst0 Hf0 Hty. unfold _execute_market_order.
  rewrite run_get_obj, Ho0, run_bind.
  destruct (_get_market_price _ _ s) as [s1 o1] eqn:Hmp.
  apply _get_market_price_any in Hmp as [Hns1 Hcl]; [|by destruct Hm].
  apply (matching_cleanup _ _ _ _ Hcl) in Hm.
  destruct Hcl as (_ & _ & _ & _ & _ & Hobjs & _).
  destruct Hm as (HInv1 & Hnr1 & _).
  destruct o1 as [mp| |]; [|by intros [= <- <-]|done].
  rewrite run_modify_obj, run_bind.
  pose proof (inv_objects _ HInv1 r o0 ltac:(by rewrite Hobjs)) as Hsi.
  pose proof (pending_unfilled_positive o0 Hsi Hst0 Hf0) as Hq.
  set (s2 := set_objects (alter (Order.set_price mp) r) s1).
  assert (Inv s2) as HInv2.
  { apply (Inv_alter_object s1 r _ o0); try done. by rewrite Hobjs. }
  assert (objects s2 !! r = Some (Order.set_price mp o0)) as Ho2.
  { simpl. by rewrite list_lookup_alter_eq, Hobjs, Ho0. }
  destruct (_match_order r now s2) as [s3 o3] eqn:Hmo.
  apply (_match_order_inv r now (Order.set_price mp o0)) in Hmo
    as (Hns3 & HInv3 & Hret); try done.
  2: { split; [done|]. split; [done|]. eexists. split; [done|].
       split; [apply same_terms_refl|by left]. }
  destruct o3 as [[]| |]; [|by intros [= <- <-]|done].
  destruct (Hret eq_refl) as (Hnr3 & o & Ho & Hterms & Hpe & Hnc).
  rewrite run_get_obj, Ho.
  case_bool_decide as Hst.
  - unfold modify_obj, modify. intros [= <- <-]. split; [done|].
    apply (Inv_alter_object s3 r _ o); try done.
    destruct (inv_objects _ HInv3 r o Ho) as (H0 & Hle & Hfi & Hpa & Hca).
    destruct Hterms as (_ & _ & _ & _ & Hty' & Hq' & _). simpl in Hty', Hq'.
    specialize (Hpe Hst). rewrite <- Hq' in Hq.
    split; [done|]. split; [done|]. simpl.
    split; [split; [done|intros Hx; lra]|]. split; [done|].
    intros _. split; [congruence|done].
  - by intros [= <- <-].
Qed.

Lemma fresh_status_invariant (o : Order.t) :
  Order.fresh o → (0 < Order.quantity o)%Q → status_invariant o.
Proof.
  intros (Hst & Hf & _) Hq. unfold status_invariant. rewrite Hst, Hf.
  split; [lra|]. split; [lra|]. split; [split; [done|intros Hx; lra]|].
  split; done.
Qed.

Lemma allocate_matching (order : Order.t) (s : Exchange) :
  Inv s → Order.fresh order → (0 < Order.quantity order)%Q →
  matching (set_orders <[Order.id order:=length (objects s)]>
              (set_objects (λ l, l ++ [order])%list s))
           (length (objects s)) order.
Proof.
  intros [Hrest Hidx Hobjs Hpf] Hfr Hq.
  assert ((objects s ++ [order])%list !! length (objects s) = Some order) as Hnew.
  { rewrite lookup_app_r by lia. by rewrite Nat.sub_diag. }
  split; [constructor; simpl|split].
  - intros e He. destruct (Hrest e He) as (o & Ho & Hx). exists o.
    split; [|done]. by apply lookup_app_l_Some.
  - intros id r. destruct (decide (Order.id order = id)) as [<-|Hne].
    + rewrite lookup_insert_eq. intros [= <-]. by eexists.
    + rewrite lookup_insert_ne by done. intros Hr.
      destruct (Hidx _ _ Hr) as [x Hx]. exists x. by apply lookup_app_l_Some.
  - intros r o Ho. apply lookup_app_Some in Ho as [Ho|[_ Ho]]; [by eapply Hobjs|].
    apply list_lookup_singleton_Some in Ho as [_ <-].
    by apply fresh_status_invariant.
  - done.
  - intros e He. destruct (Hrest e He) as (o & Ho & _).
    apply lookup_lt_Some in Ho. lia.
  - simpl. exists order. split; [done|]. split; [apply same_terms_refl|].
    left. apply Hfr.
Qed.

Lemma submit_order_inv (order : Order.t) (now : Z) (s s' : Exchange)
    (out : outcome (option ref)) :
  Inv s → Order.fresh order → (0 < Order.quantity order)%Q →
  submit_order order now s = (s', out) →
  out ≠ Stuck ∧ Inv s' ∧ (out = Returns None → book_cleanup s s').
Proof.
  intros HInv Hfr Hq. unfold submit_order. rewrite run_get.
  destruct (agents s !! Order.agent_id order) as [agent|] eqn:Hag.
  2: { intros [= <- <-]. split; [done|]. split; [done|]. intros _.
       apply book_cleanup_refl. }
  destruct (negb _) eqn:Hco.
  { intros [= <- <-]. split; [done|]. split; [done|]. intros _.
    apply book_cleanup_refl. }
  rewrite run_bind.
  match goal with |- context [match ?c s with _ => _ end] =>
    destruct (c s) as [s1 oa] eqn:Hadm end.
  assert (oa ≠ Stuck ∧ book_cleanup s s1) as [Hns Hcl].
  { destruct (Order.side order).
    - destruct (truthy (Order.price order)).
      + rewrite run_ret', run_as_num in Hadm.
        destruct (Order.price order); injection Hadm as <- <-;
          (split; [done|apply book_cleanup_refl]).
      + rewrite run_bind in Hadm.
        destruct (_get_market_price _ BUY s) as [s0 o0] eqn:Hmp.
        apply _get_market_price_any in Hmp as [Hns0 Hcl0]; [|done].
        destruct o0 as [up| |]; [|by injection Hadm as <- <-|done].
        rewrite run_as_num in Hadm.
        destruct up; by injection Hadm as <- <-.
    - injection Hadm as <- <-. split; [done|apply book_cleanup_refl]. }
  destruct oa as [[]| |]; [| |by intros [= <- <-]; split; [done|]; split;
                                  [by eapply Inv_cleanup|done]|done].
  2: { intros [= <- <-]. split; [done|]. split; [by eapply Inv_cleanup|done]. }
  rewrite run_get, run_modify, run_modify, run_bind.
  pose proof (allocate_matching order s1 (Inv_cleanup _ _ Hcl HInv) Hfr Hq) as Hm.
  set (r := length (objects s1)) in *.
  set (s2 := set_orders _ _) in *.
  assert (objects s2 !! r = Some order) as Ho2.
  { simpl. rewrite lookup_app_r by (unfold r; lia). unfold r.
    by rewrite Nat.sub_diag. }
  assert (∀ (c : M Exchange unit),
            (∀ s3 o3, c s2 = (s3, o3) → o3 ≠ Stuck ∧ Inv s3) →
            match c s2 with
            | (s3, Returns _) => (ret (Some r) : M Exchange (option ref)) s3
            | (s3, Raises e) => (s3, Raises e)
            | (s3, Stuck) => (s3, Stuck)
            end = (s', out) →
            out ≠ Stuck ∧ Inv s' ∧ (out = Returns None → book_cleanup s s'))
    as Hfin.
  { intros c Hc. destruct (c s2) as [s3 o3] eqn:Hrun.
    destruct (Hc _ _ eq_refl) as [Hns3 HInv3].
    destruct o3 as [[]| |]; [| |done]; intros [= <- <-]; by split_and!. }
  destruct Hfr as (Hst & Hf & _).
  destruct (Order.order_type order) eqn:Hty; apply Hfin; intros s3 o3.
  - apply (_execute_market_order_inv r now order); try done. by rewrite Hf.
  - rewrite run_bind.
    destruct (_match_order r now s2) as [s4 o4] eqn:Hmo.
    apply (_match_order_inv r now order) in Hmo as (Hns4 & HInv4 & Hret);
      try done; [|by rewrite Hf].
    destruct o4 as [[]| |]; [|by intros [= <- <-]|done].
    destruct (Hret eq_refl) as (Hnr4 & o & Ho & Hterms & Hpe & Hnc).
    rewrite run_get_obj, Ho.
    destruct (bool_decide (Order.status o = PENDING)) eqn:Hst4.
    + apply bool_decide_eq_true in Hst4. intros Hadd.
      apply (with_book_add _ r s4 s3 o3 o) in Hadd as (? & ? & _); try done.
      destruct Hterms as (_ & _ & _ & _ & Hty' & _). congruence.
    + by intros [= <- <-].
Qed.

Lemma Inv_frame (s s' : Exchange) :
  objects s' = objects s → orders s' = orders s →
  (∀ e, resting s' e → resting s e) →
  portfolios_positive s' → Inv s → Inv s'.
Proof.
  intros Hobj Hord Hsub Hpf' [Hrest Hidx Hobjs Hpf]. constructor; [| | |done].
  - intros e He. rewrite Hobj. by apply Hrest, Hsub.
  - intros id r. rewrite Hord, Hobj. apply Hidx.
  - intros r o. rewrite Hobj. apply Hobjs.
Qed.

Lemma portfolios_positive_fmap (f : Agent.t → Agent.t) (s : Exchange) :
  (∀ a, Agent.portfolio (f a) ⊆ Agent.portfolio a) →
  portfolios_positive s → portfolios_positive (set_agents (fmap f) s).
Proof.
  intros Hf Hpf k a t q. simpl. rewrite lookup_fmap.
  destruct (agents s !! k) as [a0|] eqn:Ha; [|done]. simpl. intros [= <-] Hq.
  apply (Hpf k a0 t q Ha). by eapply lookup_weaken, Hf.
Qed.

Lemma portfolios_positive_alter (f : Agent.t → Agent.t) (k : string) (s : Exchange) :
  (∀ a, Agent.portfolio (f a) ⊆ Agent.portfolio a) →
  portfolios_positive s → portfolios_positive (set_agents (alter f k) s).
Proof.
  intros Hf Hpf k' a t q. simpl. rewrite lookup_alter.
  case_decide as Hk; [subst k'|by apply Hpf].
  destruct (agents s !! k) as [a0|] eqn:Ha; [|done]. simpl. intros [= <-] Hq.
  apply (Hpf k a0 t q Ha). by eapply lookup_weaken, Hf.
Qed.

Lemma Inv_init : Inv Exchange_init.
Proof.
  constructor.
  - intros e (k & b & Hb & _). simpl in Hb. by rewrite lookup_empty in Hb.
  - intros id r Hr. simpl in Hr. by rewrite lookup_empty in Hr.
  - intros r o Ho. simpl in Ho. by rewrite lookup_nil in Ho.
  - intros k a t q Ha. simpl in Ha. by rewrite lookup_empty in Ha.
Qed.

Lemma register_agent_inv (agent_id name : string) (b : Q) (now : Z) (s s' : Exchange)
    (out : outcome Agent.t) :
  Inv s → register_agent agent_id name b now s = (s', out) →
  out ≠ Stuck ∧ Inv s'.
Proof.
  intros HInv. unfold register_agent. rewrite run_get.
  destruct (agents s !! agent_id) eqn:Ha; intros [= <- <-]; [done|].
  split; [done|]. apply (Inv_frame s); try done.
  intros k a t q. simpl. destruct (decide (agent_id = k)) as [<-|Hne].
  - rewrite lookup_insert_eq. by intros [= <-].
  - rewrite lookup_insert_ne by done. apply (inv_portfolios s HInv).
Qed.

Lemma daily_income_inv (s : Exchange) : Inv s → Inv (daily_income s).1.
Proof.
  intros HInv. apply (Inv_frame s); try done.
  apply portfolios_positive_fmap; [done|apply HInv].
Qed.

Lemma create_company_inv (founder_id ticker name description service_type : string)
    (service_cost : Q) (now : Z) (s s' : Exchange) (out : outcome (option Company.t)) :
  Inv s →
  create_company founder_id ticker name description service_type service_cost now s
  = (s', out) →
  out ≠ Stuck ∧ Inv s'.
Proof.
  intros HInv. unfold create_company. rewrite run_get.
  destruct (agents s !! founder_id) as [founder|] eqn:Hf; [|by intros [= <- <-]].
  destruct (Qltb _ _); [by intros [= <- <-]|].
  destruct (bool_decide _); [by intros [= <- <-]|].
  intros [= <- <-]. split; [done|]. apply (Inv_frame s); try done.
  - intros e (k & b & Hb & He). simpl in Hb.
    destruct (decide (upper ticker = k)) as [<-|Hne].
    + rewrite lookup_insert_eq in Hb. injection Hb as <-. simpl in He.
      by apply elem_of_nil in He.
    + rewrite lookup_insert_ne in Hb by done. by exists k, b.
  - intros k a t q. simpl. rewrite !lookup_alter.
    case_decide as Hk; [subst k|apply (inv_portfolios s HInv)].
    rewrite Hf. simpl. rewrite decide_True by done. simpl. intros [= <-]. simpl.
    destruct (decide (upper ticker = t)) as [<-|Hne].
    + rewrite lookup_insert_eq. intros [= <-]. done.
    + rewrite lookup_insert_ne by done. by apply (inv_portfolios s HInv founder_id).
Qed.

Lemma ipo_inv (ticker : string) (shares price : Q) (oid : string) (now : Z)
    (s s' : Exchange) (out : outcome bool) :
  Inv s → (0 < shares)%Q →
  ipo ticker shares price oid now s = (s', out) →
  out ≠ Stuck ∧ Inv s'.
Proof.
  intros HInv Hsh. unfold ipo. rewrite run_get.
  destruct (companies s !! upper ticker) as [company|]; [|by intros [= <- <-]].
  destruct (negb _); [by intros [= <- <-]|].
  destruct (agents s !! Company.founder_id company) as [founder|];
    [|by intros [= <- <-]].
  destruct (Qltb _ _); [by intros [= <- <-]|].
  rewrite run_modify, run_bind.
  match goal with |- context [submit_order ?o now ?s0] =>
    destruct (submit_order o now s0) as [s1 o1] eqn:Hsub end.
  apply submit_order_inv in Hsub as (Hns & HInv1 & _);
    [|apply (Inv_frame s); try done; apply (inv_portfolios s HInv)
     |by repeat split|done].
  destruct o1 as [r| |]; [|by intros [= <- <-]|done].
  intros [= <- <-]. split; [done|].
  apply (Inv_frame s1); try done. apply (inv_portfolios s1 HInv1).
Qed.

Lemma run_on_exchange {A B} (c : M Exchange A) (k : A → M AIVerse B) (w : AIVerse) :
  (on_exchange c ≫= k) w
  = match c (exchange w) with
    | (x, Returns a) => k a (set_exchange x w)
    | (x, Raises e) => (set_exchange x w, Raises e)
    | (x, Stuck) => (set_exchange x w, Stuck)
    end.
Proof.
  unfold on_exchange, zoom. unfold_monad.
  by destruct (c (exchange w)) as [x [a|e|]].
Qed.

Lemma on_exchange_inv {A} (c : M Exchange A) (w w' : AIVerse) (out : outcome A) :
  (∀ s' o, c (exchange w) = (s', o) → o ≠ Stuck ∧ Inv s') →
  on_exchange c w = (w', out) → out ≠ Stuck ∧ Inv (exchange w').
Proof.
  intros Hc. unfold on_exchange, zoom.
  destruct (c (exchange w)) as [x o] eqn:Hrun. intros [= <- <-].
  by apply Hc.
Qed.

Lemma join_inv (agent_id name : string) (now : Z) (w w' : AIVerse)
    (out : outcome Agent.t) :
  Inv (exchange w) → join agent_id name now w = (w', out) →
  out ≠ Stuck ∧ Inv (exchange w').
Proof.
  intros HInv. unfold join. rewrite run_get, run_on_exchange.
  destruct (register_agent _ _ _ _ _) as [x o] eqn:Hrun.
  apply register_agent_inv in Hrun as [Hns HInv']; [|done].
  destruct o; [|by intros [= <- <-]|done]. by intros [= <- <-].
Qed.

Lemma use_service_inv (agent_id ticker : string) (now : Z) (w w' : AIVerse)
    (out : outcome (bool * ServiceMessage)) :
  Inv (exchange w) → use_service agent_id ticker now w = (w', out) →
  out ≠ Stuck ∧ Inv (exchange w').
Proof.
  intros HInv. unfold use_service. rewrite run_on_exchange. unfold get_agent, gets.
  assert (set_exchange (exchange w) w = w) as -> by by destruct w.
  rewrite run_get.
  destruct (agents (exchange w) !! agent_id) as [a|]; [|by intros [= <- <-]].
  destruct (companies (exchange w) !! upper ticker) as [c|]; [|by intros [= <- <-]].
  destruct (bool_decide _); [by intros [= <- <-]|].
  destruct (Qltb _ _); [by intros [= <- <-]|].
  intros [= <- <-]. split; [done|]. simpl.
  apply (Inv_frame (exchange w)); try done.
  apply portfolios_positive_alter; [done|apply (inv_portfolios _ HInv)].
Qed.

Lemma world_create_company_inv
    (founder_id ticker name description service_type : string) (service_cost : Q)
    (now : Z) (w w' : AIVerse) (out : outcome (option Company.t)) :
  Inv (exchange w) →
  world_create_company founder_id ticker name description service_type service_cost
    now w = (w', out) →
  out ≠ Stuck ∧ Inv (exchange w').
Proof.
  intros HInv. unfold world_create_company. rewrite run_on_exchange.
  destruct (create_company _ _ _ _ _ _ _ _) as [x o] eqn:Hrun.
  apply create_company_inv in Hrun as [Hns HInv']; [|done].
  destruct o as [[c|]| |]; [| |by intros [= <- <-]|done]; by intros [= <- <-].
Qed.

Lemma launch_ipo_inv (ticker : string) (shares price : Q) (oid : string) (now : Z)
    (w w' : AIVerse) (out : outcome bool) :
  Inv (exchange w) → (0 < shares)%Q →
  launch_ipo ticker shares price oid now w = (w', out) →
  out ≠ Stuck ∧ Inv (exchange w').
Proof.
  intros HInv Hsh. unfold launch_ipo. rewrite run_on_exchange.
  destruct (ipo _ _ _ _ _ _) as [x o] eqn:Hrun.
  apply ipo_inv in Hrun as [Hns HInv']; [|done|done].
  destruct o as [[]| |]; [| |by intros [= <- <-]|done]; [|by intros [= <- <-]].
  rewrite run_get. simpl.
  destruct (companies x !! upper ticker); by intros [= <- <-].
Qed.

Lemma for_each_inv {S A} (I : S → Prop) (body : A → M S unit) (l : list A) :
  (∀ x s s' o, x ∈ l → I s → body x s = (s', o) → o ≠ Stuck ∧ I s') →
  ∀ s s' o, I s → for_each l body s = (s', o) → o ≠ Stuck ∧ I s'.
Proof.
  induction l as [|x l IH]; intros Hbody s s' o HI; simpl.
  { by intros [= <- <-]. }
  rewrite run_bind. destruct (body x s) as [s1 o1] eqn:Hx.
  apply Hbody in Hx as [Hns HI1]; [|by left|done].
  destruct o1 as [[]| |]; [|by intros [= <- <-]|done].
  apply IH; [|done]. intros y t t' o' Hy. apply Hbody. by right.
Qed.

Lemma _distribute_dividends_inv (company : Company.t) (now : Z) (w w' : AIVerse)
    (out : outcome unit) :
  Inv (exchange w) → _distribute_dividends company now w = (w', out) →
  out ≠ Stuck ∧ Inv (exchange w') ∧ companies (exchange w') = companies (exchange w).
Proof.
  intros HInv. unfold _distribute_dividends. rewrite run_get.
  destruct (bool_decide _); [by intros [= <- <-]|].
  intros [= <- <-]. split; [done|]. split; [|done]. simpl.
  apply (Inv_frame (exchange w)); try done.
  apply portfolios_positive_fmap; [|apply (inv_portfolios _ HInv)].
  intros a. by destruct (Qltb _ _).
Qed.

Lemma _bankrupt_inv (k : string) (company : Company.t) (now : Z) (w w' : AIVerse)
    (out : outcome unit) :
  Inv (exchange w) → _bankrupt k company now w = (w', out) →
  out ≠ Stuck ∧ Inv (exchange w')
  ∧ dom (companies (exchange w')) = dom (companies (exchange w)).
Proof.
  intros HInv. unfold _bankrupt. intros [= <- <-]. split; [done|]. simpl. split.
  - apply (Inv_frame (exchange w)); try done.
    apply (portfolios_positive_fmap _ (set_companies _ (exchange w))).
    + intros a. apply delete_subseteq.
    + apply (inv_portfolios _ HInv).
  - apply dom_alter_L.
Qed.

Lemma _daily_cycle_body_inv (k : string) (now : Z) (w w' : AIVerse)
    (out : outcome unit) :
  Inv (exchange w) → is_Some (companies (exchange w) !! k) →
  _daily_cycle_body k now w = (w', out) →
  out ≠ Stuck ∧ Inv (exchange w')
  ∧ dom (companies (exchange w')) = dom (companies (exchange w)).
Proof.
  intros HInv [company Hc]. unfold _daily_cycle_body. rewrite run_get, Hc, run_bind.
  match goal with |- context [match ?c w with _ => _ end] =>
    destruct (c w) as [w1 o1] eqn:Hdiv end.
  assert (o1 ≠ Stuck ∧ Inv (exchange w1)
          ∧ dom (companies (exchange w1)) = dom (companies (exchange w)))
    as (Hns1 & HInv1 & Hdom1).
  { destruct (_ && _).
    - rewrite run_bind in Hdiv.
      destruct (_distribute_dividends company now w) as [w0 o0] eqn:Hdd.
      apply _distribute_dividends_inv in Hdd as (Hns0 & HInv0 & Hco0); [|done].
      destruct o0 as [[]| |]; [|injection Hdiv as <- <-; by rewrite Hco0|done].
      injection Hdiv as <- <-. split; [done|]. simpl. split.
      + apply (Inv_frame (exchange w0)); try done. apply (inv_portfolios _ HInv0).
      + rewrite dom_alter_L. by rewrite Hco0.
    - by injection Hdiv as <- <-. }
  destruct o1 as [[]| |]; [|by intros [= <- <-]|done].
  destruct (bool_decide (Company.status company = PUBLIC));
    [|by intros [= <- <-]].
  destruct (bool_decide (Company.total_api_calls company = 0)%Z && _);
    [|by intros [= <- <-]].
  intros Hb. apply _bankrupt_inv in Hb as (? & ? & Hdom); [|done].
  split; [done|]. split; [done|]. by rewrite Hdom.
Qed.

Lemma _daily_cycle_inv (now : Z) (w w' : AIVerse) (out : outcome unit) :
  Inv (exchange w) → _daily_cycle now w = (w', out) →
  out ≠ Stuck ∧ Inv (exchange w').
Proof.
  intros HInv. unfold _daily_cycle. rewrite run_on_exchange.
  destruct (daily_income (exchange w)) as [x o] eqn:Hdi.
  pose proof (daily_income_inv _ HInv) as HInv1. rewrite Hdi in HInv1.
  assert (o = Returns tt ∧ companies x = companies (exchange w)) as [-> Hco].
  { unfold daily_income, modify in Hdi. by injection Hdi as <- <-. }
  rewrite run_get. simpl.
  set (w1 := set_exchange x w).
  set (keys := (map_to_list (companies x)).*1).
  intros Hloop.
  refine (proj1 (proj1 (and_assoc _ _ _) (for_each_inv
    (λ w0, Inv (exchange w0) ∧ dom (companies (exchange w0)) = dom (companies x))
    _ _ _ w1 w' out (conj HInv1 eq_refl) Hloop))).
  intros k w0 w0' o0 Hk [HI Hdom] Hbody.
  apply _daily_cycle_body_inv in Hbody as (? & ? & Hdom'); [| done |].
  - split; [done|]. split; [done|]. by rewrite Hdom'.
  - apply elem_of_dom. rewrite Hdom. apply elem_of_dom.
    apply list_elem_of_fmap in Hk as ([k' c] & -> & Hkc).
    apply elem_of_map_to_list in Hkc. by eexists.
Qed.

Lemma tick_inv (now : Z) (w w' : AIVerse) (out : outcome unit) :
  Inv (exchange w) → tick now w = (w', out) → out ≠ Stuck ∧ Inv (exchange w').
Proof.
  intros HInv. unfold tick. rewrite run_modify, run_get.
  destruct (bool_decide _); [|by intros [= <- <-]].
  by apply _daily_cycle_inv.
Qed.

Lemma same_orders_refl (l : list Order.t) : same_orders l l.
Proof. split; [done|]. intros i o Ho. exists o. split; [done|apply same_terms_refl]. Qed.

Lemma same_orders_trans (l1 l2 l3 : list Order.t) :
  same_orders l1 l2 → same_orders l2 l3 → same_orders l1 l3.
Proof.
  intros [Hl1 H1] [Hl2 H2]. split; [congruence|]. intros i o Ho.
  destruct (H1 i o Ho) as (o2 & Ho2 & Ht2).
  destruct (H2 i o2 Ho2) as (o3 & Ho3 & Ht3).
  exists o3. split; [done|]. by eapply same_terms_trans.
Qed.

Lemma same_orders_alter (f : Order.t → Order.t) (r : ref) (l l1 : list Order.t) :
  (∀ o, same_terms o (f o)) → same_orders l l1 → same_orders l (alter f r l1).
Proof.
  intros Hf Hl. apply (same_orders_trans _ l1); [done|].
  split; [by rewrite length_alter|]. intros i o Ho.
  rewrite list_lookup_alter. case_decide; subst; rewrite Ho; simpl.
  - eexists. split; [done|apply Hf].
  - eexists. split; [done|apply same_terms_refl].
Qed.

Lemma same_orders_when (b : bool) (f : Order.t → Order.t) (r : ref)
    (l l1 : list Order.t) :
  (∀ o, same_terms o (f o)) → same_orders l l1 →
  same_orders l (if b then alter f r l1 else l1).
Proof. intros Hf Hl. destruct b; [by apply same_orders_alter|done]. Qed.

Lemma grows_refl (s : Exchange) : grows s s.
Proof. split_and!; try done. apply same_orders_refl. Qed.

Lemma grows_trans (s1 s2 s3 : Exchange) : grows s1 s2 → grows s2 s3 → grows s1 s3.
Proof.
  intros (?&?&?&?&?&?) (?&?&?&?&?&?). split_and!; try congruence.
  - by eapply same_orders_trans.
  - by etrans.
Qed.

Lemma book_cleanup_grows (k : string) (side : OrderSide) (s s' : Exchange)
    (out : outcome (option ref)) :
  with_book k (best_opposite side) s = (s', out) → grows s s'.
Proof.
  unfold with_book. destruct (order_books s !! k) as [b|] eqn:Hb.
  2: { intros [= <- <-]. apply grows_refl. }
  destruct (best_opposite side (objects s) b) as [b' o]. intros [= <- <-].
  split_and!; simpl; try done; [|apply same_orders_refl].
  apply dom_insert_lookup_L. by eexists.
Qed.

Ltac keeps_terms := intros ?; repeat split.

Lemma _execute_trade_grows (r1 r2 : ref) (q : Q) (price : option Q) (now : Z)
    (s s' : Exchange) (out : outcome unit) :
  _execute_trade r1 r2 q price now s = (s', out) →
  grows s s'
  ∧ (trades s' = trades s
     ∨ ∃ t, trades s' = (trades s ++ [t])%list ∧ logged r1 r2 q price s t).
Proof.
  unfold _execute_trade. rewrite run_get_obj.
  destruct (objects s !! r1) as [o1|] eqn:Ho1;
    [|intros [= <- <-]; split; [apply grows_refl|by left]].
  set (br := if bool_decide (Order.side o1 = BUY) then r1 else r2).
  set (sr := if bool_decide (Order.side o1 = BUY) then r2 else r1).
  rewrite run_get_obj.
  destruct (objects s !! br) as [bo|] eqn:Hbo;
    [|intros [= <- <-]; split; [apply grows_refl|by left]].
  rewrite run_get_obj.
  destruct (objects s !! sr) as [so|] eqn:Hso;
    [|intros [= <- <-]; split; [apply grows_refl|by left]].
  rewrite run_agent_at.
  destruct (agents s !! Order.agent_id bo) as [buyer|] eqn:Hbuyer;
    [|intros [= <- <-]; split; [apply grows_refl|by left]].
  rewrite run_agent_at.
  destruct (agents s !! Order.agent_id so) as [seller|] eqn:Hseller;
    [|intros [= <- <-]; split; [apply grows_refl|by left]].
  rewrite run_as_num.
  destruct price as [p|]; [|intros [= <- <-]; split; [apply grows_refl|by left]].
  rewrite !run_modify, !run_modify_obj, run_get_obj.
  assert (∀ l, same_orders (objects s) l →
            same_orders (objects s)
              (alter (Order.set_filled_price p) sr
                 (alter (Order.set_filled_price p) br
                    (alter (Order.set_filled_quantity (λ f, f + q)%Q) sr
                       (alter (Order.set_filled_quantity (λ f, f + q)%Q) br l)))))
    as Hfour.
  { intros l Hl. repeat (apply same_orders_alter; [keeps_terms|]). done. }
  match goal with |- context [match ?x !! br with _ => _ end] =>
    destruct (x !! br) as [bo'|] eqn:Hbo' end.
  2: { intros [= <- <-]. split; [|by left]. split_and!; simpl; try done.
       - by rewrite !dom_alter_L.
       - apply Hfour, same_orders_refl. }
  rewrite run_when_modify_obj, run_get_obj.
  match goal with |- context [match ?x !! sr with _ => _ end] =>
    destruct (x !! sr) as [so'|] eqn:Hso' end.
  2: { intros [= <- <-]. split; [|by left]. split_and!; simpl; try done.
       - by rewrite !dom_alter_L.
       - apply same_orders_when; [keeps_terms|]. apply Hfour, same_orders_refl. }
  rewrite run_when_modify_obj, !run_modify, run_company_at.
  assert (logged r1 r2 q (Some p) s
            (Trade.mk (Order.ticker o1) (Agent.id buyer) (Agent.id seller) q p now
                      (Order.id bo) (Order.id so))) as Hlog.
  { exists o1, bo, so, p. by split_and!. }
  match goal with |- context [match ?x !! Order.ticker o1 with _ => _ end] =>
    destruct (x !! Order.ticker o1) as [c|] eqn:Hc end.
  - rewrite run_modify. unfold modify. intros [= <- <-]. split.
    + split_and!; simpl; try done.
      * by rewrite !dom_alter_L.
      * by rewrite dom_alter_L.
      * repeat (apply same_orders_when; [keeps_terms|]).
        apply Hfour, same_orders_refl.
      * by apply prefix_app_r.
    + right. eexists. split; [|exact Hlog]. done.
  - intros [= <- <-]. split.
    + split_and!; simpl; try done.
      * by rewrite !dom_alter_L.
      * repeat (apply same_orders_when; [keeps_terms|]).
        apply Hfour, same_orders_refl.
      * by apply prefix_app_r.
    + right. eexists. split; [|exact Hlog]. done.
Qed.

Lemma with_book_objects {A} (k : string) (c : list Order.t → M OrderBook.t A)
    (s s' : Exchange) (out : outcome A) :
  with_book k c s = (s', out) → objects s' = objects s.
Proof.
  unfold with_book. destruct (order_books s !! k); [|by intros [= <- <-]].
  destruct (c (objects s) _). by intros [= <- <-].
Qed.

Section match_loop_rel.
Context (R : Exchange → Exchange → Prop) (r : ref) (now : Z).
Hypothesis R_refl : ∀ s, R s s.
Hypothesis R_trans : ∀ s1 s2 s3, R s1 s2 → R s2 s3 → R s1 s3.
Hypothesis R_lookup : ∀ k side s s1 o,
  with_book k (best_opposite side) s = (s1, o) → R s s1.
Hypothesis R_trade : ∀ s order c cr s2 o2,
  objects s !! r = Some order → objects s !! cr = Some c → crosses order c →
  _execute_trade r cr (py_min (remaining order) (remaining c)) (Order.price c) now s
  = (s2, o2) →
  R s s2.

Lemma _match_loop_rel (fuel : nat) :
  ∀ s s' out, _match_loop fuel r now s = (s', out) → R s s'.
Proof.
  induction fuel as [|fuel IH]; intros s s' out.
  { intros [= <- <-]. apply R_refl. }
  cbn [_match_loop]. rewrite run_get_obj.
  destruct (objects s !! r) as [order|] eqn:Ho; [|by intros [= <- <-]].
  destruct (Qltb _ _); [|by intros [= <- <-]].
  change (match Order.side order with BUY => best_ask | SELL => best_bid end)
    with (best_opposite (Order.side order)).
  rewrite run_bind.
  destruct (with_book (Order.ticker order) (best_opposite (Order.side order)) s)
    as [s1 o1] eqn:Hbook.
  pose proof (with_book_objects _ _ _ _ _ Hbook) as Hobj.
  apply R_lookup in Hbook.
  destruct o1 as [[cr|]| |]; try by intros [= <- <-].
  rewrite run_get_obj.
  destruct (objects s1 !! cr) as [c|] eqn:Hc; [|by intros [= <- <-]].
  rewrite run_bind.
  assert (∃ ostop,
    (if truthy (Order.price order)
     then cp ← as_num (Order.price c); op ← as_num (Order.price order);
          ret (match Order.side order with
               | BUY => Qltb op cp
               | SELL => Qltb cp op
               end)
     else ret false) s1 = (s1, ostop)
    ∧ (ostop = Returns false → crosses order c)) as (ostop & -> & Hcross).
  { unfold crosses. destruct (truthy (Order.price order)).
    - destruct (Order.price c) as [cp|]; [|by eexists].
      destruct (Order.price order) as [op|]; [|by eexists].
      eexists. split; [done|]. intros [= Hcmp] _. exists op, cp.
      split; [done|]. split; [done|].
      destruct (Order.side order); by apply Qltb_ge in Hcmp.
    - eexists. split; [done|]. done. }
  destruct ostop as [[|]| |]; try by intros [= <- <-].
  rewrite run_bind.
  destruct (_execute_trade r cr _ (Order.price c) now s1) as [s2 o2] eqn:Htrade.
  apply (R_trade s1 order c) in Htrade; [|by rewrite Hobj|done|by apply Hcross].
  destruct o2 as [[]| |]; try (intros [= <- <-]; by eapply R_trans).
  intros Hrest. apply IH in Hrest. eapply R_trans; [done|]. by eapply R_trans.
Qed.
End match_loop_rel.

Lemma _match_loop_grows (fuel : nat) (r : ref) (now : Z) (s s' : Exchange)
    (out : outcome unit) :
  _match_loop fuel r now s = (s', out) → grows s s'.
Proof.
  apply (_match_loop_rel grows r now grows_refl grows_trans).
  - intros k side s0 s1 o. apply book_cleanup_grows.
  - intros s0 order c cr s2 o2 _ _ _ Htrade.
    by apply _execute_trade_grows in Htrade as [? _].
Qed.

Lemma fill_of_same_terms (o o' : Order.t) (t : Trade.t) :
  same_terms o o' → fill_of o' t → fill_of o t.
Proof.
  intros (Hid & _ & Htk & Hsd & _ & _ & Hpr & _). unfold fill_of.
  by rewrite Hid, Htk, Hsd, Hpr.
Qed.

Lemma fills_refl (r : ref) (s : Exchange) : fills r s s.
Proof.
  intros o Ho. exists o, []. split; [done|]. split; [apply same_terms_refl|].
  split; [by rewrite app_nil_r|done].
Qed.

Lemma fills_trans (r : ref) (s1 s2 s3 : Exchange) :
  fills r s1 s2 → fills r s2 s3 → fills r s1 s3.
Proof.
  intros H12 H23 o Ho.
  destruct (H12 o Ho) as (o2 & new2 & Ho2 & Ht2 & Htr2 & Hf2).
  destruct (H23 o2 Ho2) as (o3 & new3 & Ho3 & Ht3 & Htr3 & Hf3).
  exists o3, (new2 ++ new3)%list. split; [done|].
  split; [by eapply same_terms_trans|]. split.
  - by rewrite Htr3, Htr2, app_assoc.
  - apply Forall_app. split; [done|].
    eapply Forall_impl; [done|]. intros t. by apply fill_of_same_terms.
Qed.

Lemma fills_unlogged (r : ref) (s s' : Exchange) :
  grows s s' → trades s' = trades s → fills r s s'.
Proof.
  intros (_ & _ & _ & _ & [_ Hobj] & _) Htr o Ho.
  destruct (Hobj r o Ho) as (o' & Ho' & Ht). exists o', [].
  split; [done|]. split; [done|]. split; [by rewrite app_nil_r|done].
Qed.

Lemma _match_loop_fills (fuel : nat) (r : ref) (now : Z) (s s' : Exchange)
    (out : outcome unit) :
  _match_loop fuel r now s = (s', out) → fills r s s'.
Proof.
  apply (_match_loop_rel (fills r) r now (fills_refl r) (fills_trans r)).
  - intros k side s0 s1 o Hbook. apply fills_unlogged.
    + by eapply book_cleanup_grows.
    + unfold with_book in Hbook. destruct (order_books s0 !! k); [|by injection Hbook as <- <-].
      destruct (best_opposite side (objects s0) _). by injection Hbook as <- <-.
  - intros s0 order c cr s2 o2 Ho Hc Hcross Htrade.
    apply _execute_trade_grows in Htrade as [Hg [Htr|(t & Htr & Hlog)]].
    { by apply fills_unlogged. }
    intros o Ho'. rewrite Ho in Ho'. injection Ho' as <-.
    destruct Hg as (_ & _ & _ & _ & [_ Hobj] & _).
    destruct (Hobj r order Ho) as (o' & Ho' & Ht). exists o', [t].
    split; [done|]. split; [done|]. split; [done|].
    apply Forall_singleton.
    destruct Hlog as (o1 & bo & so & p & Ho1 & Hbo & Hso & Hp & Htk & _ & Hpr & Hb & Hs).
    rewrite Ho in Ho1. injection Ho1 as <-.
    split; [done|]. split.
    + destruct (Order.side order) eqn:Hside.
      * rewrite bool_decide_eq_true_2 in Hbo by done. congruence.
      * rewrite bool_decide_eq_false_2 in Hso by done. congruence.
    + intros limit Hlim Hnz.
      destruct Hcross as (op & cp & Hop & Hcp & Hcmp).
      { rewrite Hlim. simpl. apply negb_true_iff.
        destruct (Qeq_bool limit 0) eqn:E; [|done]. by apply Qeq_bool_iff in E. }
      rewrite Hlim in Hop. injection Hop as <-. rewrite Hcp in Hp.
      injection Hp as <-. by rewrite Hpr.
Qed.

Lemma grows_modify_obj (f : Order.t → Order.t) (r : ref) (s : Exchange) :
  (∀ o, same_terms o (f o)) → grows s (set_objects (alter f r) s).
Proof.
  intros Hf. split_and!; simpl; try done.
  apply same_orders_alter; [done|apply same_orders_refl].
Qed.

Lemma with_book_grows {A} (k : string) (c : list Order.t → M OrderBook.t A)
    (s s' : Exchange) (out : outcome A) :
  with_book k c s = (s', out) →
  grows s s' ∧ trades s' = trades s ∧ objects s' = objects s
  ∧ agents s' = agents s ∧ companies s' = companies s.
Proof.
  unfold with_book. destruct (order_books s !! k) as [b|] eqn:Hb.
  2: { intros [= <- <-]. split; [apply grows_refl|done]. }
  destruct (c (objects s) b) as [b' o]. intros [= <- <-].
  split; [|done]. split_and!; simpl; try done; [|apply same_orders_refl].
  apply dom_insert_lookup_L. by eexists.
Qed.

Lemma _match_order_grows (r : ref) (now : Z) (s s' : Exchange) (out : outcome unit) :
  _match_order r now s = (s', out) → grows s s' ∧ fills r s s'.
Proof.
  unfold _match_order. rewrite run_get_obj.
  destruct (objects s !! r) as [order|] eqn:Ho.
  2: { intros [= <- <-]. split; [apply grows_refl|apply fills_refl]. }
  rewrite run_get.
  destruct (order_books s !! Order.ticker order).
  2: { intros [= <- <-]. split; [apply grows_refl|apply fills_refl]. }
  rewrite run_bind.
  destruct (_match_loop _ r now s) as [s1 o1] eqn:Hloop.
  pose proof (_match_loop_grows _ _ _ _ _ _ Hloop) as Hg.
  pose proof (_match_loop_fills _ _ _ _ _ _ Hloop) as Hf.
  destruct o1 as [[]| |]; try by intros [= <- <-].
  rewrite run_get_obj.
  destruct (objects s1 !! r) as [o|]; [|by intros [= <- <-]].
  assert (∀ st, grows s (set_objects (alter (Order.set_status st) r) s1)
                ∧ fills r s (set_objects (alter (Order.set_status st) r) s1)) as Hset.
  { intros st.
    assert (grows s1 (set_objects (alter (Order.set_status st) r) s1)) as Hg1.
    { apply grows_modify_obj. intros x. by repeat split. }
    split; [by eapply grows_trans|].
    eapply fills_trans; [done|]. by apply fills_unlogged. }
  destruct (Qle_bool _ _); [intros [= <- <-]; apply Hset|].
  destruct (Qltb _ _); [intros [= <- <-]; apply Hset|].
  by intros [= <- <-].
Qed.

Lemma _get_market_price_grows (t : string) (side : OrderSide) (s s' : Exchange)
    (out : outcome (option Q)) :
  _get_market_price t side s = (s', out) →
  grows s s' ∧ trades s' = trades s ∧ objects s' = objects s
  ∧ agents s' = agents s ∧ companies s' = companies s.
Proof.
  unfold _get_market_price. rewrite run_get.
  destruct (order_books s !! t).
  2: { rewrite run_company_at. destruct (companies s !! t); intros [= <- <-];
       (split; [apply grows_refl|done]). }
  rewrite run_bind.
  match goal with |- context [with_book t ?c s] =>
    destruct (with_book t c s) as [s1 o1] eqn:Hbook end.
  apply with_book_grows in Hbook.
  destruct o1 as [[r|]| |]; try by intros [= <- <-].
  - rewrite run_get_obj. destruct (objects s1 !! r); by intros [= <- <-].
  - rewrite run_company_at. destruct (companies s1 !! t); by intros [= <- <-].
Qed.

(** A market order is matched as a limit order at the price it was quoted. *)
Lemma _execute_market_order_grows (r : ref) (now : Z) (s s' : Exchange)
    (out : outcome unit) :
  _execute_market_order r now s = (s', out) →
  (grows s s' ∧ trades s' = trades s)
  ∨ ∃ s1 mp, grows s s1 ∧ trades s1 = trades s ∧ objects s1 = objects s
             ∧ (∃ order, objects s !! r = Some order
                         ∧ _get_market_price (Order.ticker order) (Order.side order) s
                           = (s1, Returns mp))
             ∧ grows (set_objects (alter (Order.set_price mp) r) s1) s'
             ∧ fills r (set_objects (alter (Order.set_price mp) r) s1) s'.
Proof.
  unfold _execute_market_order. rewrite run_get_obj.
  destruct (objects s !! r) as [order|] eqn:Ho.
  2: { intros [= <- <-]. left. split; [apply grows_refl|done]. }
  rewrite run_bind.
  destruct (_get_market_price _ _ s) as [s1 o1] eqn:Hmp.
  pose proof (_get_market_price_grows _ _ _ _ _ Hmp) as (Hg1 & Htr1 & Hobj1 & Hag1 & _).
  destruct o1 as [mp| |]; try (intros [= <- <-]; by left).
  rewrite run_modify_obj, run_bind.
  set (s2 := set_objects (alter (Order.set_price mp) r) s1).
  destruct (_match_order r now s2) as [s3 o3] eqn:Hmo.
  apply _match_order_grows in Hmo as [Hg3 Hf3].
  intros Hrest. right. exists s1, mp. split; [done|]. split; [done|].
  split; [done|]. split; [by exists order|].
  destruct o3 as [[]| |]; try by injection Hrest as <- <-.
  rewrite run_get_obj in Hrest.
  destruct (objects s3 !! r) as [o|]; [|by injection Hrest as <- <-].
  destruct (bool_decide _); [|by injection Hrest as <- <-].
  injection Hrest as <- <-.
  assert (grows s3 (set_objects (alter (Order.set_status CANCELLED) r) s3)) as Hg4.
  { apply grows_modify_obj. intros x. by repeat split. }
  split; [by eapply grows_trans|].
  eapply fills_trans; [done|]. by apply fills_unlogged.
Qed.

Lemma extends_refl (n : nat) (s : Exchange) : extends n s s.
Proof.
  split_and!; try done. intros i o _ Ho. exists o. split; [done|apply same_terms_refl].
Qed.

Lemma extends_trans (n : nat) (s1 s2 s3 : Exchange) :
  extends n s1 s2 → extends n s2 s3 → extends n s1 s3.
Proof.
  intros (?&?&?&?&H12) (?&?&?&?&H23). split_and!; try congruence; [by etrans|].
  intros i o Hi Ho. destruct (H12 i o Hi Ho) as (o2 & Ho2 & Ht2).
  destruct (H23 i o2 Hi Ho2) as (o3 & Ho3 & Ht3). exists o3.
  split; [done|by eapply same_terms_trans].
Qed.

Lemma grows_extends (n : nat) (s s' : Exchange) : grows s s' → extends n s s'.
Proof.
  intros (?&?&?&?&[_ Hobj]&?). split_and!; try done. intros i o _. apply Hobj.
Qed.

Lemma allocate_extends (n : nat) (id : string) (r : ref) (order : Order.t)
    (s : Exchange) :
  extends n s (set_orders <[id:=r]> (set_objects (λ l, l ++ [order])%list s)).
Proof.
  split_and!; simpl; try done. intros i o _ Ho. exists o.
  split; [by apply lookup_app_l_Some|apply same_terms_refl].
Qed.

Lemma alter_extends (n : nat) (f : Order.t → Order.t) (r : ref) (s : Exchange) :
  n ≤ r → extends n s (set_objects (alter f r) s).
Proof.
  intros Hr. split_and!; simpl; try done. intros i o Hi Ho. exists o.
  split; [|apply same_terms_refl]. rewrite list_lookup_alter_ne by lia. done.
Qed.

Lemma entered_refl (order : Order.t) : entered order order.
Proof. split; [|done]. destruct order. apply same_terms_refl. Qed.

Lemma entered_same_terms (order o o' : Order.t) :
  entered order o → same_terms o o' → entered order o'.
Proof.
  intros [(?&?&?&?&?&?&?&?) Hl] (?&?&?&?&?&?&Hp&?). simpl in *.
  split; [repeat split; simpl; congruence|]. intros Hty. rewrite Hp. by apply Hl.
Qed.

Lemma entered_priced (order o : Order.t) (mp : option Q) :
  Order.order_type order = MARKET → entered order o →
  entered order (Order.set_price mp o).
Proof.
  intros Hty [(?&?&?&?&?&?&?&?) _]. simpl in *.
  split; [by repeat split|]. congruence.
Qed.

(** What [submit_order] leaves in place, and what it adds. *)
Lemma submit_order_frame_aux (order : Order.t) (now : Z) (s s' : Exchange)
    (out : outcome (option ref)) :
  submit_order order now s = (s', out) →
  extends (length (objects s)) s s'
  ∧ (out = Returns None →
     orders s' = orders s ∧ objects s' = objects s ∧ trades s' = trades s
     ∧ agents s' = agents s ∧ companies s' = companies s)
  ∧ (∀ r, out = Returns (Some r) →
          r = length (objects s)
          ∧ orders s' = <[Order.id order:=r]> (orders s)
          ∧ length (objects s') = S (length (objects s))
          ∧ ∃ o', objects s' !! r = Some o' ∧ entered order o').
Proof.
  unfold submit_order. rewrite run_get.
  destruct (agents s !! Order.agent_id order) as [agent|] eqn:Hag.
  2: { intros [= <- <-]. split; [apply extends_refl|]. split; [done|]. by intros r. }
  destruct (negb _) eqn:Hco.
  { intros [= <- <-]. split; [apply extends_refl|]. split; [done|]. by intros r. }
  rewrite run_bind.
  match goal with |- context [match ?c s with _ => _ end] =>
    destruct (c s) as [s1 oa] eqn:Hadm end.
  assert (grows s s1 ∧ trades s1 = trades s ∧ objects s1 = objects s
          ∧ agents s1 = agents s ∧ companies s1 = companies s)
    as (Hg1 & Htr1 & Hobj1 & Hag1 & Hco1).
  { destruct (Order.side order).
    - destruct (truthy (Order.price order)).
      + rewrite run_ret', run_as_num in Hadm.
        destruct (Order.price order); injection Hadm as <- <-;
          (split; [apply grows_refl|done]).
      + rewrite run_bind in Hadm.
        destruct (_get_market_price _ BUY s) as [s0 o0] eqn:Hmp.
        apply _get_market_price_grows in Hmp.
        destruct o0 as [up| |]; try by injection Hadm as <- <-.
        rewrite run_as_num in Hadm. destruct up; by injection Hadm as <- <-.
    - injection Hadm as <- <-. split; [apply grows_refl|done]. }
  pose proof Hg1 as (_ & _ & _ & Hord1 & _).
  destruct oa as [[]| |].
  2: { intros [= <- <-]. split; [by apply grows_extends|]. split; [done|].
       by intros r. }
  2,3: intros [= <- <-]; (split; [by apply grows_extends|]); split; [done|];
       by intros r.
  rewrite run_get, run_modify, run_modify, run_bind.
  rewrite Hobj1.
  set (r := length (objects s)).
  set (s2 := set_orders <[Order.id order:=r]>
               (set_objects (λ l, l ++ [order])%list s1)).
  assert (extends r s s2) as He2.
  { eapply extends_trans; [by apply grows_extends|apply allocate_extends]. }
  assert (objects s2 !! r = Some order) as Ho2.
  { simpl. rewrite Hobj1, lookup_app_r by (unfold r; lia). unfold r.
    by rewrite Nat.sub_diag. }
  assert (length (objects s2) = S r) as Hlen2.
  { simpl. rewrite length_app, Hobj1. simpl. unfold r. lia. }
  assert (∀ (c : M Exchange unit),
    (∀ s3 o3, c s2 = (s3, o3) →
       extends r s2 s3 ∧ orders s3 = orders s2
       ∧ length (objects s3) = length (objects s2)
       ∧ ∃ o', objects s3 !! r = Some o' ∧ entered order o') →
    match c s2 with
    | (s3, Returns _) => (ret (Some r) : M Exchange (option ref)) s3
    | (s3, Raises e) => (s3, Raises e)
    | (s3, Stuck) => (s3, Stuck)
    end = (s', out) →
    extends r s s'
    ∧ (out = Returns None →
       orders s' = orders s ∧ objects s' = objects s ∧ trades s' = trades s
       ∧ agents s' = agents s ∧ companies s' = companies s)
    ∧ (∀ r', out = Returns (Some r') →
          r' = r ∧ orders s' = <[Order.id order:=r']> (orders s)
          ∧ length (objects s') = S r
          ∧ ∃ o', objects s' !! r' = Some o' ∧ entered order o')) as Hfin.
  { intros c Hc. destruct (c s2) as [s3 o3] eqn:Hrun.
    destruct (Hc _ _ eq_refl) as (He3 & Hord3 & Hlen3 & Hnew).
    assert (extends r s s3) as He by by eapply extends_trans.
    destruct o3 as [[]| |]; intros [= <- <-]; (split; [done|]); split; try done.
    intros r' [= <-]. split; [done|]. split; [|split; [congruence|done]].
    rewrite Hord3. simpl. by rewrite Hord1. }
  destruct (Order.order_type order) eqn:Hty; apply Hfin; intros s3 o3 Hrun.
  - apply _execute_market_order_grows in Hrun
      as [[Hg3 _]|(s0 & mp & Hg0 & _ & Hobj0 & _ & Hg3 & _)].
    + pose proof Hg3 as (_ & _ & _ & Hord3 & [Hlen3 Hobj3] & _).
      destruct (Hobj3 r order Ho2) as (o' & Ho' & Ht').
      split; [by apply grows_extends|]. split; [done|]. split; [done|].
      exists o'. split; [done|]. eapply entered_same_terms; [apply entered_refl|done].
    + pose proof Hg0 as (_ & _ & _ & Hord0 & _).
      pose proof Hg3 as (_ & _ & _ & Hord3 & [Hlen3 Hobj3] & _).
      simpl in Hord3, Hlen3, Hobj3.
      destruct (Hobj3 r (Order.set_price mp order)) as (o' & Ho' & Ht').
      { rewrite list_lookup_alter_eq, Hobj0, Ho2. done. }
      split.
      { eapply extends_trans; [by apply grows_extends|].
        eapply extends_trans; [apply (alter_extends r (Order.set_price mp) r); lia|].
        by apply grows_extends. }
      split; [congruence|]. split.
      { rewrite Hlen3, length_alter. by rewrite Hobj0. }
      exists o'. split; [done|].
      eapply entered_same_terms; [|done].
      apply entered_priced; [done|apply entered_refl].
  - rewrite run_bind in Hrun.
    destruct (_match_order r now s2) as [s4 o4] eqn:Hmo.
    apply _match_order_grows in Hmo as [Hg4 _].
    pose proof Hg4 as (_ & _ & _ & Hord4 & [Hlen4 Hobj4] & _).
    destruct (Hobj4 r order Ho2) as (o' & Ho' & Ht').
    assert (entered order o') as Hent.
    { eapply entered_same_terms; [apply entered_refl|done]. }
    destruct o4 as [[]| |];
      try (injection Hrun as <- <-; split; [by apply grows_extends|];
           split; [done|]; split; [done|]; by exists o').
    rewrite run_get_obj, Ho' in Hrun.
    destruct (bool_decide (Order.status o' = PENDING)).
    + apply with_book_grows in Hrun as (Hg5 & _ & Hobj5 & _).
      pose proof Hg5 as (_ & _ & _ & Hord5 & _).
      split; [apply grows_extends; by eapply grows_trans|].
      split; [congruence|]. split; [by rewrite Hobj5|].
      exists o'. split; [by rewrite Hobj5|done].
    + injection Hrun as <- <-. split; [by apply grows_extends|].
      split; [done|]. split; [done|]. by exists o'.
Qed.

Lemma best_loop_head (objs : list Order.t) (fuel : nat) :
  ∀ h h' top, best_loop fuel objs h = (h', Returns top) → settled_heap objs h' top.
Proof.
  induction fuel as [|fuel IH]; intros h h' top; [done|].
  cbn [best_loop]. rewrite run_get.
  destruct h as [|e t]; [by intros [= <- <-]|].
  destruct (objs !! entry_ref e) as [o|] eqn:Ho; [|done].
  case_bool_decide as Hst.
  - intros [= <- <-]. by exists e, t, o.
  - rewrite run_bind. destruct (heappop _ _) as [h1 [m| |]]; [|done|done].
    apply IH.
Qed.

Lemma best_of_heap_head (objs : list Order.t) (h h' : list entry) (top : option ref) :
  best_of_heap objs h = (h', Returns top) → settled_heap objs h' top.
Proof. unfold best_of_heap. rewrite run_get. apply best_loop_head. Qed.

Lemma best_of_heap_settled (objs : list Order.t) (h : list entry) (top : option ref) :
  settled_heap objs h top → best_of_heap objs h = (h, Returns top).
Proof.
  unfold best_of_heap. rewrite run_get. cbn [best_loop]. rewrite run_get.
  destruct top as [r|]; simpl.
  - intros (e & t & o & -> & <- & Ho & Hst). rewrite Ho.
    by rewrite bool_decide_eq_true_2.
  - by intros ->.
Qed.

(** X2.  A best-of-side lookup that returned leaves the book as the next
    lookup wants it: asked again, [best_bid] (or [best_ask]) returns the same
    order and changes nothing. *)
Theorem best_of_side_idempotent (objs : list Order.t) (b : OrderBook.t) :
  match best_bid objs b with
  | (b', Returns top) => best_bid objs b' = (b', Returns top)
  | _ => True
  end
  ∧ match best_ask objs b with
    | (b', Returns top) => best_ask objs b' = (b', Returns top)
    | _ => True
    end.
Proof.
  unfold best_bid, best_ask, zoom. split.
  - destruct (best_of_heap objs (OrderBook.bids b)) as [h' [top| |]] eqn:Hrun;
      [|done|done].
    apply best_of_heap_head, best_of_heap_settled in Hrun. simpl.
    by rewrite Hrun.
  - destruct (best_of_heap objs (OrderBook.asks b)) as [h' [top| |]] eqn:Hrun;
      [|done|done].
    apply best_of_heap_head, best_of_heap_settled in Hrun. simpl.
    by rewrite Hrun.
Qed.

Lemma with_book_head (k : string) (side : OrderSide) (s s' : Exchange)
    (top : option ref) :
  with_book k (best_opposite side) s = (s', Returns top) →
  objects s' = objects s
  ∧ ∃ b', order_books s' !! k = Some b'
          ∧ settled_heap (objects s') (opp_heap side b') top.
Proof.
  unfold with_book. destruct (order_books s !! k) as [b|]; [|done].
  rewrite best_opposite_unfold.
  destruct (best_of_heap (objects s) (opp_heap side b)) as [h' o] eqn:Hrun.
  intros [= <- ->]. split; [done|]. simpl. rewrite lookup_insert_eq.
  eexists. split; [done|]. apply best_of_heap_head in Hrun.
  by destruct side.
Qed.

Lemma _match_loop_stopped (r : ref) (now : Z) (fuel : nat) :
  ∀ s s', _match_loop fuel r now s = (s', Returns tt) → loop_stopped r s'.
Proof.
  induction fuel as [|fuel IH]; intros s s'; [done|].
  cbn [_match_loop]. rewrite run_get_obj.
  destruct (objects s !! r) as [order|] eqn:Ho; [|done].
  destruct (Qltb _ _) eqn:Hlt.
  2: { intros [= <-]. exists order. split; [done|]. left. by apply Qltb_ge. }
  change (match Order.side order with BUY => best_ask | SELL => best_bid end)
    with (best_opposite (Order.side order)).
  rewrite run_bind.
  destruct (with_book (Order.ticker order) (best_opposite (Order.side order)) s)
    as [s1 [top| |]] eqn:Hbook; [|done|done].
  apply with_book_head in Hbook as (Hobj & b' & Hb' & Hhead).
  destruct top as [cr|].
  2: { intros [= <-]. exists order. split; [by rewrite Hobj|]. right.
       exists b'. split; [done|]. simpl in Hhead. by rewrite Hhead. }
  destruct Hhead as (e & t & c & Hh & Hr & Hc & Hst).
  rewrite run_get_obj, Hc, run_bind.
  destruct (truthy (Order.price order)) eqn:Htr.
  - rewrite run_as_num. destruct (Order.price c) as [cp|] eqn:Hcp; [|done].
    rewrite run_as_num. destruct (Order.price order) as [op|] eqn:Hop; [|done].
    unfold ret at 1.
    destruct (match Order.side order with
              | BUY => Qltb op cp
              | SELL => Qltb cp op
              end) eqn:Hstop.
    + intros [= <-]. exists order. split; [by rewrite Hobj|]. right.
      exists b'. split; [done|]. rewrite Hh. exists c. rewrite Hr.
      split; [done|]. split; [done|]. split; [by rewrite Hop|].
      exists op, cp. split; [done|]. split; [done|].
      destruct (Order.side order); by apply Qltb_lt.
    + rewrite run_bind. destruct (_execute_trade _ _ _ _ _ _) as [s2 [[]| |]];
        [|done|done]. apply IH.
  - unfold ret at 1. rewrite run_bind.
    destruct (_execute_trade _ _ _ _ _ _) as [s2 [[]| |]]; [|done|done]. apply IH.
Qed.

(** X3.  The matching loop stops, when it stops without an exception, only
    in one of three ways: the order is filled; the opposite heap is empty
    (every entry left of it was discarded as not PENDING); or the order has a
    non-zero price and the PENDING order at the head of the opposite heap is
    priced beyond it. *)
Theorem _match_loop_stop_condition (r : ref) (now : Z) (fuel : nat) (s : Exchange) :
  match _match_loop fuel r now s with
  | (s', Returns _) => loop_stopped r s'
  | _ => True
  end.
Proof.
  destruct (_match_loop fuel r now s) as [s' [[]| |]] eqn:Hrun; [|done|done].
  by eapply _match_loop_stopped.
Qed.

Lemma _execute_trade_agents (r1 r2 : ref) (q : Q) (price : option Q) (now : Z)
    (s s' : Exchange) (out : outcome unit) :
  _execute_trade r1 r2 q price now s = (s', out) →
  agents s' = agents s
  ∨ ∃ bk sk buyer seller t cost,
      agents s !! bk = Some buyer ∧ agents s !! sk = Some seller
      ∧ agents s' = alter (debit_seller t q cost) sk
                      (alter (credit_buyer t q cost) bk (agents s)).
Proof.
  unfold _execute_trade. rewrite run_get_obj.
  destruct (objects s !! r1) as [o1|] eqn:Ho1; [|intros [= <- <-]; by left].
  set (br := if bool_decide (Order.side o1 = BUY) then r1 else r2).
  set (sr := if bool_decide (Order.side o1 = BUY) then r2 else r1).
  rewrite run_get_obj.
  destruct (objects s !! br) as [bo|] eqn:Hbo; [|intros [= <- <-]; by left].
  rewrite run_get_obj.
  destruct (objects s !! sr) as [so|] eqn:Hso; [|intros [= <- <-]; by left].
  rewrite run_agent_at.
  destruct (agents s !! Order.agent_id bo) as [buyer|] eqn:Hbuyer;
    [|intros [= <- <-]; by left].
  rewrite run_agent_at.
  destruct (agents s !! Order.agent_id so) as [seller|] eqn:Hseller;
    [|intros [= <- <-]; by left].
  rewrite run_as_num.
  destruct price as [p|]; [|intros [= <- <-]; by left].
  rewrite !run_modify, !run_modify_obj, run_get_obj.
  apply lookup_lt_Some in Hbo, Hso.
  match goal with |- context [match ?x !! br with _ => _ end] =>
    destruct (x !! br) as [bo'|] eqn:Hbo' end.
  2: { apply lookup_ge_None in Hbo'. simpl in Hbo'.
       rewrite !length_alter in Hbo'. lia. }
  rewrite run_when_modify_obj, run_get_obj.
  match goal with |- context [match ?x !! sr with _ => _ end] =>
    destruct (x !! sr) as [so'|] eqn:Hso' end.
  2: { apply lookup_ge_None in Hso'. simpl in Hso'.
       destruct (Qle_bool _ _); rewrite !length_alter in Hso'; lia. }
  rewrite run_when_modify_obj, !run_modify, run_company_at.
  assert (∀ x : Exchange * outcome unit,
            agents x.1 = alter (debit_seller (Order.ticker o1) q (q * p)) (Order.agent_id so)
                           (alter (credit_buyer (Order.ticker o1) q (q * p))
                                  (Order.agent_id bo) (agents s)) →
            x = (s', out) →
            agents s' = agents s
            ∨ ∃ bk sk buyer seller t cost,
                agents s !! bk = Some buyer ∧ agents s !! sk = Some seller
                ∧ agents s' = alter (debit_seller t q cost) sk
                                (alter (credit_buyer t q cost) bk (agents s)))
    as Hfin.
  { intros x Hx ->. right.
    exists (Order.agent_id bo), (Order.agent_id so), buyer, seller,
           (Order.ticker o1), (q * p)%Q. done. }
  match goal with |- context [match ?x !! Order.ticker o1 with _ => _ end] =>
    destruct (x !! Order.ticker o1) as [c|] eqn:Hc end.
  - rewrite run_modify. unfold modify. apply Hfin. simpl. apply agent_alters.
  - apply Hfin. simpl. apply agent_alters.
Qed.

Lemma total_cash_settled (t : string) (q cost : Q) (bk sk : string)
    (buyer seller : Agent.t) (m : gmap string Agent.t) :
  m !! bk = Some buyer → m !! sk = Some seller →
  (sum_over Agent.balance
     (alter (debit_seller t q cost) sk (alter (credit_buyer t q cost) bk m))
   == sum_over Agent.balance m)%Q.
Proof.
  intros Hb Hs.
  destruct (decide (bk = sk)) as [->|Hne].
  - rewrite Hb in Hs. injection Hs as <-.
    rewrite (sum_over_alter _ _ _ _ (credit_buyer t q cost buyer)).
    2: { by rewrite lookup_alter_eq, Hb. }
    rewrite (sum_over_alter _ _ _ _ buyer Hb). simpl. lra.
  - rewrite (sum_over_alter _ _ _ _ seller).
    2: { by rewrite lookup_alter_ne. }
    rewrite (sum_over_alter _ _ _ _ buyer Hb). simpl. lra.
Qed.


Lemma same_cash_agents (s s' : Exchange) : agents s' = agents s → same_cash s s'.
Proof. unfold same_cash, total_cash. by intros ->. Qed.

Lemma _match_loop_cash (fuel : nat) (r : ref) (now : Z) (s s' : Exchange)
    (out : outcome unit) :
  _match_loop fuel r now s = (s', out) → same_cash s s'.
Proof.
  apply (_match_loop_rel same_cash r now).
  - intros s0. by apply same_cash_agents.
  - unfold same_cash. intros s1 s2 s3 H12 H23. by rewrite H23.
  - intros k side s0 s1 o Hbook. apply same_cash_agents.
    by apply with_book_grows in Hbook as (_ & _ & _ & ? & _).
  - intros s0 order c cr s2 o2 _ _ _ Htrade. unfold same_cash, total_cash.
    apply _execute_trade_agents in Htrade
      as [->|(bk & sk & buyer & seller & t & cost & Hb & Hs & ->)]; [reflexivity|].
    by eapply total_cash_settled.
Qed.

Lemma _match_order_cash (r : ref) (now : Z) (s s' : Exchange) (out : outcome unit) :
  _match_order r now s = (s', out) → same_cash s s'.
Proof.
  unfold _match_order. rewrite run_get_obj.
  destruct (objects s !! r) as [order|]; [|intros [= <- <-]; by apply same_cash_agents].
  rewrite run_get.
  destruct (order_books s !! Order.ticker order);
    [|intros [= <- <-]; by apply same_cash_agents].
  rewrite run_bind.
  destruct (_match_loop _ r now s) as [s1 o1] eqn:Hloop.
  apply _match_loop_cash in Hloop.
  destruct o1 as [[]| |]; try by intros [= <- <-].
  rewrite run_get_obj.
  destruct (objects s1 !! r) as [o|]; [|by intros [= <- <-]].
  destruct (Qle_bool _ _); [by intros [= <- <-]|].
  destruct (Qltb _ _); by intros [= <- <-].
Qed.

Lemma submit_order_cash (order : Order.t) (now : Z) (s s' : Exchange)
    (out : outcome (option ref)) :
  submit_order order now s = (s', out) → same_cash s s'.
Proof.
  unfold submit_order. rewrite run_get.
  destruct (agents s !! Order.agent_id order) as [agent|];
    [|intros [= <- <-]; by apply same_cash_agents].
  destruct (negb _); [intros [= <- <-]; by apply same_cash_agents|].
  rewrite run_bind.
  match goal with |- context [match ?c s with _ => _ end] =>
    destruct (c s) as [s1 oa] eqn:Hadm end.
  assert (agents s1 = agents s) as Hag1.
  { destruct (Order.side order).
    - destruct (truthy (Order.price order)).
      + rewrite run_ret', run_as_num in Hadm.
        destruct (Order.price order); by injection Hadm as <- <-.
      + rewrite run_bind in Hadm.
        destruct (_get_market_price _ BUY s) as [s0 o0] eqn:Hmp.
        apply _get_market_price_grows in Hmp as (_ & _ & _ & ? & _).
        destruct o0 as [up| |]; try by injection Hadm as <- <-.
        rewrite run_as_num in Hadm. destruct up; by injection Hadm as <- <-.
    - by injection Hadm as <- <-. }
  destruct oa as [[]| |]; try (intros [= <- <-]; by apply same_cash_agents).
  rewrite run_get, run_modify, run_modify, run_bind.
  set (r := length (objects s1)).
  set (s2 := set_orders _ _).
  assert (same_cash s s2) as Hc2 by by apply same_cash_agents.
  assert (∀ (c : M Exchange unit),
    (∀ s3 o3, c s2 = (s3, o3) → same_cash s2 s3) →
    match c s2 with
    | (s3, Returns _) => (ret (Some r) : M Exchange (option ref)) s3
    | (s3, Raises e) => (s3, Raises e)
    | (s3, Stuck) => (s3, Stuck)
    end = (s', out) → same_cash s s') as Hfin.
  { intros c Hc. destruct (c s2) as [s3 o3] eqn:Hrun.
    specialize (Hc _ _ eq_refl). unfold same_cash in *.
    destruct o3 as [[]| |]; intros [= <- <-]; by rewrite Hc. }
  destruct (Order.order_type order); apply Hfin; intros s3 o3.
  - unfold _execute_market_order. rewrite run_get_obj.
    destruct (objects s2 !! r) as [o|]; [|intros [= <- <-]; by apply same_cash_agents].
    rewrite run_bind.
    destruct (_get_market_price _ _ s2) as [s0 o0] eqn:Hmp.
    apply _get_market_price_grows in Hmp as (_ & _ & _ & Hag0 & _).
    destruct o0 as [mp| |]; try (intros [= <- <-]; by apply same_cash_agents).
    rewrite run_modify_obj, run_bind.
    destruct (_match_order r now _) as [s4 o4] eqn:Hmo.
    apply _match_order_cash in Hmo.
    assert (same_cash s2 s4) as Hc4.
    { unfold same_cash, total_cash in *. rewrite Hmo. simpl. by rewrite Hag0. }
    destruct o4 as [[]| |]; try by intros [= <- <-].
    rewrite run_get_obj. destruct (objects s4 !! r); [|by intros [= <- <-]].
    destruct (bool_decide _); by intros [= <- <-].
  - rewrite run_bind.
    destruct (_match_order r now s2) as [s4 o4] eqn:Hmo.
    apply _match_order_cash in Hmo.
    destruct o4 as [[]| |]; try by intros [= <- <-].
    rewrite run_get_obj. destruct (objects s4 !! r) as [o|]; [|by intros [= <- <-]].
    destruct (bool_decide (Order.status o = PENDING)); [|by intros [= <- <-]].
    intros Hadd. apply with_book_grows in Hadd as (_ & _ & _ & Hag & _).
    unfold same_cash, total_cash in *. by rewrite Hag.
Qed.


Lemma run_op_inv (op : Op) (now : Z) (w : AIVerse) :
  Inv (exchange w) → well_formed_op op →
  op_completes op now w ∧ Inv (exchange (run_op op now w)).
Proof.
  intros HInv Hwf. unfold op_completes, completes, outcome_of.
  destruct op as [a n|a n b|f t n d st sc|t sh p oid|o|a t|]; simpl.
  - destruct (join a n now w) as [w' out] eqn:Hrun. by apply join_inv in Hrun.
  - destruct (on_exchange _ w) as [w' out] eqn:Hrun.
    apply on_exchange_inv in Hrun; [done|]. intros s' o'.
    by apply register_agent_inv.
  - destruct (world_create_company _ _ _ _ _ _ _ w) as [w' out] eqn:Hrun.
    by apply world_create_company_inv in Hrun.
  - destruct (launch_ipo _ _ _ _ _ w) as [w' out] eqn:Hrun.
    by apply launch_ipo_inv in Hrun.
  - destruct (on_exchange _ w) as [w' out] eqn:Hrun.
    apply on_exchange_inv in Hrun; [done|]. intros s' o' Hsub.
    destruct Hwf as [Hfr Hq].
    by apply submit_order_inv in Hsub as (? & ? & _).
  - destruct (use_service a t now w) as [w' out] eqn:Hrun.
    by apply use_service_inv in Hrun.
  - destruct (tick now w) as [w' out] eqn:Hrun. by apply tick_inv in Hrun.
Qed.

Lemma run_ops_inv (ops : list (Op * Z)) :
  ∀ w, Inv (exchange w) → Forall (λ x, well_formed_op x.1) ops →
       Inv (exchange (run_ops ops w)).
Proof.
  induction ops as [|[op now] ops IH]; intros w HInv Hwf; [done|].
  apply Forall_cons in Hwf as [Hop Hwf]. simpl.
  apply IH; [|done]. by apply run_op_inv.
Qed.



(** X8.  Every trade [_match_order] makes for the order at [r] is a fill of
    that order: on the order's ticker, with the order on its own side of the
    trade, and -- when the order has a non-zero price -- at a price no
    higher than it for a BUY, no lower for a SELL.  The trade log only
    grows, by these trades. *)
Theorem _match_order_fills (r : ref) (now : Z) (s : Exchange) (o : Order.t) :
  objects s !! r = Some o →
  ∃ new, trades (state_after (_match_order r now) s) = (trades s ++ new)%list
         ∧ Forall (fill_of o) new.
Proof.
  intros Ho. unfold state_after.
  destruct (_match_order r now s) as [s' out] eqn:Hrun.
  apply _match_order_grows in Hrun as [_ Hf].
  destruct (Hf o Ho) as (o' & new & _ & _ & Htr & Hnew). by exists new.
Qed.

(** X9.  A MARKET order is matched as a LIMIT order at the price
    [_get_market_price] quotes for it before matching: every trade
    [_execute_market_order] makes is a fill of the order with that price for
    limit, so a MARKET BUY never pays more than the best ask it was quoted
    (and stops there: it does not walk the book). *)
Theorem market_order_fills_at_quote (r : ref) (now : Z) (s : Exchange)
    (order : Order.t) (mp : option Q) :
  objects s !! r = Some order →
  outcome_of (_get_market_price (Order.ticker order) (Order.side order)) s
  = Returns mp →
  ∃ new, trades (state_after (_execute_market_order r now) s) = (trades s ++ new)%list
         ∧ Forall (fill_of (Order.set_price mp order)) new.
Proof.
  intros Ho Hq. unfold state_after, outcome_of in *.
  destruct (_execute_market_order r now s) as [s' out] eqn:Hrun. cbn [fst].
  apply _execute_market_order_grows in Hrun
    as [[_ Htr]|(s1 & mp' & _ & Htr1 & Hobj1 & (order' & Ho' & Hmp) & _ & Hf)].
  { exists []. by rewrite app_nil_r. }
  rewrite Ho in Ho'. injection Ho' as <-. rewrite Hmp in Hq. injection Hq as ->.
  destruct (Hf (Order.set_price mp order)) as (o' & new & _ & _ & Htr & Hnew).
  { simpl. by rewrite list_lookup_alter_eq, Hobj1, Ho. }
  exists new. split; [|done]. simpl in Htr. by rewrite Htr, Htr1.
Qed.

(** X10.  What [submit_order] leaves in place and what it adds, when it is
    called with an [Order] object the exchange does not hold yet, whatever
    the fields of that object and however the call ends: no agent, company
    or book appears or disappears; the trade log only grows; every order
    the exchange already holds keeps its terms.  A rejection ([None])
    changes no order, trade, agent or company.  An accepted order is stored
    as a new object, indexed under its id, with the terms submitted -- but
    for the price of a MARKET order, which the exchange sets. *)
Theorem submit_order_frame (order : Order.t) (now : Z) (s : Exchange) :
  match submit_order order now s with
  | (s', out) =>
      dom (agents s') = dom (agents s)
      ∧ dom (companies s') = dom (companies s)
      ∧ dom (order_books s') = dom (order_books s)
      ∧ trades s `prefix_of` trades s'
      ∧ (∀ i o, objects s !! i = Some o →
                ∃ o', objects s' !! i = Some o' ∧ same_terms o o')
      ∧ match out with
        | Returns None =>
            orders s' = orders s ∧ objects s' = objects s ∧ trades s' = trades s
            ∧ agents s' = agents s ∧ companies s' = companies s
        | Returns (Some r) =>
            r = length (objects s)
            ∧ orders s' = <[Order.id order:=r]> (orders s)
            ∧ length (objects s') = S (length (objects s))
            ∧ ∃ o', objects s' !! r = Some o' ∧ entered order o'
        | _ => True
        end
  end.
Proof.
  destruct (submit_order order now s) as [s' out] eqn:Hrun.
  apply submit_order_frame_aux in Hrun as ((Ha & Hc & Hb & Ht & Ho) & Hnone & Hsome).
  split_and!; try done.
  - intros i o Hi. apply (Ho i o); [|done]. by apply lookup_lt_Some in Hi.
  - destruct out as [[r|]| |]; [by apply Hsome|by apply Hnone|done|done].
Qed.

(** X11.  [register_agent] never overwrites: it returns the agent stored
    under the id after the call; every agent registered before is still
    there, unchanged; if the id was taken the state is unchanged (the name
    and the balance passed are ignored), otherwise the one new agent has the
    balance passed, reputation 100, no trades and an empty portfolio.
    Nothing but the agents changes, and the call never raises. *)
Theorem register_agent_keeps_existing (agent_id name : string) (b : Q) (now : Z)
    (s : Exchange) :
  match register_agent agent_id name b now s with
  | (s', Returns a) =>
      agents s' !! agent_id = Some a
      ∧ (∀ k x, agents s !! k = Some x → agents s' !! k = Some x)
      ∧ match agents s !! agent_id with
        | Some _ => s' = s
        | None => a = Agent.mk agent_id name b now 100 0 0 ∅
                  ∧ agents s' = <[agent_id:=a]> (agents s)
        end
      ∧ companies s' = companies s ∧ order_books s' = order_books s
      ∧ trades s' = trades s ∧ orders s' = orders s
      ∧ price_history s' = price_history s ∧ objects s' = objects s
  | _ => False
  end.
Proof.
  unfold register_agent. rewrite run_get.
  destruct (agents s !! agent_id) as [a|] eqn:Ha; simpl.
  - by rewrite Ha.
  - rewrite lookup_insert_eq. split; [done|]. split; [|done].
    intros k x Hk. rewrite lookup_insert_ne; [done|]. intros <-. congruence.
Qed.

(** X12.  [create_company] returns or fails without a trace.  When it
    returns [None] the state is unchanged, and the founder is unknown, or
    has less than 10,000, or the ticker as passed is a key of [companies].
    When it returns a company, none of these holds; the founder has paid
    exactly 10,000 and holds 1,000,000 shares under the upper-case ticker;
    the company (PRIVATE, 1,000,000 shares, price 1) and an empty book are
    stored under the upper-case ticker, replacing what was there; nothing
    else changes.  It never raises. *)
Theorem create_company_effect
    (founder_id ticker name description service_type : string) (service_cost : Q)
    (now : Z) (s : Exchange) :
  match create_company founder_id ticker name description service_type service_cost
          now s with
  | (s', Returns None) =>
      s' = s
      ∧ (agents s !! founder_id = None
         ∨ (∃ a, agents s !! founder_id = Some a ∧ (Agent.balance a < CREATION_COST)%Q)
         ∨ is_Some (companies s !! ticker))
  | (s', Returns (Some c)) =>
      ∃ a, agents s !! founder_id = Some a
           ∧ (CREATION_COST <= Agent.balance a)%Q
           ∧ companies s !! ticker = None
           ∧ c = Company.mk (lower ticker) (upper ticker) name description founder_id
                   PRIVATE now 1000000 0 1 0 0 0 0 service_type service_cost
           ∧ agents s'
             = <[founder_id:=
                   Agent.set_portfolio <[upper ticker:=1000000%Q]>
                     (Agent.set_balance (λ b, b - CREATION_COST)%Q a)]> (agents s)
           ∧ companies s' = <[upper ticker:=c]> (companies s)
           ∧ order_books s'
             = <[upper ticker:=OrderBook.mk (upper ticker) [] []]> (order_books s)
           ∧ trades s' = trades s ∧ orders s' = orders s
           ∧ price_history s' = price_history s ∧ objects s' = objects s
  | _ => False
  end.
Proof.
  unfold create_company. rewrite run_get.
  destruct (agents s !! founder_id) as [a|] eqn:Ha; simpl.
  2: { split; [done|]. by left. }
  destruct (Qltb (Agent.balance a) CREATION_COST) eqn:Hb; simpl.
  { split; [done|]. right; left. exists a. split; [done|]. by apply Qltb_lt. }
  apply Qltb_ge in Hb.
  case_bool_decide as Hc; simpl.
  { split; [done|]. by right; right. }
  exists a. split; [done|]. split; [done|]. split.
  { by apply eq_None_not_Some. }
  split; [done|]. split; [|done].
  apply map_eq. intros k. rewrite !lookup_alter.
  destruct (decide (founder_id = k)) as [<-|Hne].
  - rewrite lookup_insert_eq, Ha. simpl. by rewrite decide_True.
  - rewrite lookup_insert_ne by done. done.
Qed.

(** X13.  [_bankrupt] wipes the ticker out of every portfolio and marks
    the company: afterwards no agent holds the company's ticker, every
    other holding and every balance is as before, the company stored under
    [k] is BANKRUPT with price and market cap 0, and one bankruptcy event
    has been emitted.  Nobody is compensated. *)
Theorem _bankrupt_effect (k : string) (company : Company.t) (now : Z) (w : AIVerse) :
  match _bankrupt k company now w with
  | (w', Returns _) =>
      (∀ id, agents (exchange w') !! id
             = Agent.set_portfolio (delete (Company.ticker company))
               <$> agents (exchange w) !! id)
      ∧ (∀ id a, agents (exchange w') !! id = Some a →
                 Agent.portfolio a !! Company.ticker company = None)
      ∧ companies (exchange w')
        = alter (λ c, Company.set_market_cap 0
                        (Company.set_share_price 0 (Company.set_status BANKRUPT c)))
                k (companies (exchange w))
      ∧ events w'
        = (events w ++ [WorldEvent.mk now "bankruptcy"
                          (Some (Company.ticker company)) None])%list
      ∧ order_books (exchange w') = order_books (exchange w)
      ∧ objects (exchange w') = objects (exchange w)
      ∧ trades (exchange w') = trades (exchange w)
  | _ => False
  end.
Proof.
  unfold _bankrupt, on_exchange, _emit_event. unfold_monad. simpl.
  split_and!; try done.
  - intros id. by rewrite lookup_fmap.
  - intros id a. rewrite lookup_fmap.
    destruct (agents (exchange w) !! id) as [x|]; [|done]. simpl.
    intros [= <-]. simpl. apply lookup_delete_eq.
Qed.


Lemma sum_over_fmap (g : Agent.t → Q) (f : Agent.t → Agent.t)
    (m : gmap string Agent.t) :
  (sum_over g (f <$> m) == sum_over (g ∘ f) m)%Q.
Proof.
  unfold sum_over. rewrite map_to_list_fmap, <-!list_fmap_compose. reflexivity.
Qed.

Lemma sumQ_ext {A} (g g' : A → Q) (l : list A) :
  Forall (λ a, (g a == g' a)%Q) l → (sumQ (g <$> l) == sumQ (g' <$> l))%Q.
Proof.
  unfold sumQ. induction 1 as [|a l Ha _ IH]; simpl; [reflexivity|].
  by rewrite Ha, IH.
Qed.

Lemma sum_over_ext (g g' : Agent.t → Q) (m : gmap string Agent.t) :
  (∀ k a, m !! k = Some a → (g a == g' a)%Q) →
  (sum_over g m == sum_over g' m)%Q.
Proof.
  intros Hg. unfold sum_over. apply sumQ_ext, Forall_forall.
  intros a Ha. apply list_elem_of_fmap in Ha as ([k a'] & -> & Hka).
  apply elem_of_map_to_list in Hka. by eapply Hg.
Qed.

Lemma sumQ_linear {A} (g h : A → Q) (c : Q) (l : list A) :
  (sumQ ((λ a, g a + h a * c) <$> l) == sumQ (g <$> l) + sumQ (h <$> l) * c)%Q.
Proof.
  unfold sumQ. induction l as [|a l IH]; [simpl; lra|].
  rewrite !fmap_cons. cbn [foldr]. rewrite IH. ring.
Qed.


(** X16.  [add_order] keeps a well-formed heap well formed.  When the
    entry of the order can be compared with the entries of its side and that
    heap is heap ordered, the call returns, the heap of the side holds the
    old entries and the new one, is heap ordered and comparable again, and
    the other side and the ticker are untouched. *)
Theorem add_order_keeps_heap (objs : list Order.t) (r : ref) (o : Order.t) (e : entry)
    (b : OrderBook.t) :
  objs !! r = Some o → entry_of o r = Some e →
  comparable objs (e :: side_heap (Order.side o) b) →
  heap_ordered entry_ltb (side_heap (Order.side o) b) →
  ∃ b', add_order objs r b = (b', Returns tt)
        ∧ side_heap (Order.side o) b' ≡ₚ e :: side_heap (Order.side o) b
        ∧ heap_ordered entry_ltb (side_heap (Order.side o) b')
        ∧ comparable objs (side_heap (Order.side o) b')
        ∧ opp_heap (Order.side o) b' = opp_heap (Order.side o) b
        ∧ OrderBook.ticker b' = OrderBook.ticker b.
Proof.
  intros Ho He Hcmp Hh. unfold add_order. rewrite Ho.
  set (h := side_heap (Order.side o) b) in *.
  destruct (heappush_spec (entry_lt objs) entry_ltb (λ x, x ∈ e :: h) Hcmp
              entry_ltb_asym entry_le_trans e h)
    as (h' & Hrun & Hperm & HP & Hheap).
  { apply list_elem_of_here. }
  { apply Forall_forall. intros x Hx. by apply list_elem_of_further. }
  assert (comparable objs h') as Hcmp'.
  { intros x y Hx Hy. rewrite Forall_forall in HP. apply Hcmp; by apply HP. }
  unfold entry_of in He. unfold h in *. clear h.
  destruct (Order.side o); simpl in *.
  - destruct (Order.price o) as [p|]; [|done]. injection He as <-.
    rewrite run_as_num. unfold zoom. rewrite Hrun.
    eexists. split; [done|]. simpl. split_and!; auto.
  - injection He as <-. unfold zoom. rewrite Hrun.
    eexists. split; [done|]. simpl. split_and!; auto.
Qed.

Lemma Forall2_alter_both_r {A} (R : A → A → Prop) (f : A → A) (i : nat)
    (l k : list A) :
  (∀ x y, R x y → R x (f y)) → Forall2 R l k → Forall2 R l (alter f i k).
Proof. intros Hf Hl. apply Forall2_alter_r; [done|]. intros x y _ _. apply Hf. Qed.

Lemma Forall2_when_r {A} (R : A → A → Prop) (f : A → A) (c : bool) (i : nat)
    (l k : list A) :
  (∀ x y, R x y → R x (f y)) → Forall2 R l k →
  Forall2 R l (if c then alter f i k else k).
Proof. intros Hf Hl. destruct c; [by apply Forall2_alter_both_r|done]. Qed.

Lemma settled_from_refl (l : list Order.t) : Forall2 settled_from l l.
Proof.
  apply Forall_Forall2_diag, Forall_forall. intros o _.
  split; [apply same_terms_refl|by left].
Qed.


(** X18.  The engine reserves no cash.  There is a sequence of operations,
    each valid by the data model (fresh orders of positive quantity), after
    which an agent's balance is negative: a BUY order is checked against the
    balance when it is submitted, and is filled later whatever the balance
    has become. *)
Theorem balances_can_go_negative :
  ∃ ops, Forall (λ x, valid_op x.1) ops
         ∧ ∃ k a, agents (exchange (run_ops ops (AIVerse_init 0))) !! k = Some a
                  ∧ (Agent.balance a < 0)%Q.
Proof.
  exists overdraft_ops. split; [apply overdraft_breaks_nonneg|].
  assert (∃ a, agents (exchange (run_ops overdraft_ops (AIVerse_init 0))) !! "A"%string
                 = Some a ∧ Agent.balance a = (-1000)%Q) as (a & Ha & Hb)
    by (vm_compute; eexists; split; reflexivity).
  exists "A"%string, a. split; [done|]. by rewrite Hb.
Qed.

Local Open Scope string_scope.

Lemma _match_order_fills_witness :
  objects E3_stored !! 2 = Some (limit_order "a1" "A" "XYZ" BUY 20 7 3)
  ∧ ∃ new, trades (state_after (_match_order 2 3) E3_stored)
           = (trades E3_stored ++ new)%list
           ∧ Forall (fill_of (limit_order "a1" "A" "XYZ" BUY 20 7 3)) new.
Proof.
  assert (objects E3_stored !! 2 = Some (limit_order "a1" "A" "XYZ" BUY 20 7 3))
    as H by (vm_compute; reflexivity).
  split; [exact H|].
  apply (_match_order_fills 2 3 E3_stored _ H).
Defined.

Lemma market_order_fills_at_quote_witness :
  objects market_buy_stored !! 2 = Some (market_order "a1" "A" "XYZ" BUY 20 3)
  ∧ outcome_of (_get_market_price "XYZ" BUY) market_buy_stored = Returns (Some 5%Q)
  ∧ ∃ new, trades (state_after (_execute_market_order 2 3) market_buy_stored)
           = (trades market_buy_stored ++ new)%list
           ∧ Forall (fill_of (Order.set_price (Some 5%Q)
                                (market_order "a1" "A" "XYZ" BUY 20 3))) new.
Proof.
  assert (objects market_buy_stored !! 2
          = Some (market_order "a1" "A" "XYZ" BUY 20 3))
    as H by (vm_compute; reflexivity).
  assert (outcome_of (_get_market_price "XYZ" BUY) market_buy_stored
          = Returns (Some 5%Q)) as Hq by (vm_compute; reflexivity).
  split; [exact H|]. split; [exact Hq|].
  apply (market_order_fills_at_quote 2 3 market_buy_stored _ _ H Hq).
Defined.


Lemma opened_Inv : Inv (opened 10000).
Proof.
  change (opened 10000) with
    (exchange (run_ops [(OpRegister "F" "Founder" 20000, 0%Z);
                        (OpCreate "F" "XYZ" "XYZ" "" "generic" 1, 0%Z);
                        (OpRegister "A" "Alice" 10000, 0%Z)] (AIVerse_init 0))).
  apply run_ops_inv; [apply Inv_init|repeat constructor].
Defined.


Lemma add_order_keeps_heap_witness :
  demo_objects_more !! 4 = Some (limit_order "b1" "A" "XYZ" BUY 5 3 5)
  ∧ entry_of (limit_order "b1" "A" "XYZ" BUY 5 3 5) 4 = Some (Some (-3)%Q, 5%Z, 4)
  ∧ comparable demo_objects_more
      ((Some (-3)%Q, 5%Z, 4) :: side_heap BUY demo_book)
  ∧ heap_ordered entry_ltb (side_heap BUY demo_book)
  ∧ ∃ b', add_order demo_objects_more 4 demo_book = (b', Returns tt)
          ∧ side_heap BUY b' ≡ₚ (Some (-3)%Q, 5%Z, 4) :: side_heap BUY demo_book
          ∧ heap_ordered entry_ltb (side_heap BUY b')
          ∧ comparable demo_objects_more (side_heap BUY b')
          ∧ opp_heap BUY b' = opp_heap BUY demo_book
          ∧ OrderBook.ticker b' = OrderBook.ticker demo_book.
Proof.
  assert (demo_objects_more !! 4 = Some (limit_order "b1" "A" "XYZ" BUY 5 3 5))
    as H1 by reflexivity.
  assert (entry_of (limit_order "b1" "A" "XYZ" BUY 5 3 5) 4
          = Some (Some (-3)%Q, 5%Z, 4)) as H2 by reflexivity.
  assert (comparable demo_objects_more
            ((Some (-3)%Q, 5%Z, 4) :: side_heap BUY demo_book)) as H3.
  { intros a b Ha Hb. simpl in Ha, Hb.
    repeat (apply elem_of_cons in Ha as [->|Ha]);
      repeat (apply elem_of_cons in Hb as [->|Hb]);
      try (by apply elem_of_nil in Ha); try (by apply elem_of_nil in Hb);
      reflexivity. }
  assert (heap_ordered entry_ltb (side_heap BUY demo_book)) as H4.
  { intros [|[|i]] x p Hi Hx Hp; simpl in *; try lia; discriminate. }
  split; [exact H1|]. split; [exact H2|]. split; [exact H3|]. split; [exact H4|].
  apply (add_order_keeps_heap demo_objects_more 4 _ _ demo_book H1 H2 H3 H4).
Defined.

